(** * SAFE scoring of tmap (tmap/netx/SAFE.py): model and verification

    The development embeds the functions of [tmap/netx/SAFE.py] in Rocq and
    proves properties of the embedding.

    Modelling conventions.
    - A finite IEEE double is idealised as a real number; the special values
      (the two infinities and not-a-number) are kept, because the source
      relies on how numpy divides by zero and compares against NaN.
      Rounding is not modelled.
    - A pandas DataFrame is an index (row labels) and a list of labelled
      columns.
    - Randomness is an explicit tape of draws, calls into the Graph
      collaborator are recorded in a trace, frames live in a store addressed
      by references, and Python exceptions are results. *)

From Stdlib Require Import String Bool Arith ZArith Reals Lra Lia List Permutation Sorted.
Import ListNotations.

Set Implicit Arguments.

(* ================================================================== *)
(** * Floating-point values *)

Inductive float : Type :=
| Fin (r : R)
| PInf
| NInf
| NaN.

Definition Rleb (a b : R) : bool := if Rle_dec a b then true else false.
Definition Rltb (a b : R) : bool := if Rlt_dec a b then true else false.
Definition Reqb (a b : R) : bool := if Req_dec_T a b then true else false.

(** [x <= y]; every comparison with NaN is false. *)
Definition fleb (x y : float) : bool :=
  match x, y with
  | NaN, _ => false
  | _, NaN => false
  | NInf, _ => true
  | _, PInf => true
  | Fin a, Fin b => Rleb a b
  | _, _ => false
  end.

(** [x >= y] *)
Definition fgeb (x y : float) : bool := fleb y x.

(** [x < y] *)
Definition fltb (x y : float) : bool :=
  match x, y with
  | NaN, _ => false
  | _, NaN => false
  | Fin a, Fin b => Rltb a b
  | NInf, NInf => false
  | NInf, _ => true
  | PInf, _ => false
  | Fin _, PInf => true
  | Fin _, NInf => false
  end.

(** [x > y] *)
Definition fgtb (x y : float) : bool := fltb y x.

(** [x == y] *)
Definition feqb (x y : float) : bool :=
  match x, y with
  | Fin a, Fin b => Reqb a b
  | PInf, PInf => true
  | NInf, NInf => true
  | _, _ => false
  end.

Definition fneg (x : float) : float :=
  match x with
  | Fin a => Fin (- a)
  | PInf => NInf
  | NInf => PInf
  | NaN => NaN
  end.

(** numpy division: a zero divisor gives an infinity, or NaN for [0/0]. *)
Definition fdiv (x y : float) : float :=
  match x, y with
  | NaN, _ => NaN
  | _, NaN => NaN
  | Fin a, Fin b =>
      if Reqb b 0 then
        if Reqb a 0 then NaN else if Rltb 0 a then PInf else NInf
      else Fin (a / b)
  | Fin _, _ => Fin 0
  | PInf, Fin b => if Rleb 0 b then PInf else NInf
  | NInf, Fin b => if Rleb 0 b then NInf else PInf
  | _, _ => NaN
  end.

Definition fmul (x y : float) : float :=
  match x, y with
  | NaN, _ => NaN
  | _, NaN => NaN
  | Fin a, Fin b => Fin (a * b)
  | Fin a, i => if Reqb a 0 then NaN else if Rltb 0 a then i else fneg i
  | i, Fin b => if Reqb b 0 then NaN else if Rltb 0 b then i else fneg i
  | PInf, PInf => PInf
  | NInf, NInf => PInf
  | _, _ => NInf
  end.

Definition fadd (x y : float) : float :=
  match x, y with
  | NaN, _ => NaN
  | _, NaN => NaN
  | Fin a, Fin b => Fin (a + b)
  | PInf, NInf => NaN
  | NInf, PInf => NaN
  | PInf, _ => PInf
  | _, PInf => PInf
  | NInf, _ => NInf
  | _, NInf => NInf
  end.

(** [np.log10] *)
Definition flog10 (x : float) : float :=
  match x with
  | Fin a =>
      if Rltb 0 a then Fin (ln a / ln 10)
      else if Reqb a 0 then NInf else NaN
  | PInf => PInf
  | NInf => NaN
  | NaN => NaN
  end.

(** [np.minimum]: NaN propagates. *)
Definition fmin (x y : float) : float :=
  match x, y with
  | NaN, _ => NaN
  | _, NaN => NaN
  | _, _ => if fleb x y then x else y
  end.

Definition is_nan (x : float) : bool :=
  match x with NaN => true | _ => false end.

(** The order numpy sorts by: NaN goes last. *)
Definition sort_leb (x y : float) : bool :=
  match y with
  | NaN => true
  | _ => fleb x y
  end.

(** An int converted to a double. *)
Definition of_nat (n : nat) : float := Fin (INR n).

(* ================================================================== *)
(** * Labels and frames *)

Inductive label : Type :=
| LInt (z : Z)
| LStr (s : string).

Definition label_eqb (a b : label) : bool :=
  match a, b with
  | LInt x, LInt y => Z.eqb x y
  | LStr x, LStr y => String.eqb x y
  | _, _ => false
  end.

Fixpoint labels_eqb (l1 l2 : list label) : bool :=
  match l1, l2 with
  | [], [] => true
  | a :: l1', b :: l2' => label_eqb a b && labels_eqb l1' l2'
  | _, _ => false
  end.

(** A DataFrame: row labels and labelled columns; each column has one value
    per row label. *)
Record DataFrame (A : Type) : Type := mkDF {
  index : list label;
  columns : list (label * list A)
}.

Definition col_names {A} (df : DataFrame A) : list label := map fst (columns df).
Definition col_values {A} (df : DataFrame A) : list (list A) := map snd (columns df).

(** [df.shape] *)
Definition shape {A} (df : DataFrame A) : nat * nat :=
  (length (index df), length (columns df)).

Definition shape_eqb (s1 s2 : nat * nat) : bool :=
  Nat.eqb (fst s1) (fst s2) && Nat.eqb (snd s1) (snd s2).

(** Every column has one value per row. *)
Definition well_formed {A} (df : DataFrame A) : Prop :=
  Forall (fun c => length (snd c) = length (index df)) (columns df).

Definition row_at {A} (cols : list (label * list A)) (i : nat) : list A :=
  flat_map (fun c => match nth_error (snd c) i with
                     | Some v => [v]
                     | None => []
                     end) cols.

(** [df.T] *)
Definition transpose {A} (df : DataFrame A) : DataFrame A :=
  mkDF (col_names df)
       (map (fun il => (snd il, row_at (columns df) (fst il)))
            (combine (seq 0 (length (index df))) (index df))).

(** [df.apply(f, axis=0)] for an [f] that returns an array of the length of
    its argument: [f] is applied to each column, and the labels are kept. *)
Definition df_apply {A B} (f : list A -> list B) (df : DataFrame A) : DataFrame B :=
  mkDF (index df) (map (fun c => (fst c, f (snd c))) (columns df)).

(** Element-wise operation with a scalar. *)
Definition df_map {A B} (f : A -> B) (df : DataFrame A) : DataFrame B :=
  df_apply (map f) df.

(** [df.div(n)] *)
Definition df_div (df : DataFrame float) (n : float) : DataFrame float :=
  df_map (fun x => fdiv x n) df.

(** [df >= x] *)
Definition df_ge (df : DataFrame float) (x : float) : DataFrame bool :=
  df_map (fun v => fgeb v x) df.

(** [df.where(cond, other)] for a [cond] computed from [df] itself: a value is
    kept where the condition holds and replaced by [other] elsewhere. *)
Definition df_where {A} (df : DataFrame A) (cond : DataFrame bool) (other : A)
  : DataFrame A :=
  mkDF (index df)
       (map (fun cb : (label * list A) * (label * list bool) =>
               (fst (fst cb),
                        map (fun vb : A * bool => if snd vb then fst vb else other)
                            (combine (snd (fst cb)) (snd (snd cb)))))
            (combine (columns df) (columns cond))).

(** The value of a cell, by position: column [j], row [i]. *)
Definition cell {A} (m : list (list A)) (j i : nat) : option A :=
  match nth_error m j with
  | Some c => nth_error c i
  | None => None
  end.

(* ================================================================== *)
(** * statsmodels: [multipletests(pvals, method='fdr_bh')[1]]

    The library is not part of the repository; its Benjamini-Hochberg path is
    modelled step by step: sort, divide by the empirical CDF factor, take the
    running minimum from the right, cap at one, and put the values back in
    the input order. *)

Fixpoint insert_by {A} (leb : A -> A -> bool) (x : A) (l : list A) : list A :=
  match l with
  | [] => [x]
  | y :: l' => if leb x y then x :: l else y :: insert_by leb x l'
  end.

Fixpoint isort_by {A} (leb : A -> A -> bool) (l : list A) : list A :=
  match l with
  | [] => []
  | x :: l' => insert_by leb x (isort_by leb l')
  end.

(** [np.argsort] *)
Definition argsort (l : list float) : list nat :=
  map fst (isort_by (fun a b => sort_leb (snd a) (snd b))
                    (combine (seq 0 (length l)) l)).

(** [np.take] *)
Definition np_take (l : list float) (idx : list nat) : list float :=
  map (fun i => nth i l NaN) idx.

(** [_ecdf]: [arange(1, n+1) / n] *)
Definition _ecdf (n : nat) : list float :=
  map (fun k => fdiv (of_nat k) (of_nat n)) (seq 1 n).

Fixpoint accumulate_from (m : float) (l : list float) : list float :=
  match l with
  | [] => []
  | x :: l' => let m' := fmin m x in m' :: accumulate_from m' l'
  end.

(** [np.minimum.accumulate] *)
Definition minimum_accumulate (l : list float) : list float :=
  match l with
  | [] => []
  | x :: l' => x :: accumulate_from x l'
  end.

(** [a[a > 1] = 1] *)
Definition cap_at_one (l : list float) : list float :=
  map (fun p => if fgtb p (Fin 1) then Fin 1 else p) l.

(** [fdrcorrection(pvals, method='indep', is_sorted=True)[1]] *)
Definition fdrcorrection_sorted (pvals_sorted : list float) : list float :=
  let ecdffactor := _ecdf (length pvals_sorted) in
  let pvals_corrected_raw :=
    map (fun pe => fdiv (fst pe) (snd pe)) (combine pvals_sorted ecdffactor) in
  cap_at_one (rev (minimum_accumulate (rev pvals_corrected_raw))).

Fixpoint set_nth {A} (i : nat) (v : A) (l : list A) : list A :=
  match l, i with
  | [], _ => []
  | _ :: l', O => v :: l'
  | x :: l', S i' => x :: set_nth i' v l'
  end.

(** [out[idx] = vals] *)
Definition scatter (idx : list nat) (vals : list float) (out : list float)
  : list float :=
  fold_left (fun o iv => set_nth (fst iv) (snd iv) o) (combine idx vals) out.

Definition multipletests_fdr_bh (pvals : list float) : list float :=
  let sortind := argsort pvals in
  let pvals_sorted := np_take pvals sortind in
  let pvals_corrected := cap_at_one (fdrcorrection_sorted pvals_sorted) in
  scatter sortind pvals_corrected (repeat NaN (length pvals_corrected)).

(* ================================================================== *)
(** * [convertor] *)

(** [min_p_value = 1.0 / (n_iter + 1.0)] *)
Definition min_p_value (n_iter : nat) : float := Fin (1 / (INR n_iter + 1)).

(** The frame of clipped raw p-values (lines 48-49). *)
Definition p_value_df (compared_count : DataFrame float) (n_iter : nat)
  : DataFrame float :=
  let p := df_div compared_count (of_nat n_iter) in
  df_where p (df_ge p (min_p_value n_iter)) (min_p_value n_iter).

(** The frame of corrected p-values (line 52). *)
Definition p_values_fdr_bh (compared_count : DataFrame float) (n_iter : nat)
  : DataFrame float :=
  df_apply multipletests_fdr_bh (p_value_df compared_count n_iter).

Definition convertor (compared_count : DataFrame float) (n_iter : nat)
  : DataFrame float :=
  df_apply (map (fun p => fdiv (flog10 p) (flog10 (min_p_value n_iter))))
           (p_values_fdr_bh compared_count n_iter).

(* ================================================================== *)
(** * Exceptions, state and the computation monad *)

Inductive exn : Type :=
| AssertionError
| SyntaxError
| ValueError
| IndexError
| KeyError
| TypeError
| AttributeError
| ShapeMismatch.

Inductive result (A : Type) : Type :=
| Ok (a : A)
| Raise (e : exn).

Arguments Ok {A} a.
Arguments Raise {A} e.

Definition rbind {A B} (r : result A) (k : A -> result B) : result B :=
  match r with
  | Ok a => k a
  | Raise e => Raise e
  end.

Notation "x <?- c1 ;; c2" := (rbind c1 (fun x => c2))
  (at level 61, c1 at next level, right associativity).

(** A neighborhood mapping: the dict [node -> nodes]. *)
Definition neighborhoods_t : Type := list (label * list label).

(** A call into a collaborator (the Graph object, [tmap.tda.utils]). *)
Inductive event : Type :=
| EvGetNeighborhoods (nr_threshold : float)
| EvVerifyMetadata (by_ : string)
| EvTransformSN (data : DataFrame float)
| EvNeighborhoodScore (node_data : DataFrame float).

(** A record of [graph._SAFE]. *)
Record safe_params : Type := mkParams {
  pr_shuffle_by : string;
  pr_agg_mode : string;
  pr_nr_threshold : float;
  pr_n_iter : nat;
  pr_data : DataFrame float;
  pr_mode : string
}.

Definition loc : Type := nat.

Record state : Type := mkState {
  store : list (DataFrame float);   (* frames, addressed by position *)
  tape : list nat;                  (* the draws of the global random source *)
  trace : list event;               (* collaborator calls, oldest first *)
  safe_log : list safe_params       (* graph._SAFE *)
}.

Definition M (A : Type) : Type := state -> result A * state.

Definition ret {A} (a : A) : M A := fun s => (Ok a, s).

Definition raise {A} (e : exn) : M A := fun s => (Raise e, s).

Definition bind {A B} (c : M A) (k : A -> M B) : M B :=
  fun s => match c s with
           | (Ok a, s') => k a s'
           | (Raise e, s') => (Raise e, s')
           end.

Notation "x <- c1 ;; c2" := (bind c1 (fun x => c2))
  (at level 61, c1 at next level, right associativity).

Definition lift {A} (r : result A) : M A := fun s => (r, s).

(** [assert b] *)
Definition assert (b : bool) : M unit :=
  if b then ret tt else raise AssertionError.

Definition emit (e : event) : M unit :=
  fun s => (Ok tt, mkState (store s) (tape s) (trace s ++ [e]) (safe_log s)).

(** A new frame object. *)
Definition alloc (df : DataFrame float) : M loc :=
  fun s => (Ok (length (store s)),
            mkState (store s ++ [df]) (tape s) (trace s) (safe_log s)).

Definition deref (l : loc) : M (DataFrame float) :=
  fun s => match nth_error (store s) l with
           | Some df => (Ok df, s)
           | None => (Raise KeyError, s)
           end.

(** The next draw of the random source. *)
Definition draw : M nat :=
  fun s => match tape s with
           | [] => (Ok O, s)
           | r :: t => (Ok r, mkState (store s) t (trace s) (safe_log s))
           end.

Fixpoint mapM {A B} (f : A -> M B) (l : list A) : M (list B) :=
  match l with
  | [] => ret []
  | x :: l' => y <- f x ;; ys <- mapM f l' ;; ret (y :: ys)
  end.

(** [for _ in range(n): acc = body(acc)] *)
Fixpoint for_range {S} (n : nat) (body : S -> M S) (acc : S) : M S :=
  match n with
  | O => ret acc
  | S n' => acc' <- body acc ;; for_range n' body acc'
  end.

(* ================================================================== *)
(** * Collaborators *)

(** The Graph object, as far as [SAFE.py] uses it. *)
Record Graph : Type := mkGraph {
  nodes : list label;
  rawX_rows : nat;     (* graph.rawX.shape[0] *)
  get_neighborhoods : float -> neighborhoods_t;
  neighborhood_score : DataFrame float -> neighborhoods_t -> string -> DataFrame float;
  transform_sn : DataFrame float -> DataFrame float;     (* type='s2n' *)
  node2sample : list label -> list label
}.

(** [tmap.tda.utils] is not among the source files; its two functions are
    parameters of the model. *)
Record Utils : Type := mkUtils {
  verify_metadata : Graph -> DataFrame float -> string -> result (DataFrame float);
  unify_data : DataFrame float -> DataFrame float
}.

Definition call_get_neighborhoods (g : Graph) (nr_threshold : float)
  : M neighborhoods_t :=
  _ <- emit (EvGetNeighborhoods nr_threshold) ;;
  ret (get_neighborhoods g nr_threshold).

Definition call_neighborhood_score (g : Graph) (node_data : DataFrame float)
  (neighborhoods : neighborhoods_t) (mode : string) : M (DataFrame float) :=
  _ <- emit (EvNeighborhoodScore node_data) ;;
  ret (neighborhood_score g node_data neighborhoods mode).

Definition call_transform_sn (g : Graph) (data : DataFrame float)
  : M (DataFrame float) :=
  _ <- emit (EvTransformSN data) ;;
  ret (transform_sn g data).

Definition call_verify_metadata (u : Utils) (g : Graph)
  (metadata : DataFrame float) (by_ : string) : M (DataFrame float) :=
  _ <- emit (EvVerifyMetadata by_) ;;
  lift (verify_metadata u g metadata by_).

(** [graph._add_safe(params)]: the record is appended to the history of the
    graph. *)
Definition _add_safe (p : safe_params) : M unit :=
  fun s => (Ok tt, mkState (store s) (tape s) (trace s) (safe_log s ++ [p])).

(* ================================================================== *)
(** * [_permutation] *)

Fixpoint insert_at {A} (k : nat) (x : A) (l : list A) : list A :=
  match k, l with
  | O, _ => x :: l
  | S _, [] => [x]
  | S k', y :: l' => y :: insert_at k' x l'
  end.

(** [np.random.permutation(col)]: a shuffled copy of [col], each element put
    at a drawn position among those already placed. *)
Fixpoint np_random_permutation {A} (col : list A) : M (list A) :=
  match col with
  | [] => ret []
  | x :: col' =>
      p <- np_random_permutation col' ;;
      r <- draw ;;
      ret (insert_at (r mod (S (length p))) x p)
  end.

(** [data.copy(deep=True)] *)
Definition copy_deep (data : loc) : M loc :=
  d <- deref data ;; alloc d.

(** [p_data.apply(lambda col: np.random.permutation(col), axis=0)] *)
Definition apply_permutation (p_data : loc) : M loc :=
  d <- deref p_data ;;
  cols <- mapM (fun c => v <- np_random_permutation (snd c) ;; ret (fst c, v))
               (columns d) ;;
  alloc (mkDF (index d) cols).

(** The function returns a reference to the permuted frame, or nothing
    ([None]) when [shuffle_by] is neither ['node'] nor ['sample']. *)
Definition _permutation (data : loc) (g : Graph) (shuffle_by : string)
  : M (option loc) :=
  p_data <- copy_deep data ;;
  if String.eqb shuffle_by "node" then
    d <- deref p_data ;;
    _ <- assert (Nat.eqb (fst (shape d)) (length (nodes g))) ;;
    p_data <- apply_permutation p_data ;;
    ret (Some p_data)
  else if String.eqb shuffle_by "sample" then
    d <- deref p_data ;;
    _ <- assert (Nat.eqb (fst (shape d)) (rawX_rows g)) ;;
    p_data <- apply_permutation p_data ;;
    d <- deref p_data ;;
    t <- call_transform_sn g d ;;
    p_data <- alloc t ;;
    ret (Some p_data)
  else ret None.

(* ================================================================== *)
(** * [_SAFE] *)

(** A numpy array of counts: its shape and its columns. *)
Record ndarray : Type := mkArr {
  nd_shape : nat * nat;
  nd_data : list (list nat)
}.

(** [np.zeros(shape)] *)
Definition np_zeros (sh : nat * nat) : ndarray :=
  mkArr sh (repeat (repeat O (fst sh)) (snd sh)).

(** [a op b] on two frames; pandas refuses frames that are not identically
    labelled. *)
Definition df_compare (op : float -> float -> bool) (a b : DataFrame float)
  : result (DataFrame bool) :=
  if labels_eqb (index a) (index b) && labels_eqb (col_names a) (col_names b)
  then Ok (mkDF (index a)
             (map (fun ab : (label * list float) * (label * list float) =>
                     (fst (fst ab),
                      map (fun xy : float * float => op (fst xy) (snd xy))
                          (combine (snd (fst ab)) (snd (snd ab)))))
                  (combine (columns a) (columns b))))
  else Raise ValueError.

(** [arr[mask] += 1] *)
Definition mask_incr (arr : ndarray) (mask : DataFrame bool) : result ndarray :=
  if shape_eqb (nd_shape arr) (shape mask)
  then Ok (mkArr (nd_shape arr)
             (map (fun cm : list nat * list bool =>
                     map (fun nb : nat * bool => if snd nb then S (fst nb) else fst nb)
                         (combine (fst cm) (snd cm)))
                  (combine (nd_data arr) (col_values mask))))
  else Raise IndexError.

(** Lines 96-97: the two counters are updated from one permuted score frame. *)
Definition count_step (p_neighborhood_scores neighborhood_scores : DataFrame float)
  (counts : ndarray * ndarray) : result (ndarray * ndarray) :=
  ge <?- df_compare fgeb p_neighborhood_scores neighborhood_scores ;;
  enr <?- mask_incr (fst counts) ge ;;
  le <?- df_compare fleb p_neighborhood_scores neighborhood_scores ;;
  dec <?- mask_incr (snd counts) le ;;
  Ok (enr, dec).

(** The body of the permutation loop (lines 93-97).  When [_permutation]
    returns nothing the collaborator has no frame to aggregate. *)
Definition trial (g : Graph) (data : loc) (shuffle_by : string)
  (neighborhoods : neighborhoods_t) (agg_mode : string)
  (neighborhood_scores : DataFrame float) (counts : ndarray * ndarray)
  : M (ndarray * ndarray) :=
  p_data <- _permutation data g shuffle_by ;;
  p_neighborhood_scores <-
    match p_data with
    | Some l => d <- deref l ;; call_neighborhood_score g d neighborhoods agg_mode
    | None => raise AttributeError
    end ;;
  lift (count_step p_neighborhood_scores neighborhood_scores counts).

(** [pd.DataFrame(arr, index=..., columns=...)] *)
Definition pd_DataFrame (arr : ndarray) (idx cols : list label)
  : result (DataFrame float) :=
  if shape_eqb (nd_shape arr) (length idx, length cols)
  then Ok (mkDF idx (combine cols (map (map of_nat) (nd_data arr))))
  else Raise ValueError.

Inductive safe_result : Type :=
| Single (scores : DataFrame float)
| Both (enrich decline : DataFrame float)
| NoResult.

Definition valid_mode (_mode : string) : bool :=
  String.eqb _mode "enrich" || String.eqb _mode "decline" || String.eqb _mode "both".

(** The permutation loop with its two counters (lines 88-97). *)
Definition permutation_loop (g : Graph) (data : loc) (n_iter : nat)
  (shuffle_by : string) (neighborhoods : neighborhoods_t) (agg_mode : string)
  (neighborhood_scores : DataFrame float) (sh : nat * nat)
  : M (ndarray * ndarray) :=
  for_range n_iter
    (trial g data shuffle_by neighborhoods agg_mode neighborhood_scores)
    (np_zeros sh, np_zeros sh).

(** [verbose] only selects whether progress is displayed and is left out. *)
Definition _SAFE (g : Graph) (data : loc) (n_iter : nat) (nr_threshold : float)
  (neighborhoods : option neighborhoods_t) (shuffle_by _mode agg_mode : string)
  : M safe_result :=
  if negb (valid_mode _mode) then raise SyntaxError else
  node_data <- (if String.eqb shuffle_by "sample"
                then d <- deref data ;; t <- call_transform_sn g d ;; alloc t
                else ret data) ;;
  neighborhoods <- match neighborhoods with
                   | None => call_get_neighborhoods g nr_threshold
                   | Some n => ret n
                   end ;;
  nd <- deref node_data ;;
  neighborhood_scores <- call_neighborhood_score g nd neighborhoods agg_mode ;;
  counts <- permutation_loop g data n_iter shuffle_by neighborhoods agg_mode
              neighborhood_scores (shape nd) ;;
  d <- deref data ;;
  neighborhood_enrichments <- lift (pd_DataFrame (fst counts) (nodes g) (col_names d)) ;;
  neighborhood_decline <- lift (pd_DataFrame (snd counts) (nodes g) (col_names d)) ;;
  let safe_scores_enrich := convertor neighborhood_enrichments n_iter in
  let safe_scores_decline := convertor neighborhood_decline n_iter in
  if String.eqb _mode "both" then ret (Both safe_scores_enrich safe_scores_decline)
  else if String.eqb _mode "enrich" then ret (Single safe_scores_enrich)
  else if String.eqb _mode "decline" then ret (Single safe_scores_decline)
  else ret NoResult.

(* ================================================================== *)
(** * [SAFE_batch] *)

Definition SAFE_batch (u : Utils) (g : Graph) (metadata : DataFrame float)
  (n_iter : nat) (nr_threshold : float) (neighborhoods : option neighborhoods_t)
  (shuffle_by _mode agg_mode : string) : M safe_result :=
  neighborhoods <- match neighborhoods with
                   | None => call_get_neighborhoods g nr_threshold
                   | Some n => ret n
                   end ;;
  meta_data <- (if String.eqb shuffle_by "node"
                then call_verify_metadata u g metadata "node"
                else call_verify_metadata u g metadata "sample") ;;
  data <- alloc meta_data ;;
  all_safe_scores <- _SAFE g data n_iter nr_threshold (Some neighborhoods)
                       shuffle_by _mode agg_mode ;;
  let params := mkParams shuffle_by agg_mode nr_threshold n_iter in
  _ <- (if String.eqb _mode "both" then
          match all_safe_scores with
          | Both e d =>
              _ <- _add_safe (params e "enrich"%string) ;;
              _add_safe (params d "decline"%string)
          | _ => raise TypeError
          end
        else
          match all_safe_scores with
          | Single d => _add_safe (params d _mode)
          | _ => raise TypeError
          end) ;;
  ret all_safe_scores.

(* ================================================================== *)
(** * [get_significant_nodes] *)

(** What [pd.isnull] can be handed here: a label or a number. *)
Inductive scalar : Type :=
| SLabel (l : label)
| SFloat (x : float).

Definition pd_isnull (v : scalar) : bool :=
  match v with
  | SFloat NaN => true
  | _ => false
  end.

Definition label_eq_dec (a b : label) : {a = b} + {a <> b}.
Proof.
  decide equality; [apply Z.eq_dec | apply string_dec].
Defined.

(** [df.to_dict()]: [{column: {index: value}}] *)
Definition to_dict {A} (df : DataFrame A) : list (label * list (label * A)) :=
  map (fun c => (fst c, combine (index df) (snd c))) (columns df).

(** Iterating over a dict yields its keys. *)
Definition dict_iter {K V} (d : list (K * V)) : list K := map fst d.

(** [d[k]] *)
Fixpoint lookup {V} (k : label) (d : list (label * V)) : result V :=
  match d with
  | [] => Raise KeyError
  | (k', v) :: d' => if label_eqb k k' then Ok v else lookup k d'
  end.

(** Lines 201-203: [{k: [v for v in vlist if not pd.isnull(v)]
                     for k, vlist in filter_dict.items()}] *)
Definition significant_centroides_of
  (filter_dict : list (label * list (label * float))) : list (label * list label) :=
  map (fun kv => (fst kv,
                  filter (fun v => negb (pd_isnull (SLabel v))) (dict_iter (snd kv))))
      filter_dict.

(** [[n for n in nodes for n in neighborhoods[n]]] *)
Fixpoint expand (neighborhoods : neighborhoods_t) (nds : list label)
  : result (list label) :=
  match nds with
  | [] => Ok []
  | n :: rest =>
      ns <?- lookup n neighborhoods ;;
      r <?- expand neighborhoods rest ;;
      Ok (ns ++ r)
  end.

(** [list(set(l))]; Python leaves the order unspecified, the model keeps one
    occurrence of each element. *)
Definition py_set (l : list label) : list label := nodup label_eq_dec l.

(** Lines 205-207 *)
Fixpoint significant_nodes_of (neighborhoods : neighborhoods_t)
  (cents : list (label * list label)) : result (list (label * list label)) :=
  match cents with
  | [] => Ok []
  | (f, nds) :: rest =>
      e <?- expand neighborhoods nds ;;
      r <?- significant_nodes_of neighborhoods rest ;;
      Ok ((f, py_set e) :: r)
  end.

Inductive sig_result : Type :=
| NodesOnly (significant_nodes : list (label * list label))
| WithCentroids (significant_centroides significant_nodes : list (label * list label)).

(** [graph._SAFE[-1]['n_iter']] *)
Definition last_n_iter : M nat :=
  fun s => match rev (safe_log s) with
           | [] => (Raise IndexError, s)
           | p :: _ => (Ok (pr_n_iter p), s)
           end.

(** The part of [get_significant_nodes] after the threshold is resolved
    (lines 199-207), for a frame [safe_scores] of nodes x features. *)
Definition select_significant (neighborhoods : neighborhoods_t)
  (safe_scores : DataFrame float) (SAFE_pvalue : float)
  : result (list (label * list label) * list (label * list label)) :=
  let filter_dict :=
    to_dict (df_where safe_scores (df_ge safe_scores SAFE_pvalue) NaN) in
  let significant_centroides := significant_centroides_of filter_dict in
  significant_nodes <?- significant_nodes_of neighborhoods significant_centroides ;;
  Ok (significant_centroides, significant_nodes).

Definition get_significant_nodes (u : Utils) (g : Graph)
  (safe_scores : DataFrame float) (SAFE_pvalue : option float)
  (nr_threshold pvalue : float) (n_iter : option nat) (centroids : bool)
  : M sig_result :=
  neighborhoods <- call_get_neighborhoods g nr_threshold ;;
  let safe_scores := unify_data u safe_scores in
  let safe_scores :=
    if negb (Nat.eqb (fst (shape safe_scores)) (length (nodes g)))
    then transpose safe_scores else safe_scores in
  _ <- assert (Nat.eqb (fst (shape safe_scores)) (length (nodes g))) ;;
  SAFE_pvalue <- match SAFE_pvalue with
                 | Some v => ret v
                 | None =>
                     n_iter <- match n_iter with
                               | Some n => ret n
                               | None => last_n_iter
                               end ;;
                     ret (fdiv (flog10 pvalue) (flog10 (min_p_value n_iter)))
                 end ;;
  cn <- lift (select_significant neighborhoods safe_scores SAFE_pvalue) ;;
  if centroids then ret (WithCentroids (fst cn) (snd cn))
  else ret (NodesOnly (snd cn)).

(* ================================================================== *)
(** * [get_SAFE_summary] *)

(** A pandas sum: NaN entries are skipped. *)
Definition pd_sum (l : list float) : float :=
  fold_left fadd (filter (fun x => negb (is_nan x)) l) (Fin 0).

(** [df.sum(1)], keyed by the index. *)
Definition sum_rows (df : DataFrame float) : list (label * float) :=
  map (fun il => (snd il, pd_sum (row_at (columns df) (fst il))))
      (combine (seq 0 (length (index df))) (index df)).

(** [df.sum(axis=0)], keyed by the columns. *)
Definition sum_cols (df : DataFrame float) : list (label * float) :=
  map (fun c => (fst c, pd_sum (snd c))) (columns df).

(** The position of a label in an index. *)
Fixpoint position (k : label) (idx : list label) : result nat :=
  match idx with
  | [] => Raise KeyError
  | k' :: idx' => if label_eqb k k' then Ok O
                  else (i <?- position k idx' ;; Ok (S i))
  end.

Fixpoint mapR {A B} (f : A -> result B) (l : list A) : result (list B) :=
  match l with
  | [] => Ok []
  | x :: l' => y <?- f x ;; ys <?- mapR f l' ;; Ok (y :: ys)
  end.

Definition nth_result {A} (l : list A) (i : nat) : result A :=
  match nth_error l i with
  | Some v => Ok v
  | None => Raise IndexError
  end.

(** [df.loc[row, cols]] *)
Definition loc_row (df : DataFrame float) (row : label) (cols : list label)
  : result (list float) :=
  i <?- position row (index df) ;;
  mapR (fun c => vs <?- lookup c (columns df) ;; nth_result vs i) cols.

(** [df.loc[rows, col]] *)
Definition loc_col (df : DataFrame float) (rows : list label) (col : label)
  : result (list float) :=
  vs <?- lookup col (columns df) ;;
  mapR (fun r => i <?- position r (index df) ;; nth_result vs i) rows.

(** The helper of lines 280-284. *)
Definition _safe_div (x y : float) : float :=
  if feqb y (Fin 0) then NaN else fdiv (fmul x (Fin 1)) y.

(** The six columns of the summary table, each keyed by feature. *)
Record summary : Type := mkSummary {
  SAFE_total_score : list (label * float);
  number_of_enriched_nodes : list (label * nat);
  number_of_enriched_samples : list (label * nat);
  SAFE_enriched_score : list (label * float);
  enriched_abundance_ratio : list (label * float);
  enriched_SAFE_score_ratio : list (label * float)
}.

Inductive summary_result : Type :=
| Details (enriched_nodes : list (label * list label))
          (enriched_score : list (label * float))
| Table (t : summary).

Definition get_SAFE_summary (u : Utils) (g : Graph)
  (metadata safe_scores : DataFrame float) (n_iter : option nat)
  (p_value nr_threshold : float) (_output_details : bool) : M summary_result :=
  let safe_scores :=
    if negb (Nat.eqb (fst (shape safe_scores)) (snd (shape metadata)))
    then transpose safe_scores else safe_scores in
  _ <- assert (Nat.eqb (fst (shape safe_scores)) (snd (shape metadata))) ;;
  let feature_names := index safe_scores in
  let safe_total_score := sum_rows safe_scores in
  sig <- get_significant_nodes u g safe_scores None nr_threshold p_value n_iter true ;;
  match sig with
  | NodesOnly _ => raise TypeError
  | WithCentroids safe_significant_centroides safe_significant_nodes =>
      let safe_enriched_nodes_n :=
        map (fun fn => (fst fn, length (snd fn))) safe_significant_nodes in
      let safe_significant_samples :=
        map (fun fn => (fst fn, node2sample g (snd fn))) safe_significant_nodes in
      let safe_significant_samples_n :=
        map (fun fs => (fst fs, length (snd fs))) safe_significant_samples in
      safe_significant_score <-
        lift (mapR (fun feature =>
                      cs <?- lookup feature safe_significant_centroides ;;
                      vals <?- loc_row safe_scores feature cs ;;
                      Ok (feature, pd_sum vals))
                   feature_names) ;;
      if _output_details then
        ret (Details safe_significant_nodes safe_significant_score)
      else
        let feature_total := sum_cols metadata in
        enriched_abundance_ratio <-
          lift (mapR (fun feature =>
                        samples <?- lookup feature safe_significant_samples ;;
                        vals <?- loc_col metadata samples feature ;;
                        total <?- lookup feature feature_total ;;
                        Ok (feature, fdiv (pd_sum vals) total))
                     feature_names) ;;
        enriched_safe_ratio <-
          lift (mapR (fun feature =>
                        x <?- lookup feature safe_significant_score ;;
                        y <?- lookup feature safe_total_score ;;
                        Ok (feature, _safe_div x y))
                     feature_names) ;;
        ret (Table (mkSummary safe_total_score safe_enriched_nodes_n
                      safe_significant_samples_n safe_significant_score
                      enriched_abundance_ratio enriched_safe_ratio))
  end.

(* ================================================================== *)
(** * Predicates on frames and values *)

(** A frame of counts: every cell holds an integer between 0 and [n_iter]. *)
Definition count_matrix (n_iter : nat) (counts : DataFrame float) : Prop :=
  Forall (fun c => Forall (fun x => exists k, (k <= n_iter)%nat /\ x = of_nat k) (snd c))
         (columns counts).

(** A finite value between two bounds. *)
Definition in_range (lo hi : R) (x : float) : Prop :=
  exists r, x = Fin r /\ (lo <= r <= hi)%R.

(** A finite value above a bound. *)
Definition fin_ge (lo : R) (x : float) : Prop :=
  exists r, x = Fin r /\ (lo <= r)%R.

(** What lines 48-49 do to one count. *)
Definition code_raw_p (n_iter : nat) (count : float) : float :=
  let p := fdiv count (of_nat n_iter) in
  if fgeb p (min_p_value n_iter) then p else min_p_value n_iter.

(** Line 53, for one corrected p-value. *)
Definition code_score (n_iter : nat) (p : float) : float :=
  fdiv (flog10 p) (flog10 (min_p_value n_iter)).

(** Whether the comparison [op] holds between the permuted scores [p] and the
    observed scores [obs] in the cell of column [j] and row [i]. *)
Definition holds_at (op : float -> float -> bool) (obs p : DataFrame float)
  (j i : nat) : bool :=
  match cell (col_values p) j i, cell (col_values obs) j i with
  | Some x, Some y => op x y
  | _, _ => false
  end.

(** The number of trials, among the permuted score frames [ps], in which the
    comparison holds in a cell. *)
Definition trials_where (op : float -> float -> bool) (obs : DataFrame float)
  (ps : list (DataFrame float)) (j i : nat) : nat :=
  length (filter (fun p => holds_at op obs p j i) ps).

(** Every trial has a score to compare in the cell. *)
Definition compared_at (obs : DataFrame float) (ps : list (DataFrame float))
  (j i : nat) : Prop :=
  Forall (fun p => exists x y, cell (col_values p) j i = Some x
                               /\ cell (col_values obs) j i = Some y) ps.

(** The scores compared in the cell are numbers. *)
Definition numeric_at (obs : DataFrame float) (ps : list (DataFrame float))
  (j i : nat) : Prop :=
  Forall (fun p => forall x y, cell (col_values p) j i = Some x ->
                               cell (col_values obs) j i = Some y ->
                               is_nan x = false /\ is_nan y = false) ps.

(** The two counters after the trials whose permuted scores are [ps]. *)
Definition counters_of (obs : DataFrame float) (ps : list (DataFrame float))
  (counts : ndarray * ndarray) : Prop :=
  forall j i,
    match cell (nd_data (fst counts)) j i, cell (nd_data (snd counts)) j i with
    | Some a, Some b =>
        a = trials_where fgeb obs ps j i
        /\ b = trials_where fleb obs ps j i
        /\ compared_at obs ps j i
    | None, None => True
    | _, _ => False
    end.

(** The two counters after [k] trials. *)
Definition counters_after (g : Graph) (nb : neighborhoods_t) (agg : string)
  (obs : DataFrame float) (k : nat) (counts : ndarray * ndarray) : Prop :=
  exists ps,
    length ps = k
    /\ Forall (fun p => exists d, p = neighborhood_score g d nb agg) ps
    /\ counters_of obs ps counts.

(** Two states that differ at most in the random tape. *)
Definition same_but_tape (s s' : state) : Prop :=
  store s' = store s /\ trace s' = trace s /\ safe_log s' = safe_log s.

(** [d'] has the labels of [d] and each of its columns is a rearrangement of
    the column of [d] at the same place. *)
Definition column_permuted (d d' : DataFrame float) : Prop :=
  index d' = index d
  /\ Forall2 (fun c c' => fst c' = fst c /\ Permutation (snd c) (snd c'))
             (columns d) (columns d').

(** The collaborator calls of one trial that shuffles by sample, for the
    permuted frame [pd]. *)
Definition sample_trial_calls (g : Graph) (pd : DataFrame float) : list event :=
  [EvTransformSN pd; EvNeighborhoodScore (transform_sn g pd)].

(** The counters obtained from the permuted sample-space frames [pds], one
    per trial: each is transformed to node space and aggregated, and then
    compared with the observed scores [obs]. *)
Fixpoint sample_counts (g : Graph) (nb : neighborhoods_t) (agg : string)
  (obs : DataFrame float) (pds : list (DataFrame float))
  (counts : ndarray * ndarray) : result (ndarray * ndarray) :=
  match pds with
  | [] => Ok counts
  | pd :: rest =>
      c <?- count_step (neighborhood_score g (transform_sn g pd) nb agg) obs counts ;;
      sample_counts g nb agg obs rest c
  end.

(** The value [_SAFE] returns for a mode, given the two score frames. *)
Definition select_mode (_mode : string) (e d : DataFrame float) : safe_result :=
  if String.eqb _mode "both" then Both e d
  else if String.eqb _mode "enrich" then Single e
  else if String.eqb _mode "decline" then Single d
  else NoResult.

(** The neighborhoods [_SAFE] works with. *)
Definition effective_neighborhoods (g : Graph) (nr_threshold : float)
  (neighborhoods : option neighborhoods_t) : neighborhoods_t :=
  match neighborhoods with
  | Some n => n
  | None => get_neighborhoods g nr_threshold
  end.

(** The lookup event of [_SAFE], when it has to look the neighborhoods up. *)
Definition neighborhood_calls (nr_threshold : float)
  (neighborhoods : option neighborhoods_t) : list event :=
  match neighborhoods with
  | Some _ => []
  | None => [EvGetNeighborhoods nr_threshold]
  end.

(** Every frame of [s] is still in [s'], at its place. *)
Definition store_extends (s s' : state) : Prop :=
  forall l x, nth_error (store s) l = Some x -> nth_error (store s') l = Some x.

(** A computation only ever appends to the trace of collaborator calls. *)
Definition trace_grows {A} (c : M A) : Prop :=
  forall s, exists rest, trace (snd (c s)) = trace s ++ rest.

(** The axis [SAFE_batch] hands to [verify_metadata]. *)
Definition verification_axis (shuffle_by : string) : string :=
  if String.eqb shuffle_by "node" then "node"%string else "sample"%string.

(** The state [SAFE_batch] reaches before it calls [_SAFE], when the
    verification returns [v]. *)
Definition state_after_verification (s : state) (nr_threshold : float)
  (neighborhoods : option neighborhoods_t) (shuffle_by : string)
  (v : list (DataFrame float)) : state :=
  mkState (store s ++ v) (tape s)
          (trace s ++ neighborhood_calls nr_threshold neighborhoods
             ++ [EvVerifyMetadata (verification_axis shuffle_by)])
          (safe_log s).

(* ================================================================== *)
(** * A small graph to run the functions on

    Four nodes A, B, C, D in a chain, every node holding one sample of the
    same name, and the aggregation that sums a feature over a neighborhood. *)

Definition ex_nodes : list label :=
  [LStr "A"; LStr "B"; LStr "C"; LStr "D"].

Definition ex_neighborhoods : neighborhoods_t :=
  [(LStr "A", [LStr "A"; LStr "B"]);
   (LStr "B", [LStr "A"; LStr "B"; LStr "C"]);
   (LStr "C", [LStr "B"; LStr "C"; LStr "D"]);
   (LStr "D", [LStr "C"; LStr "D"])].

(** The values of a column at the rows labelled [ms]. *)
Definition values_at (idx : list label) (col : list float) (ms : list label)
  : list float :=
  flat_map (fun m => match position m idx with
                     | Ok i => match nth_error col i with
                               | Some v => [v]
                               | None => []
                               end
                     | Raise _ => []
                     end) ms.

Definition neighborhood_sum (node_data : DataFrame float)
  (neighborhoods : neighborhoods_t) (mode : string) : DataFrame float :=
  mkDF (index node_data)
       (map (fun c => (fst c,
                       map (fun n => match lookup n neighborhoods with
                                     | Ok ms => pd_sum (values_at (index node_data) (snd c) ms)
                                     | Raise _ => NaN
                                     end)
                           (index node_data)))
            (columns node_data)).

Definition ex_graph : Graph :=
  mkGraph ex_nodes 4 (fun _ => ex_neighborhoods) neighborhood_sum
          (fun d => d) (fun ns => ns).

(** A verification that checks the row count the axis asks for. *)
Definition ex_verify (g : Graph) (metadata : DataFrame float) (by_ : string)
  : result (DataFrame float) :=
  if Nat.eqb (fst (shape metadata))
             (if String.eqb by_ "node" then length (nodes g) else rawX_rows g)
  then Ok metadata else Raise ShapeMismatch.

Definition ex_utils : Utils := mkUtils ex_verify (fun d => d).

Definition ex_metadata : DataFrame float :=
  mkDF ex_nodes [(LStr "f", [Fin 10; Fin 1; Fin 1; Fin 10])].

Definition ex_state : state := mkState [ex_metadata] [0; 1; 0; 2]%nat [] [].

Definition empty_state : state := mkState [] [] [] [].

(** A computation is rejected at entry: it raises the mode error and nothing
    has happened (no collaborator was called, no frame was made, no draw was
    taken, no record was written). *)
Definition rejected_at_entry {A} (c : M A) (s : state) : Prop :=
  c s = (Raise SyntaxError, s).

(* ================================================================== *)
(** * The Significance Extractor as the specification words it *)

(** "For each feature, select all node identifiers whose score >= threshold." *)
Definition spec_centroids (threshold : float) (safe_scores : DataFrame float)
  : list (label * list label) :=
  map (fun c => (fst c,
                 map fst (filter (fun nv => fgeb (snd nv) threshold)
                                 (combine (index safe_scores) (snd c)))))
      (columns safe_scores).

(** Every cell of a frame is NaN. *)
Definition all_nan (df : DataFrame float) : Prop :=
  Forall (fun c => Forall (fun x => x = NaN) (snd c)) (columns df).

Definition all_nan_result (r : safe_result) : Prop :=
  match r with
  | Single d => all_nan d
  | Both e d => all_nan e /\ all_nan d
  | NoResult => True
  end.

(** Scores of one feature over the four nodes: only node A reaches one half. *)
Definition ex_scores : DataFrame float :=
  mkDF ex_nodes [(LStr "f", [Fin 1; Fin 0; Fin 0; Fin 0])].

(** A count frame for one trial. *)
Definition ex_counts : DataFrame float :=
  mkDF ex_nodes [(LStr "f", [of_nat 1; of_nat 0; of_nat 0; of_nat 1])].

(** ** A graph that leaves one sample out

    Two nodes; node 0 holds sample s0, node 1 holds s0 and s1, and sample s2
    belongs to no node. *)

Definition members (n : label) : list label :=
  match n with
  | LInt 0 => [LStr "s0"]
  | LInt 1 => [LStr "s0"; LStr "s1"]
  | _ => []
  end.

Definition ex2_neighborhoods : neighborhoods_t :=
  [(LInt 0, [LInt 0; LInt 1]); (LInt 1, [LInt 0; LInt 1])].

Definition ex2_graph : Graph :=
  mkGraph [LInt 0; LInt 1] 3 (fun _ => ex2_neighborhoods) neighborhood_sum
          (fun d => d) (fun ns => py_set (flat_map members ns)).

(** One feature whose values over the three samples sum to zero. *)
Definition ex2_metadata : DataFrame float :=
  mkDF [LStr "s0"; LStr "s1"; LStr "s2"] [(LStr "f", [Fin 1; Fin 1; Fin (-2)])].

(** Its SAFE scores, features x nodes. *)
Definition ex2_scores : DataFrame float :=
  mkDF [LStr "f"] [(LInt 0, [Fin 1]); (LInt 1, [Fin 1])].

(** The counts no trial has touched. *)
Definition ex_zero_counts : DataFrame float :=
  mkDF ex_nodes [(LStr "f", [of_nat 0; of_nat 0; of_nat 0; of_nat 0])].

(** ** A graph whose aggregation has no number to give

    The aggregation returns NaN in every cell, as the mean of a feature of
    which every value is missing does. *)

Definition nan_score (node_data : DataFrame float)
  (neighborhoods : neighborhoods_t) (mode : string) : DataFrame float :=
  mkDF (index node_data)
       (map (fun c => (fst c, map (fun _ : float => NaN) (snd c)))
            (columns node_data)).

Definition nan_graph : Graph :=
  mkGraph ex_nodes 4 (fun _ => ex_neighborhoods) nan_score
          (fun d => d) (fun ns => ns).

(* ================================================================== *)
(** * The Benjamini-Hochberg correction, from its definition

    The adjusted value of a p-value [x] among the p-values [ps] is the
    smallest of 1 and of m * y / rank(y) over the p-values y >= x, where m is
    the number of p-values and rank(y) the number of p-values <= y. *)

Definition bh_rank (ps : list R) (y : R) : nat :=
  length (filter (fun x => Rleb x y) ps).

Definition bh_term (ps : list R) (y : R) : R :=
  (INR (length ps) * y / INR (bh_rank ps y))%R.

(** The smallest of [d] and the elements of [l]. *)
Definition list_min (d : R) (l : list R) : R := fold_right Rmin d l.

Definition bh_adjusted (ps : list R) (x : R) : R :=
  list_min 1 (map (bh_term ps) (filter (fun y => Rleb x y) ps)).

Definition benjamini_hochberg (ps : list R) : list R :=
  map (bh_adjusted ps) ps.

(** ** The steps of the library on real numbers *)

Fixpoint running_min (m : R) (l : list R) : list R :=
  match l with
  | [] => []
  | x :: l' => Rmin m x :: running_min (Rmin m x) l'
  end.

(** The minimum taken from the left. *)
Definition running_mins (l : list R) : list R :=
  match l with
  | [] => []
  | x :: l' => x :: running_min x l'
  end.

(** The minimum taken from the right. *)
Fixpoint suffix_mins (l : list R) : list R :=
  match l with
  | [] => []
  | x :: l' => list_min x l' :: suffix_mins l'
  end.

(** The sorted p-values divided by the empirical CDF factor. *)
Definition raw_corrected (ss : list R) : list R :=
  map (fun sk => (fst sk / (INR (snd sk) / INR (length ss)))%R)
      (combine ss (seq 1 (length ss))).

Definition corrected_sorted (ss : list R) : list R :=
  map (fun r => Rmin r 1) (suffix_mins (raw_corrected ss)).

(** The p-values with their places, sorted by value. *)
Definition sorted_pairs (ps : list R) : list (nat * R) :=
  isort_by (fun a b => Rleb (snd a) (snd b)) (combine (seq 0 (length ps)) ps).

(* ================================================================== *)
(** * The Score Converter as the specification words it

    The specification speaks of numbers; it is written on real numbers and
    on counts that are natural numbers. *)

(** "Define min_p = 1/(n_iter+1)." *)
Definition spec_min_p (n_iter : nat) : R := 1 / (INR n_iter + 1).

(** "Raw empirical p = counts / n_iter, clipped below at min_p." *)
Definition spec_raw_p (n_iter : nat) (count : nat) : R :=
  Rmax (INR count / INR n_iter) (spec_min_p n_iter).

Definition log10 (x : R) : R := ln x / ln 10.

(** "Final SAFE score = log10(corrected_p) / log10(min_p)." *)
Definition spec_score (n_iter : nat) (corrected_p : R) : R :=
  log10 corrected_p / log10 (spec_min_p n_iter).

(** "Apply a false-discovery-rate multiple-testing correction independently
    per feature (column), over the node dimension." *)
Definition spec_convert_column (n_iter : nat) (col : list nat) : list R :=
  map (spec_score n_iter) (benjamini_hochberg (map (spec_raw_p n_iter) col)).

Definition spec_convertor (counts : DataFrame nat) (n_iter : nat) : DataFrame R :=
  df_apply (spec_convert_column n_iter) counts.

(** An integer count matrix with values in [[0, n_iter]]. *)
Definition integer_counts (n_iter : nat) (counts : DataFrame nat) : Prop :=
  Forall (fun c => Forall (fun k => (k <= n_iter)%nat) (snd c)) (columns counts).

(** The counts of one trial on the four nodes. *)
Definition ex_trial_counts : DataFrame nat :=
  mkDF ex_nodes [(LStr "f", [1; 0; 0; 1]%nat)].

(** An aggregation that returns its scores under the labels of the table it
    is given. *)
Definition keeps_labels (g : Graph) : Prop :=
  forall d nb agg,
    index (neighborhood_score g d nb agg) = index d
    /\ col_names (neighborhood_score g d nb agg) = col_names d.

(** Every cell of a frame is a number between 0 and 1. *)
Definition unit_scores (df : DataFrame float) : Prop :=
  Forall (fun c => Forall (in_range 0 1) (snd c)) (columns df).

Definition unit_result (r : safe_result) : Prop :=
  match r with
  | Single d => unit_scores d
  | Both e d => unit_scores e /\ unit_scores d
  | NoResult => True
  end.

(* ================================================================== *)
(** * [get_enriched_samples] *)

(** Lines 223-225; [nodes] is the dict from a node to its samples. *)
Fixpoint get_enriched_samples (enriched_nodes : list (label * list label))
  (nodes : list (label * list label)) : result (list (label * list label)) :=
  match enriched_nodes with
  | [] => Ok []
  | (feature, node_ids) :: rest =>
      samples <?- expand nodes node_ids ;;
      r <?- get_enriched_samples rest nodes ;;
      Ok ((feature, py_set samples) :: r)
  end.

(* ================================================================== *)
(** * Predicates for the properties below *)

(** [l] holds, once each, the members that the dict [m] lists under the keys
    [keys]. *)
Definition union_of (m : list (label * list label)) (keys l : list label) : Prop :=
  NoDup l
  /\ forall x, In x l <-> exists k ms, In k keys /\ lookup k m = Ok ms /\ In x ms.

(** Every key of [keys] is a key of the dict [m]. *)
Definition all_keys (m : list (label * list label)) (keys : list label) : Prop :=
  Forall (fun k => In k (map fst m)) keys.

(** A computation takes every state to a state related to it by [R]. *)
Definition preserves (R : state -> state -> Prop) {A} (c : M A) : Prop :=
  forall s, R s (snd (c s)).

(** The history of the graph is as it was. *)
Definition log_kept (s s' : state) : Prop := safe_log s' = safe_log s.

(** The collaborator calls made between two states all satisfy [P]. *)
Definition calls_only (P : event -> Prop) (s s' : state) : Prop :=
  exists rest, trace s' = trace s ++ rest /\ Forall P rest.

(** A call of [neighborhood_score]. *)
Definition is_score (e : event) : Prop :=
  match e with
  | EvNeighborhoodScore _ => True
  | _ => False
  end.

(** What [_SAFE] may call when it does not shuffle by sample: the
    aggregation, and the lookup of the neighborhoods when none were passed. *)
Definition node_call (nr_threshold : float)
  (neighborhoods : option neighborhoods_t) (e : event) : Prop :=
  is_score e \/ (neighborhoods = None /\ e = EvGetNeighborhoods nr_threshold).

(** A frame with the row labels [idx] and the column labels [cols]. *)
Definition labelled (idx cols : list label) (df : DataFrame float) : Prop :=
  index df = idx /\ col_names df = cols.

Definition result_labelled (idx cols : list label) (r : safe_result) : Prop :=
  match r with
  | Single d => labelled idx cols d
  | Both e d => labelled idx cols e /\ labelled idx cols d
  | NoResult => True
  end.

(** The fields of a history record that [SAFE_batch] takes from its
    arguments. *)
Definition records_call (shuffle_by agg_mode : string) (nr_threshold : float)
  (n_iter : nat) (p : safe_params) : Prop :=
  pr_shuffle_by p = shuffle_by /\ pr_agg_mode p = agg_mode
  /\ pr_nr_threshold p = nr_threshold /\ pr_n_iter p = n_iter.

(** The record written last holds the scores returned last. *)
Definition records_result (_mode : string) (r : safe_result) (p : safe_params)
  : Prop :=
  match r with
  | Single d => pr_data p = d /\ pr_mode p = _mode
  | Both _ d => pr_data p = d /\ pr_mode p = "decline"%string
  | NoResult => False
  end.

(** The records [SAFE_batch] hands to [_add_safe] for the scores [r], in the
    order of the calls (lines 160-170). *)
Definition batch_records (shuffle_by agg_mode : string) (nr_threshold : float)
  (n_iter : nat) (_mode : string) (r : safe_result) : list safe_params :=
  let params := mkParams shuffle_by agg_mode nr_threshold n_iter in
  if String.eqb _mode "both" then
    match r with
    | Both e d => [params e "enrich"%string; params d "decline"%string]
    | _ => []
    end
  else
    match r with
    | Single d => [params d _mode]
    | _ => []
    end.

(** The score matrix as [get_SAFE_summary] works on it, features x nodes
    (lines 239-240). *)
Definition oriented_scores (metadata safe_scores : DataFrame float)
  : DataFrame float :=
  if negb (Nat.eqb (fst (shape safe_scores)) (snd (shape metadata)))
  then transpose safe_scores else safe_scores.

(** The keys of a column of the summary. *)
Definition keys {V} (col : list (label * V)) : list label := map fst col.

(** Scores of two features over the four nodes. *)
Definition ex_wide_scores : DataFrame float :=
  mkDF ex_nodes [(LInt 0, [Fin 1; Fin 1; Fin 1; Fin 1]);
                 (LInt 1, [Fin 1; Fin 1; Fin 1; Fin 1])].

(** The score matrix as [get_significant_nodes] works on it, nodes x features
    (lines 190-192). *)
Definition node_scores (u : Utils) (g : Graph) (safe_scores : DataFrame float)
  : DataFrame float :=
  if negb (Nat.eqb (fst (shape (unify_data u safe_scores))) (length (nodes g)))
  then transpose (unify_data u safe_scores) else unify_data u safe_scores.

(** [feature_names] of [get_SAFE_summary] (line 244). *)
Definition feature_names (metadata safe_scores : DataFrame float) : list label :=
  index (oriented_scores metadata safe_scores).

(* ================================================================== *)
(** * [tmap/api/SAFE_analysis.py]

    The script reads metadata files, runs [SAFE_batch] and [get_SAFE_summary]
    and writes the results.  Reading and writing files are left to
    [tmap.api.general] and pandas, which are not among the source files:
    [data_parser] and [pd.concat] are parameters of the model. *)

Record Api : Type := mkApi {
  data_parser : string -> string -> result (DataFrame float);   (* path, ft *)
  pd_concat : list (DataFrame float) -> result (DataFrame float)   (* axis=1 *)
}.

(** [d[k] = v] on a dict, which keeps its keys in the order of insertion. *)
Fixpoint dict_set {V} (k : string) (v : V) (d : list (string * V))
  : list (string * V) :=
  match d with
  | [] => [(k, v)]
  | (k', v') :: d' =>
      if String.eqb k k' then (k, v) :: d' else (k', v') :: dict_set k v d'
  end.

(** [{path: df.columns for path, df in zip(paths, datas)}] *)
Definition cols_dict_of (paths : list string) (datas : list (DataFrame float))
  : list (string * list label) :=
  fold_left (fun acc pd => dict_set (fst pd) (col_names (snd pd)) acc)
            (combine paths datas) [].

(** Nothing ([None]) is returned, after a message, when the files do not all
    have the same number of rows. *)
Definition preprocess_metadata (api : Api) (paths : list string)
  (filetype : string)
  : result (option (DataFrame float * list (string * list label))) :=
  datas <?- mapR (fun path => data_parser api path filetype) paths ;;
  if negb (Nat.eqb (length (nodup Nat.eq_dec (map (fun d => fst (shape d)) datas)))
                   1)
  then Ok None
  else
    let cols_dict := cols_dict_of paths datas in
    data <?- pd_concat api datas ;;
    Ok (Some (data, cols_dict)).

(** The tables have one and the same number of rows. *)
Definition same_rows (datas : list (DataFrame float)) : Prop :=
  datas <> []
  /\ exists n, Forall (fun d => fst (shape d) = n) datas.

(** ** Calls with keyword arguments

    [generate_SAFE_score] calls [SAFE_batch] and [get_SAFE_summary] with
    keyword arguments.  Python binds the arguments of a call to the
    parameters of the function before it runs the function: the positional
    arguments go to the parameters in their order, a keyword argument goes to
    the parameter of its name, or into [**kwargs] when there is no such
    parameter and the function has one; a parameter bound twice, a keyword
    that fits nowhere, too many positional arguments and a parameter without
    a default left unbound are each a TypeError. *)

(** The values [generate_SAFE_score] passes. *)
Inductive value : Type :=
| VGraph (g : Graph)
| VFrame (d : DataFrame float)
| VInt (n : nat)
| VFloat (x : float)
| VStr (s : string).

(** The parameters of a function without and with a default, in their order,
    and whether it ends in [**kwargs]. *)
Record signature : Type := mkSig {
  sig_required : list string;
  sig_defaulted : list string;
  sig_var_keyword : bool
}.

Definition sig_params (sg : signature) : list string :=
  sig_required sg ++ sig_defaulted sg.

Definition mem (x : string) (l : list string) : bool := existsb (String.eqb x) l.

Definition bound (x : string) (env : list (string * value)) : bool :=
  mem x (map fst env).

Fixpoint assign_positional (params : list string) (args : list value)
  : result (list (string * value)) :=
  match args, params with
  | [], _ => Ok []
  | _ :: _, [] => Raise TypeError
  | a :: args', p :: params' =>
      env <?- assign_positional params' args' ;; Ok ((p, a) :: env)
  end.

Fixpoint assign_keywords (sg : signature) (env : list (string * value))
  (keywords : list (string * value)) : result (list (string * value)) :=
  match keywords with
  | [] => Ok env
  | (k, v) :: rest =>
      if mem k (sig_params sg) then
        if bound k env then Raise TypeError
        else assign_keywords sg (env ++ [(k, v)]) rest
      else if sig_var_keyword sg then assign_keywords sg env rest
      else Raise TypeError
  end.

(** The parameters bound by the arguments of a call; the parameters left out
    take their defaults. *)
Definition bind_arguments (sg : signature) (args : list value)
  (keywords : list (string * value)) : result (list (string * value)) :=
  env <?- assign_positional (sig_params sg) args ;;
  env <?- assign_keywords sg env keywords ;;
  if forallb (fun p => bound p env) (sig_required sg) then Ok env
  else Raise TypeError.

Fixpoint get (x : string) (env : list (string * value)) : option value :=
  match env with
  | [] => None
  | (k, v) :: env' => if String.eqb x k then Some v else get x env'
  end.

Definition get_or (x : string) (default : value) (env : list (string * value))
  : value :=
  match get x env with
  | Some v => v
  | None => default
  end.

(** Line 118: [def SAFE_batch(graph, metadata, n_iter=1000, nr_threshold=0.5,
    neighborhoods=None, shuffle_by="node", _mode='enrich', agg_mode='sum',
    verbose=1, **kwargs)]. *)
Definition SAFE_batch_signature : signature :=
  mkSig ["graph"; "metadata"]%string
        ["n_iter"; "nr_threshold"; "neighborhoods"; "shuffle_by"; "_mode";
         "agg_mode"; "verbose"]%string
        true.

(** A call of [SAFE_batch] with the values of the model; no call modelled
    here passes [neighborhoods]. *)
Definition call_SAFE_batch (u : Utils) (args : list value)
  (keywords : list (string * value)) : M safe_result :=
  env <- lift (bind_arguments SAFE_batch_signature args keywords) ;;
  match get "graph" env, get "metadata" env,
        get_or "n_iter" (VInt 1000) env,
        get_or "nr_threshold" (VFloat (Fin (1 / 2))) env,
        get_or "shuffle_by" (VStr "node") env,
        get_or "_mode" (VStr "enrich") env,
        get_or "agg_mode" (VStr "sum") env with
  | Some (VGraph g), Some (VFrame metadata), VInt n_iter, VFloat nr_threshold,
    VStr shuffle_by, VStr _mode, VStr agg_mode =>
      SAFE_batch u g metadata n_iter nr_threshold None shuffle_by _mode agg_mode
  | _, _, _, _, _, _, _ => raise TypeError
  end.

(** [generate_SAFE_score] (lines 19-45).  Each branch starts with the call
    [SAFE_batch(graph, meta_data=metadata, n_iter=n_iter,
    nr_threshold=nr_threshold, _cal_type=_cal_type, _mode=_mode,
    verbose=verbose)]; the statements that follow the call in the two
    branches are the parameters [rest_both] and [rest_single]. *)
Definition generate_SAFE_score {R} (rest_both rest_single : safe_result -> M R)
  (u : Utils) (graph : Graph) (metadata : DataFrame float) (n_iter : nat)
  (nr_threshold : float) (_mode _cal_type : string) (verbose : nat) : M R :=
  let keywords :=
    [("meta_data", VFrame metadata); ("n_iter", VInt n_iter);
     ("nr_threshold", VFloat nr_threshold); ("_cal_type", VStr _cal_type);
     ("_mode", VStr _mode); ("verbose", VInt verbose)]%string in
  if String.eqb _mode "both" then
    scores <- call_SAFE_batch u [VGraph graph] keywords ;;
    rest_both scores
  else
    scores <- call_SAFE_batch u [VGraph graph] keywords ;;
    rest_single scores.

(** Line 228: [def get_SAFE_summary(graph, metadata, safe_scores, n_iter=None,
    p_value=0.01, nr_threshold=0.5, _output_details=False)]. *)
Definition get_SAFE_summary_signature : signature :=
  mkSig ["graph"; "metadata"; "safe_scores"]%string
        ["n_iter"; "p_value"; "nr_threshold"; "_output_details"]%string
        false.

(** The call of lines 28-31 and 39-40, for the scores [safe_scores]:
    [get_SAFE_summary(graph=graph, meta_data=metadata, safe_scores=...,
    n_iter_value=n_iter, p_value=pval)]. *)
Definition summary_call (u : Utils) (graph : Graph)
  (metadata safe_scores : DataFrame float) (n_iter : nat) (pval : float)
  : M summary_result :=
  env <- lift (bind_arguments get_SAFE_summary_signature []
                 [("graph", VGraph graph); ("meta_data", VFrame metadata);
                  ("safe_scores", VFrame safe_scores);
                  ("n_iter_value", VInt n_iter); ("p_value", VFloat pval)]%string) ;;
  match get "graph" env, get "metadata" env, get "safe_scores" env,
        get "n_iter" env, get_or "p_value" (VFloat (Fin (1 / 100))) env with
  | Some (VGraph g), Some (VFrame md), Some (VFrame sc), None, VFloat p =>
      get_SAFE_summary u g md sc None p (Fin (1 / 2)) false
  | Some (VGraph g), Some (VFrame md), Some (VFrame sc), Some (VInt n), VFloat p =>
      get_SAFE_summary u g md sc (Some n) p (Fin (1 / 2)) false
  | _, _, _, _, _ => raise TypeError
  end.

(** Two files, of four and of three rows. *)
Definition ex_api : Api :=
  mkApi (fun path _ =>
           if String.eqb path "a.csv" then Ok ex_metadata
           else if String.eqb path "b.csv" then Ok ex2_metadata
           else Raise ValueError)
        (fun datas => match datas with
                      | [] => Raise ValueError
                      | d :: _ => Ok (mkDF (index d) (flat_map (@columns float) datas))
                      end).

(** A call of [transform_sn]. *)
Definition is_transform (e : event) : Prop :=
  match e with
  | EvTransformSN _ => True
  | _ => False
  end.

(** What [_SAFE] may call once it has its neighborhoods: the aggregation, and
    the sample-to-node transform when it shuffles by sample. *)
Definition trial_call (shuffle_by : string) (e : event) : Prop :=
  is_score e \/ (String.eqb shuffle_by "sample" = true /\ is_transform e).

(* ================================================================== *)
(** * Facts about comparisons and arithmetic *)

Lemma Rleb_true (a b : R) : Rleb a b = true <-> (a <= b)%R.
Proof.
  unfold Rleb. destruct (Rle_dec a b); split; intros; auto; discriminate || contradiction.
Qed.

Lemma Rleb_false (a b : R) : Rleb a b = false <-> (b < a)%R.
Proof.
  unfold Rleb. destruct (Rle_dec a b); split; intros; auto; try discriminate; lra.
Qed.

Lemma Rltb_true (a b : R) : Rltb a b = true <-> (a < b)%R.
Proof.
  unfold Rltb. destruct (Rlt_dec a b); split; intros; auto; discriminate || contradiction.
Qed.

Lemma Rltb_false (a b : R) : Rltb a b = false <-> (b <= a)%R.
Proof.
  unfold Rltb. destruct (Rlt_dec a b); split; intros; auto; try discriminate; lra.
Qed.

Lemma Reqb_true (a b : R) : Reqb a b = true <-> a = b.
Proof.
  unfold Reqb. destruct (Req_dec_T a b); split; intros; auto; discriminate || contradiction.
Qed.

Lemma Reqb_false (a b : R) : Reqb a b = false <-> a <> b.
Proof.
  unfold Reqb. destruct (Req_dec_T a b); split; intros; auto; try discriminate; contradiction.
Qed.

Lemma Reqb_refl (a : R) : Reqb a a = true.
Proof. apply Reqb_true; reflexivity. Qed.

(** Decides the comparisons of real constants that appear in a goal. *)
Ltac rcompare :=
  repeat match goal with
    | |- context [Rleb ?a ?b] =>
        first [ replace (Rleb a b) with true by (symmetry; apply Rleb_true; lra)
              | replace (Rleb a b) with false by (symmetry; apply Rleb_false; lra) ]
    | |- context [Rltb ?a ?b] =>
        first [ replace (Rltb a b) with true by (symmetry; apply Rltb_true; lra)
              | replace (Rltb a b) with false by (symmetry; apply Rltb_false; lra) ]
    | |- context [Reqb ?a ?b] =>
        first [ replace (Reqb a b) with true by (symmetry; apply Reqb_true; lra)
              | replace (Reqb a b) with false by (symmetry; apply Reqb_false; lra) ]
    end.

Lemma fdiv_fin (a b : R) : b <> 0%R -> fdiv (Fin a) (Fin b) = Fin (a / b).
Proof.
  intros Hb. unfold fdiv. apply Reqb_false in Hb. rewrite Hb. reflexivity.
Qed.

Lemma fgeb_fin (a b : R) : fgeb (Fin a) (Fin b) = Rleb b a.
Proof. reflexivity. Qed.

Lemma fmin_fin (a b : R) : fmin (Fin a) (Fin b) = Fin a \/ fmin (Fin a) (Fin b) = Fin b.
Proof.
  unfold fmin, fleb. destruct (Rleb a b); auto.
Qed.

Lemma INR_succ_pos (n : nat) : (0 < INR n + 1)%R.
Proof. pose proof (pos_INR n). lra. Qed.

Lemma spec_min_p_pos (n : nat) : (0 < spec_min_p n)%R.
Proof.
  unfold spec_min_p. apply Rdiv_lt_0_compat; [lra | apply INR_succ_pos].
Qed.

Lemma div_le_bound (a b c : R) : (0 < b)%R -> (a <= c * b)%R -> (a / b <= c)%R.
Proof.
  intros Hb H. apply Rmult_le_reg_r with b; [assumption |].
  unfold Rdiv. rewrite Rmult_assoc, Rinv_l by lra. lra.
Qed.

Lemma div_lt_bound (a b c : R) : (0 < b)%R -> (a < c * b)%R -> (a / b < c)%R.
Proof.
  intros Hb H. apply Rmult_lt_reg_r with b; [assumption |].
  unfold Rdiv. rewrite Rmult_assoc, Rinv_l by lra. lra.
Qed.

Lemma div_ge_bound (a b c : R) : (0 < b)%R -> (c * b <= a)%R -> (c <= a / b)%R.
Proof.
  intros Hb H. apply Rmult_le_reg_r with b; [assumption |].
  unfold Rdiv. rewrite Rmult_assoc, Rinv_l by lra. lra.
Qed.

Lemma spec_min_p_le_1 (n : nat) : (spec_min_p n <= 1)%R.
Proof.
  unfold spec_min_p. pose proof (pos_INR n).
  apply div_le_bound; lra.
Qed.

Lemma spec_min_p_lt_1 (n : nat) : (1 <= n)%nat -> (spec_min_p n < 1)%R.
Proof.
  intros Hn. unfold spec_min_p. apply le_INR in Hn. simpl in Hn.
  apply div_lt_bound; lra.
Qed.

Lemma min_p_value_spec (n : nat) : min_p_value n = Fin (spec_min_p n).
Proof. reflexivity. Qed.

Lemma filter_length_bound {A} (f : A -> bool) (l : list A) :
  (length (filter f l) <= length l)%nat.
Proof.
  induction l as [| x l IH]; simpl; [lia |].
  destruct (f x); simpl; lia.
Qed.


(* ================================================================== *)
(** * The Benjamini-Hochberg correction keeps p-values in range *)

Section Sorting.
Context {A : Type} (leb : A -> A -> bool).

Lemma insert_by_perm (x : A) (l : list A) :
  Permutation (insert_by leb x l) (x :: l).
Proof.
  induction l as [| y l IH]; simpl.
  - apply Permutation_refl.
  - destruct (leb x y).
    + apply Permutation_refl.
    + apply perm_trans with (y :: x :: l).
      * apply perm_skip, IH.
      * apply perm_swap.
Qed.

Lemma isort_by_perm (l : list A) : Permutation (isort_by leb l) l.
Proof.
  induction l as [| x l IH]; simpl.
  - apply perm_nil.
  - apply perm_trans with (x :: isort_by leb l).
    + apply insert_by_perm.
    + apply perm_skip, IH.
Qed.

End Sorting.

Lemma map_fst_combine {A B} (l1 : list A) (l2 : list B) :
  length l1 = length l2 -> map fst (combine l1 l2) = l1.
Proof.
  revert l2. induction l1 as [| a l1 IH]; intros [| b l2] H; simpl in *;
    try discriminate; auto.
  f_equal. apply IH. lia.
Qed.

Lemma map_snd_combine {A B} (l1 : list A) (l2 : list B) :
  length l1 = length l2 -> map snd (combine l1 l2) = l2.
Proof.
  revert l2. induction l1 as [| a l1 IH]; intros [| b l2] H; simpl in *;
    try discriminate; auto.
  f_equal. apply IH. lia.
Qed.

Lemma argsort_perm (l : list float) :
  Permutation (argsort l) (seq 0 (length l)).
Proof.
  unfold argsort.
  apply perm_trans with (map fst (combine (seq 0 (length l)) l)).
  - apply Permutation_map, isort_by_perm.
  - rewrite map_fst_combine; [apply Permutation_refl | apply length_seq].
Qed.

Lemma argsort_length (l : list float) : length (argsort l) = length l.
Proof.
  rewrite (Permutation_length (argsort_perm l)). apply length_seq.
Qed.

Lemma argsort_in_bounds (l : list float) :
  Forall (fun i => (i < length l)%nat) (argsort l).
Proof.
  apply Forall_forall. intros i Hi.
  apply (Permutation_in _ (argsort_perm l)) in Hi.
  apply in_seq in Hi. lia.
Qed.

Lemma np_take_Forall (P : float -> Prop) (l : list float) (idx : list nat) :
  Forall P l -> Forall (fun i => (i < length l)%nat) idx ->
  Forall P (np_take l idx).
Proof.
  intros Hl Hidx. unfold np_take. apply Forall_map.
  apply Forall_forall. intros i Hi.
  rewrite Forall_forall in Hidx, Hl.
  apply Hl, nth_In, Hidx, Hi.
Qed.

Lemma np_take_length (l : list float) (idx : list nat) :
  length (np_take l idx) = length idx.
Proof. apply length_map. Qed.

Lemma ecdf_range (n : nat) :
  Forall (fun e => exists r, e = Fin r /\ (0 < r <= 1)%R) (_ecdf n).
Proof.
  unfold _ecdf. apply Forall_map, Forall_forall. intros k Hk.
  apply in_seq in Hk.
  assert (Hn : (0 < INR n)%R) by (apply lt_0_INR; lia).
  assert (Hk1 : (0 < INR k)%R) by (apply lt_0_INR; lia).
  assert (Hkn : (INR k <= INR n)%R) by (apply le_INR; lia).
  exists (INR k / INR n)%R. split.
  - unfold of_nat. apply fdiv_fin. lra.
  - split.
    + apply Rdiv_lt_0_compat; assumption.
    + apply div_le_bound; lra.
Qed.

Lemma ecdf_length (n : nat) : length (_ecdf n) = n.
Proof. unfold _ecdf. rewrite length_map. apply length_seq. Qed.

Lemma corrected_raw_ge (lo : R) (ps : list float) (n : nat) :
  (0 < lo)%R -> Forall (fin_ge lo) ps ->
  Forall (fin_ge lo)
    (map (fun pe => fdiv (fst pe) (snd pe)) (combine ps (_ecdf n))).
Proof.
  intros Hlo Hps. apply Forall_map, Forall_forall. intros [p e] Hin.
  pose proof (in_combine_l _ _ _ _ Hin) as Hp.
  pose proof (in_combine_r _ _ _ _ Hin) as He.
  rewrite Forall_forall in Hps. destruct (Hps p Hp) as [r [-> Hr]].
  pose proof (ecdf_range n) as Hec. rewrite Forall_forall in Hec.
  destruct (Hec e He) as [q [-> Hq]]. simpl.
  exists (r / q)%R. split.
  - apply fdiv_fin. lra.
  - apply div_ge_bound; [lra |]. nra.
Qed.

Lemma fmin_fin_ge (lo : R) (x y : float) :
  fin_ge lo x -> fin_ge lo y -> fin_ge lo (fmin x y).
Proof.
  intros [a [-> Ha]] [b [-> Hb]].
  destruct (fmin_fin a b) as [-> | ->]; [exists a | exists b]; auto.
Qed.

Lemma accumulate_from_Forall (lo : R) (l : list float) :
  forall m, fin_ge lo m -> Forall (fin_ge lo) l ->
            Forall (fin_ge lo) (accumulate_from m l).
Proof.
  induction l as [| x l IH]; intros m Hm Hl; simpl.
  - constructor.
  - inversion Hl; subst. constructor.
    + apply fmin_fin_ge; assumption.
    + apply IH; [apply fmin_fin_ge |]; assumption.
Qed.

Lemma minimum_accumulate_Forall (lo : R) (l : list float) :
  Forall (fin_ge lo) l -> Forall (fin_ge lo) (minimum_accumulate l).
Proof.
  destruct l as [| x l]; simpl; intros H; [constructor |].
  inversion H; subst. constructor; [assumption |].
  apply accumulate_from_Forall; assumption.
Qed.

Lemma accumulate_from_length (l : list float) :
  forall m, length (accumulate_from m l) = length l.
Proof.
  induction l as [| x l IH]; intros m; simpl; [reflexivity | now rewrite IH].
Qed.

Lemma minimum_accumulate_length (l : list float) :
  length (minimum_accumulate l) = length l.
Proof.
  destruct l; simpl; [reflexivity | now rewrite accumulate_from_length].
Qed.

Lemma cap_at_one_range (lo : R) (l : list float) :
  (lo <= 1)%R -> Forall (fin_ge lo) l -> Forall (in_range lo 1) (cap_at_one l).
Proof.
  intros Hlo Hl. unfold cap_at_one. apply Forall_map.
  eapply Forall_impl; [| exact Hl].
  intros x [r [-> Hr]]. unfold fgtb, fltb.
  destruct (Rltb 1 r) eqn:E.
  - exists 1%R. split; [reflexivity | lra].
  - apply Rltb_false in E. exists r. split; [reflexivity | lra].
Qed.

Lemma in_range_fin_ge (lo hi : R) (x : float) : in_range lo hi x -> fin_ge lo x.
Proof. intros [r [-> Hr]]. exists r. split; [reflexivity | lra]. Qed.

Lemma cap_at_one_length (l : list float) : length (cap_at_one l) = length l.
Proof. apply length_map. Qed.

Lemma fdrcorrection_sorted_range (lo : R) (ps : list float) :
  (0 < lo <= 1)%R -> Forall (fin_ge lo) ps ->
  Forall (in_range lo 1) (fdrcorrection_sorted ps).
Proof.
  intros Hlo Hps. unfold fdrcorrection_sorted.
  apply cap_at_one_range; [lra |].
  apply Forall_rev, minimum_accumulate_Forall, Forall_rev.
  apply corrected_raw_ge; [lra | assumption].
Qed.

Lemma fdrcorrection_sorted_length (ps : list float) :
  length (fdrcorrection_sorted ps) = length ps.
Proof.
  unfold fdrcorrection_sorted.
  rewrite cap_at_one_length, length_rev, minimum_accumulate_length, length_rev,
    length_map, length_combine, ecdf_length.
  apply Nat.min_id.
Qed.

(** ** Putting the corrected values back in the input order *)

Lemma set_nth_length {A} (i : nat) (v : A) (l : list A) :
  length (set_nth i v l) = length l.
Proof.
  revert i. induction l as [| x l IH]; intros [| i]; simpl; auto.
Qed.

Lemma nth_set_nth_same {A} (i : nat) (v d : A) (l : list A) :
  (i < length l)%nat -> nth i (set_nth i v l) d = v.
Proof.
  revert i. induction l as [| x l IH]; intros [| i] H; simpl in *; try lia; auto.
  apply IH. lia.
Qed.

Lemma nth_set_nth_other {A} (i j : nat) (v d : A) (l : list A) :
  i <> j -> nth i (set_nth j v l) d = nth i l d.
Proof.
  revert i j. induction l as [| x l IH]; intros [| i] [| j] H; simpl; auto;
    try congruence.
Qed.

Lemma scatter_length (idx : list nat) (vals out : list float) :
  length (scatter idx vals out) = length out.
Proof.
  unfold scatter. revert vals out.
  induction idx as [| a idx IH]; intros [| v vals] out; simpl; auto.
  rewrite IH. apply set_nth_length.
Qed.

Lemma scatter_untouched (idx : list nat) (i : nat) (d : float) :
  forall vals out, ~ In i idx ->
                   nth i (scatter idx vals out) d = nth i out d.
Proof.
  unfold scatter.
  induction idx as [| a idx IH]; intros [| v vals] out Hni; simpl; auto.
  rewrite IH by (intros H; apply Hni; right; exact H).
  apply nth_set_nth_other. intros ->. apply Hni. left. reflexivity.
Qed.

Lemma scatter_written (P : float -> Prop) (idx : list nat) (i : nat) (d : float) :
  forall vals out,
    length idx = length vals -> In i idx -> (i < length out)%nat ->
    Forall P vals -> P (nth i (scatter idx vals out) d).
Proof.
  induction idx as [| a idx IH]; intros [| v vals] out Hlen Hin Hi HP;
    simpl in *; try discriminate; try contradiction.
  inversion HP; subst.
  destruct (in_dec Nat.eq_dec i idx) as [Hin' | Hnin].
  - change (P (nth i (scatter idx vals (set_nth a v out)) d)).
    apply IH; auto. now rewrite set_nth_length.
  - destruct Hin as [-> | Hin]; [| contradiction].
    change (P (nth i (scatter idx vals (set_nth i v out)) d)).
    rewrite scatter_untouched by assumption.
    rewrite nth_set_nth_same; assumption.
Qed.

Lemma scatter_Forall (P : float -> Prop) (idx : list nat) (vals out : list float) :
  Permutation idx (seq 0 (length out)) -> length idx = length vals ->
  Forall P vals -> Forall P (scatter idx vals out).
Proof.
  intros Hperm Hlen HP.
  apply Forall_nth. intros i d Hi.
  rewrite scatter_length in Hi.
  apply scatter_written; auto.
  apply (Permutation_in _ (Permutation_sym Hperm)), in_seq. lia.
Qed.

Lemma multipletests_length (pvals : list float) :
  length (multipletests_fdr_bh pvals) = length pvals.
Proof.
  unfold multipletests_fdr_bh.
  rewrite scatter_length, repeat_length, cap_at_one_length,
    fdrcorrection_sorted_length, np_take_length.
  apply argsort_length.
Qed.

(** P-values between a positive bound and one stay there. *)
Lemma multipletests_range (lo : R) (pvals : list float) :
  (0 < lo <= 1)%R -> Forall (in_range lo 1) pvals ->
  Forall (in_range lo 1) (multipletests_fdr_bh pvals).
Proof.
  intros Hlo Hp. unfold multipletests_fdr_bh.
  assert (Hlen : length (cap_at_one (fdrcorrection_sorted (np_take pvals (argsort pvals))))
                 = length pvals).
  { rewrite cap_at_one_length, fdrcorrection_sorted_length, np_take_length.
    apply argsort_length. }
  apply scatter_Forall.
  - rewrite repeat_length, Hlen. apply argsort_perm.
  - rewrite Hlen. apply argsort_length.
  - apply cap_at_one_range; [lra |].
    eapply Forall_impl; [intros x Hx; eapply in_range_fin_ge; exact Hx |].
    apply fdrcorrection_sorted_range; [assumption |].
    apply np_take_Forall; [| apply argsort_in_bounds].
    eapply Forall_impl; [intros x Hx; eapply in_range_fin_ge; exact Hx | exact Hp].
Qed.

(* ================================================================== *)
(** * The library's correction is the Benjamini-Hochberg correction *)

(** ** From floats to real numbers *)

Lemma fmin_Fin (a b : R) : fmin (Fin a) (Fin b) = Fin (Rmin a b).
Proof.
  unfold fmin, fleb, Rleb, Rmin. destruct (Rle_dec a b); reflexivity.
Qed.

Lemma combine_map_both {A B C D} (f : A -> C) (g : B -> D) (l1 : list A)
  (l2 : list B) :
  combine (map f l1) (map g l2)
  = map (fun ab => (f (fst ab), g (snd ab))) (combine l1 l2).
Proof.
  revert l2. induction l1 as [| a l1 IH]; intros [| b l2]; simpl; auto.
  now rewrite IH.
Qed.

Lemma ecdf_reals (n : nat) :
  _ecdf n = map (fun k => Fin (INR k / INR n)) (seq 1 n).
Proof.
  unfold _ecdf. apply map_ext_in. intros k Hk. apply in_seq in Hk.
  unfold of_nat. apply fdiv_fin.
  assert (0 < INR n)%R by (apply lt_0_INR; lia). lra.
Qed.

Lemma raw_corrected_reals (ss : list R) :
  map (fun pe => fdiv (fst pe) (snd pe))
      (combine (map Fin ss) (_ecdf (length (map Fin ss))))
  = map Fin (raw_corrected ss).
Proof.
  rewrite length_map, ecdf_reals, combine_map_both. unfold raw_corrected.
  rewrite !map_map. apply map_ext_in. intros [s k] Hin. cbn [fst snd].
  apply in_combine_r in Hin. apply in_seq in Hin.
  apply fdiv_fin.
  assert (0 < INR (length ss))%R by (apply lt_0_INR; lia).
  assert (0 < INR k)%R by (apply lt_0_INR; lia).
  assert (0 < INR k / INR (length ss))%R by (apply Rdiv_lt_0_compat; assumption).
  lra.
Qed.

Lemma accumulate_from_reals (l : list R) :
  forall m, accumulate_from (Fin m) (map Fin l) = map Fin (running_min m l).
Proof.
  induction l as [| x l IH]; intros m; cbn [accumulate_from running_min map];
    [reflexivity |].
  rewrite fmin_Fin, IH. reflexivity.
Qed.

Lemma minimum_accumulate_reals (l : list R) :
  minimum_accumulate (map Fin l) = map Fin (running_mins l).
Proof.
  destruct l as [| x l]; cbn [minimum_accumulate running_mins map]; [reflexivity |].
  now rewrite accumulate_from_reals.
Qed.

Lemma cap_at_one_reals (l : list R) :
  cap_at_one (map Fin l) = map Fin (map (fun r => Rmin r 1) l).
Proof.
  unfold cap_at_one. rewrite !map_map. apply map_ext. intros r.
  unfold fgtb, fltb, Rltb, Rmin.
  destruct (Rlt_dec 1 r), (Rle_dec r 1); try reflexivity; lra.
Qed.

(** ** The running minimum from the right *)

Lemma list_min_perm (d : R) (l l' : list R) :
  Permutation l l' -> list_min d l = list_min d l'.
Proof.
  unfold list_min. induction 1; simpl.
  - reflexivity.
  - now rewrite IHPermutation.
  - rewrite !Rmin_assoc. f_equal. apply Rmin_comm.
  - congruence.
Qed.

Lemma fold_left_Rmin (l : list R) :
  forall m x, Rmin (fold_left Rmin l m) x = Rmin m (list_min x l).
Proof.
  unfold list_min. induction l as [| z l IH]; intros m x; simpl; [reflexivity |].
  rewrite IH. symmetry. apply Rmin_assoc.
Qed.

Lemma running_min_last (l : list R) :
  forall m x,
    running_min m (l ++ [x]) = running_min m l ++ [Rmin (fold_left Rmin l m) x].
Proof.
  induction l as [| z l IH]; intros m x; simpl; [reflexivity |].
  now rewrite IH.
Qed.

Lemma running_mins_last (l : list R) (x : R) :
  running_mins (l ++ [x]) = running_mins l ++ [list_min x l].
Proof.
  destruct l as [| y l]; simpl; [reflexivity |].
  rewrite running_min_last, fold_left_Rmin. reflexivity.
Qed.

Lemma rev_running_mins (l : list R) :
  rev (running_mins (rev l)) = suffix_mins l.
Proof.
  induction l as [| x l IH]; [reflexivity |].
  cbn [rev suffix_mins]. rewrite running_mins_last, rev_app_distr. simpl.
  rewrite IH. f_equal. apply list_min_perm. apply Permutation_sym, Permutation_rev.
Qed.

(** The correction of the sorted p-values, on real numbers. *)
Lemma fdrcorrection_sorted_reals (ss : list R) :
  fdrcorrection_sorted (map Fin ss) = map Fin (corrected_sorted ss).
Proof.
  unfold fdrcorrection_sorted, corrected_sorted.
  rewrite raw_corrected_reals, <- map_rev, minimum_accumulate_reals, <- map_rev,
    rev_running_mins, cap_at_one_reals.
  reflexivity.
Qed.

Lemma corrected_sorted_capped (ss : list R) :
  cap_at_one (map Fin (corrected_sorted ss)) = map Fin (corrected_sorted ss).
Proof.
  rewrite cap_at_one_reals. f_equal. unfold corrected_sorted.
  rewrite map_map. apply map_ext. intros r.
  unfold Rmin. destruct (Rle_dec r 1); destruct (Rle_dec _ 1); lra.
Qed.

(** ** Minima of lists *)

Lemma list_min_le_default (d : R) (l : list R) : (list_min d l <= d)%R.
Proof.
  unfold list_min. induction l as [| x l IH]; simpl; [lra |].
  eapply Rle_trans; [apply Rmin_r | exact IH].
Qed.

Lemma list_min_le_in (d : R) (l : list R) (a : R) :
  In a l -> (list_min d l <= a)%R.
Proof.
  unfold list_min. induction l as [| x l IH]; simpl; intros H; [contradiction |].
  destruct H as [-> | H].
  - apply Rmin_l.
  - eapply Rle_trans; [apply Rmin_r | apply IH, H].
Qed.

Lemma list_min_glb (d : R) (l : list R) (m : R) :
  (m <= d)%R -> (forall a, In a l -> (m <= a)%R) -> (m <= list_min d l)%R.
Proof.
  unfold list_min. induction l as [| x l IH]; simpl; intros Hd Hl; [exact Hd |].
  apply Rmin_glb; [apply Hl; left; reflexivity |].
  apply IH; [exact Hd |]. intros a Ha. apply Hl. right. exact Ha.
Qed.

(** Two lists that dominate each other have the same minimum. *)
Lemma list_min_dominated (d : R) (A B : list R) :
  (forall a, In a A -> exists b, In b B /\ (b <= a)%R) ->
  (list_min d B <= list_min d A)%R.
Proof.
  intros H. apply list_min_glb; [apply list_min_le_default |].
  intros a Ha. destruct (H a Ha) as [b [Hb Hba]].
  eapply Rle_trans; [apply list_min_le_in; exact Hb | exact Hba].
Qed.

Lemma list_min_swap (x d : R) (l : list R) :
  Rmin (list_min x l) d = list_min d (x :: l).
Proof.
  unfold list_min. revert x. induction l as [| y l IH]; intros x; simpl.
  - reflexivity.
  - rewrite <- Rmin_assoc, IH. simpl.
    rewrite !Rmin_assoc. f_equal. apply Rmin_comm.
Qed.

Lemma nth_capped_suffix_mins (l : list R) (d : R) :
  forall k, (k < length l)%nat ->
            nth k (map (fun r => Rmin r 1) (suffix_mins l)) d
            = list_min 1 (skipn k l).
Proof.
  induction l as [| x l IH]; intros k Hk; simpl in Hk; [lia |].
  destruct k as [| k].
  - cbn [suffix_mins map nth skipn]. apply list_min_swap.
  - cbn [suffix_mins map nth skipn]. apply IH. lia.
Qed.

(** ** Ranks in a sorted list *)

Lemma rank_above (l : list R) (x y : R) :
  Forall (Rle x) l -> (y < x)%R -> bh_rank l y = O.
Proof.
  unfold bh_rank. induction 1 as [| z l Hz _ IH]; intros Hy; simpl; [reflexivity |].
  replace (Rleb z y) with false by (symmetry; apply Rleb_false; lra).
  apply IH, Hy.
Qed.

Lemma sorted_rank_nth (l : list R) (y d : R) :
  StronglySorted Rle l ->
  forall j, (j < length l)%nat ->
            ((nth j l d <= y)%R <-> (j < bh_rank l y)%nat).
Proof.
  induction 1 as [| x l Hs IH Hx]; intros j Hj; simpl in Hj; [lia |].
  unfold bh_rank. cbn [filter].
  destruct (Rleb x y) eqn:E.
  - apply Rleb_true in E. cbn [length].
    destruct j as [| j]; cbn [nth].
    + split; [lia | intros _; exact E].
    + fold (bh_rank l y). rewrite (IH j) by lia. lia.
  - apply Rleb_false in E. fold (bh_rank l y).
    rewrite (rank_above Hx E).
    split; [| lia]. intros Hle. exfalso.
    assert (x <= nth j (x :: l) d)%R.
    { destruct j as [| j]; cbn [nth]; [lra |].
      rewrite Forall_forall in Hx. apply Hx, nth_In. lia. }
    lra.
Qed.

Lemma rank_bound (l : list R) (y : R) : (bh_rank l y <= length l)%nat.
Proof. apply filter_length_bound. Qed.

Lemma sorted_nth_le (l : list R) (d : R) :
  StronglySorted Rle l ->
  forall i j, (i <= j)%nat -> (j < length l)%nat -> (nth i l d <= nth j l d)%R.
Proof.
  induction 1 as [| x l Hs IH Hx]; intros i j Hij Hj; simpl in Hj; [lia |].
  destruct i as [| i], j as [| j]; cbn [nth]; try lia; try lra.
  - rewrite Forall_forall in Hx. apply Hx, nth_In. lia.
  - apply IH; lia.
Qed.

(** The rank of a value of a sorted list is the place of its last
    occurrence. *)
Lemma sorted_nth_rank (l : list R) (y d : R) :
  StronglySorted Rle l -> In y l ->
  (1 <= bh_rank l y)%nat /\ nth (bh_rank l y - 1) l d = y.
Proof.
  intros Hs Hy.
  destruct (In_nth l y d Hy) as [t [Ht Hty]].
  assert (Hrank : (t < bh_rank l y)%nat).
  { apply (proj1 (@sorted_rank_nth l y d Hs t Ht)). rewrite Hty. lra. }
  pose proof (rank_bound l y) as Hb.
  split; [lia |].
  apply Rle_antisym.
  - assert (Hlt : (bh_rank l y - 1 < length l)%nat) by lia.
    apply (proj2 (@sorted_rank_nth l y d Hs (bh_rank l y - 1) Hlt)). lia.
  - apply Rle_trans with (nth t l d); [rewrite Hty; lra |].
    apply sorted_nth_le; [exact Hs | lia | lia].
Qed.

(** ** The corrected value at a place of the sorted list *)

Lemma raw_corrected_length (ss : list R) :
  length (raw_corrected ss) = length ss.
Proof.
  unfold raw_corrected. rewrite length_map, length_combine, length_seq.
  apply Nat.min_id.
Qed.

Lemma nth_map_default {A B} (f : A -> B) (l : list A) (j : nat) (d : B) (d0 : A) :
  (j < length l)%nat -> nth j (map f l) d = f (nth j l d0).
Proof.
  intros Hj. rewrite nth_indep with (d' := f d0) by (now rewrite length_map).
  apply map_nth.
Qed.

Lemma raw_corrected_nth (ss : list R) (j : nat) (d : R) :
  (j < length ss)%nat ->
  nth j (raw_corrected ss) d
  = (nth j ss d / (INR (S j) / INR (length ss)))%R.
Proof.
  intros Hj. unfold raw_corrected.
  rewrite nth_map_default with (d0 := (d, O))
    by (now rewrite length_combine, length_seq, Nat.min_id).
  rewrite combine_nth by (now rewrite length_seq).
  cbn [fst snd]. rewrite seq_nth by exact Hj. reflexivity.
Qed.

Lemma div_antitone (c u v : R) :
  (0 <= c)%R -> (0 < u)%R -> (u <= v)%R -> (c / v <= c / u)%R.
Proof.
  intros Hc Hu Huv. unfold Rdiv. apply Rmult_le_compat_l; [exact Hc |].
  apply Rinv_le_contravar; assumption.
Qed.

Lemma in_skipn_nth (l : list R) (k : nat) (a d : R) :
  In a (skipn k l) ->
  exists j, (k <= j)%nat /\ (j < length l)%nat /\ nth j l d = a.
Proof.
  intros H. destruct (In_nth _ _ d H) as [i [Hi Ha]].
  rewrite length_skipn in Hi. rewrite nth_skipn in Ha.
  exists (k + i)%nat. repeat split; [lia | lia | exact Ha].
Qed.

Lemma nth_in_skipn (l : list R) (k t : nat) (d : R) :
  (k <= t)%nat -> (t < length l)%nat -> In (nth t l d) (skipn k l).
Proof.
  intros Hk Ht. replace t with (k + (t - k))%nat by lia.
  rewrite <- nth_skipn. apply nth_In. rewrite length_skipn. lia.
Qed.

(** On a sorted list of non-negative p-values, the value the library
    computes at place [k] is the adjusted value of the p-value at [k]. *)
Lemma corrected_sorted_is_bh (ss : list R) (d : R) (k : nat) :
  StronglySorted Rle ss -> Forall (Rle 0) ss -> (k < length ss)%nat ->
  nth k (corrected_sorted ss) d = bh_adjusted ss (nth k ss d).
Proof.
  intros Hs Hpos Hk. unfold corrected_sorted.
  rewrite nth_capped_suffix_mins by (now rewrite raw_corrected_length).
  unfold bh_adjusted.
  assert (Hn : (0 < INR (length ss))%R) by (apply lt_0_INR; lia).
  apply Rle_antisym; apply list_min_dominated.
  - (* every term of the definition is a term of the suffix *)
    intros b Hb. apply in_map_iff in Hb. destruct Hb as [y [<- Hy]].
    apply filter_In in Hy. destruct Hy as [Hy Hky]. apply Rleb_true in Hky.
    destruct (@sorted_nth_rank ss y d Hs Hy) as [Hr1 Hry].
    pose proof (rank_bound ss y) as Hrb.
    assert (Hkr : (k < bh_rank ss y)%nat)
      by (apply (proj1 (@sorted_rank_nth ss y d Hs k Hk)); exact Hky).
    exists (nth (bh_rank ss y - 1) (raw_corrected ss) d). split.
    + apply nth_in_skipn; [lia | rewrite raw_corrected_length; lia].
    + rewrite raw_corrected_nth by lia. rewrite Hry.
      replace (S (bh_rank ss y - 1)) with (bh_rank ss y) by lia.
      unfold bh_term.
      assert (0 < INR (bh_rank ss y))%R by (apply lt_0_INR; lia).
      right. field. split; lra.
  - (* every term of the suffix is above a term of the definition *)
    intros a Ha. destruct (@in_skipn_nth _ _ _ d Ha) as [j [Hkj [Hj Haj]]].
    rewrite raw_corrected_length in Hj. rewrite raw_corrected_nth in Haj by exact Hj.
    subst a. exists (bh_term ss (nth j ss d)). split.
    + apply in_map, filter_In. split; [apply nth_In; exact Hj |].
      apply Rleb_true, sorted_nth_le; assumption.
    + unfold bh_term.
      assert (Hjr : (j < bh_rank ss (nth j ss d))%nat)
        by (apply (proj1 (@sorted_rank_nth ss (nth j ss d) d Hs j Hj)); lra).
      assert (Hsj : (0 <= nth j ss d)%R).
      { rewrite Forall_forall in Hpos. apply Hpos, nth_In, Hj. }
      assert (HSj : (0 < INR (S j))%R) by (apply lt_0_INR; lia).
      assert (Hle : (INR (S j) <= INR (bh_rank ss (nth j ss d)))%R)
        by (apply le_INR; lia).
      replace (nth j ss d / (INR (S j) / INR (length ss)))%R
        with (INR (length ss) * nth j ss d / INR (S j))%R by (field; split; lra).
      apply div_antitone; [| exact HSj | exact Hle].
      apply Rmult_le_pos; lra.
Qed.

(** ** Sorting *)

Section InsertionSort.
Context {A : Type} (leb : A -> A -> bool).
Hypothesis leb_total : forall a b, leb a b = false -> leb b a = true.
Hypothesis leb_trans : forall a b c, leb a b = true -> leb b c = true -> leb a c = true.

Lemma insert_by_sorted (x : A) (l : list A) :
  StronglySorted (fun a b => leb a b = true) l ->
  StronglySorted (fun a b => leb a b = true) (insert_by leb x l).
Proof.
  induction 1 as [| y l Hs IH Hy]; simpl.
  - constructor; constructor.
  - destruct (leb x y) eqn:E.
    + constructor; [constructor; assumption |].
      constructor; [exact E |].
      eapply Forall_impl; [| exact Hy]. intros z Hz. eapply leb_trans; eassumption.
    + constructor; [exact IH |].
      apply (Permutation_Forall (Permutation_sym (insert_by_perm leb x l))).
      constructor; [apply leb_total, E | exact Hy].
Qed.

Lemma isort_by_sorted (l : list A) :
  StronglySorted (fun a b => leb a b = true) (isort_by leb l).
Proof.
  induction l as [| x l IH]; simpl; [constructor |].
  apply insert_by_sorted, IH.
Qed.

End InsertionSort.

Lemma insert_by_map {A B} (f : A -> B) (leb : A -> A -> bool)
  (leb' : B -> B -> bool) (x : A) (l : list A) :
  (forall a b, leb' (f a) (f b) = leb a b) ->
  insert_by leb' (f x) (map f l) = map f (insert_by leb x l).
Proof.
  intros H. induction l as [| y l IH]; simpl; [reflexivity |].
  rewrite H. destruct (leb x y); simpl; [reflexivity | now rewrite IH].
Qed.

Lemma isort_by_map {A B} (f : A -> B) (leb : A -> A -> bool)
  (leb' : B -> B -> bool) (l : list A) :
  (forall a b, leb' (f a) (f b) = leb a b) ->
  isort_by leb' (map f l) = map f (isort_by leb l).
Proof.
  intros H. induction l as [| x l IH]; simpl; [reflexivity |].
  rewrite IH. apply insert_by_map, H.
Qed.

Lemma in_combine_seq {A} (l : list A) (d : A) :
  forall s i x, In (i, x) (combine (seq s (length l)) l) ->
                (s <= i)%nat /\ (i - s < length l)%nat /\ nth (i - s) l d = x.
Proof.
  induction l as [| y l IH]; intros s i x H; simpl in H; [contradiction |].
  destruct H as [H | H].
  - injection H as <- <-. rewrite Nat.sub_diag. simpl. repeat split; lia.
  - destruct (IH _ _ _ H) as [Hs [Hlt Hn]].
    replace (i - s)%nat with (S (i - S s)) by lia. simpl.
    repeat split; [lia | lia | exact Hn].
Qed.

Lemma sorted_pairs_perm (ps : list R) :
  Permutation (sorted_pairs ps) (combine (seq 0 (length ps)) ps).
Proof. apply isort_by_perm. Qed.

Lemma sorted_pairs_places (ps : list R) :
  Permutation (map fst (sorted_pairs ps)) (seq 0 (length ps)).
Proof.
  apply perm_trans with (map fst (combine (seq 0 (length ps)) ps)).
  - apply Permutation_map, sorted_pairs_perm.
  - rewrite map_fst_combine by apply length_seq. apply Permutation_refl.
Qed.

Lemma sorted_pairs_values (ps : list R) :
  Permutation (map snd (sorted_pairs ps)) ps.
Proof.
  apply perm_trans with (map snd (combine (seq 0 (length ps)) ps)).
  - apply Permutation_map, sorted_pairs_perm.
  - rewrite map_snd_combine by apply length_seq. apply Permutation_refl.
Qed.

Lemma sorted_pairs_length (ps : list R) :
  length (sorted_pairs ps) = length ps.
Proof.
  rewrite (Permutation_length (sorted_pairs_perm ps)), length_combine, length_seq.
  apply Nat.min_id.
Qed.

(** A sorted pair holds the p-value of its place. *)
Lemma sorted_pairs_in (ps : list R) (d : R) (i : nat) (x : R) :
  In (i, x) (sorted_pairs ps) -> (i < length ps)%nat /\ nth i ps d = x.
Proof.
  intros H. apply (Permutation_in _ (sorted_pairs_perm ps)) in H.
  destruct (in_combine_seq ps d _ _ _ H) as [_ [Hlt Hn]].
  rewrite Nat.sub_0_r in *. auto.
Qed.

Lemma sorted_pairs_sorted (ps : list R) :
  StronglySorted Rle (map snd (sorted_pairs ps)).
Proof.
  assert (H : StronglySorted (fun a b : nat * R => Rleb (snd a) (snd b) = true)
                (sorted_pairs ps)).
  { apply isort_by_sorted.
    - intros a b E. apply Rleb_false in E. apply Rleb_true. lra.
    - intros a b c E1 E2. apply Rleb_true in E1, E2. apply Rleb_true. lra. }
  induction H as [| a l Hs IH Ha]; simpl; constructor; [exact IH |].
  apply Forall_map. eapply Forall_impl; [| exact Ha].
  intros b Hb. apply Rleb_true in Hb. exact Hb.
Qed.

Lemma combine_map_snd {A B C} (g : B -> C) (l1 : list A) (l2 : list B) :
  combine l1 (map g l2) = map (fun ab => (fst ab, g (snd ab))) (combine l1 l2).
Proof.
  revert l2. induction l1 as [| a l1 IH]; intros [| b l2]; simpl; auto.
  now rewrite IH.
Qed.

(** The library sorts the floats as [sorted_pairs] sorts the reals. *)
Lemma argsort_reals (ps : list R) :
  argsort (map Fin ps) = map fst (sorted_pairs ps).
Proof.
  unfold argsort, sorted_pairs. rewrite length_map, combine_map_snd.
  rewrite isort_by_map with (leb := fun a b : nat * R => Rleb (snd a) (snd b))
    by reflexivity.
  rewrite map_map. reflexivity.
Qed.

Lemma np_take_sorted (ps : list R) :
  np_take (map Fin ps) (map fst (sorted_pairs ps))
  = map Fin (map snd (sorted_pairs ps)).
Proof.
  unfold np_take. rewrite !map_map. apply map_ext_in. intros [i x] Hin.
  destruct (@sorted_pairs_in ps 0%R _ _ Hin) as [Hi Hx]. cbn [fst snd].
  rewrite nth_map_default with (d0 := 0%R) by exact Hi. now rewrite Hx.
Qed.

(** ** Putting the values back *)

Lemma scatter_cons (a : nat) (idx : list nat) (v : float) (vals out : list float) :
  scatter (a :: idx) (v :: vals) out = scatter idx vals (set_nth a v out).
Proof. reflexivity. Qed.

Lemma scatter_nth (idx : list nat) (d : float) :
  forall vals out k,
    NoDup idx -> length idx = length vals -> (k < length idx)%nat ->
    (nth k idx O < length out)%nat ->
    nth (nth k idx O) (scatter idx vals out) d = nth k vals d.
Proof.
  induction idx as [| a idx IH]; intros [| v vals] out k Hnd Hlen Hk Ha;
    simpl in *; try lia.
  inversion Hnd as [| ? ? Hnotin Hnd']; subst.
  rewrite scatter_cons.
  destruct k as [| k].
  - rewrite scatter_untouched by exact Hnotin. apply nth_set_nth_same. exact Ha.
  - apply IH; [exact Hnd' | lia | lia | now rewrite set_nth_length].
Qed.

(** ** Invariance under rearrangement *)

Lemma Permutation_filter {A} (f : A -> bool) (l l' : list A) :
  Permutation l l' -> Permutation (filter f l) (filter f l').
Proof.
  induction 1; simpl.
  - apply perm_nil.
  - destruct (f x); [apply perm_skip |]; assumption.
  - destruct (f x), (f y); try apply Permutation_refl. apply perm_swap.
  - eapply perm_trans; eassumption.
Qed.

Lemma bh_rank_perm (l l' : list R) (y : R) :
  Permutation l l' -> bh_rank l y = bh_rank l' y.
Proof.
  intros H. unfold bh_rank. apply Permutation_length, Permutation_filter, H.
Qed.

Lemma bh_adjusted_perm (l l' : list R) (x : R) :
  Permutation l l' -> bh_adjusted l x = bh_adjusted l' x.
Proof.
  intros H. unfold bh_adjusted.
  rewrite (map_ext (bh_term l) (bh_term l')).
  - apply list_min_perm, Permutation_map, Permutation_filter, H.
  - intros y. unfold bh_term.
    now rewrite (Permutation_length H), (bh_rank_perm y H).
Qed.

(** The correction the library computes is the Benjamini-Hochberg
    correction of the p-values. *)
Theorem multipletests_is_benjamini_hochberg (ps : list R) :
  Forall (Rle 0) ps ->
  multipletests_fdr_bh (map Fin ps) = map Fin (benjamini_hochberg ps).
Proof.
  intros Hpos. unfold multipletests_fdr_bh.
  rewrite argsort_reals, np_take_sorted, fdrcorrection_sorted_reals,
    corrected_sorted_capped.
  set (sp := sorted_pairs ps). set (ss := map snd sp).
  assert (Hlen_ss : length ss = length ps).
  { subst ss sp. rewrite length_map. apply sorted_pairs_length. }
  assert (Hlen_c : length (corrected_sorted ss) = length ps).
  { unfold corrected_sorted. rewrite length_map.
    assert (Hsm : forall l, length (suffix_mins l) = length l)
      by (induction l; simpl; auto).
    rewrite Hsm, raw_corrected_length. exact Hlen_ss. }
  assert (Hsorted : StronglySorted Rle ss) by apply sorted_pairs_sorted.
  assert (Hperm : Permutation ss ps) by apply sorted_pairs_values.
  assert (Hpos_ss : Forall (Rle 0) ss)
    by (apply (Permutation_Forall (Permutation_sym Hperm)), Hpos).
  assert (Hplaces : Permutation (map fst sp) (seq 0 (length ps)))
    by apply sorted_pairs_places.
  assert (Hnd : NoDup (map fst sp)).
  { apply (Permutation_NoDup (Permutation_sym Hplaces)), seq_NoDup. }
  unfold benjamini_hochberg.
  apply nth_ext with (d := NaN) (d' := NaN).
  - rewrite scatter_length, repeat_length, !length_map. exact Hlen_c.
  - intros i Hi.
    rewrite scatter_length, repeat_length, length_map, Hlen_c in Hi.
    assert (Hin : In i (map fst sp)).
    { apply (Permutation_in _ (Permutation_sym Hplaces)), in_seq. lia. }
    destruct (In_nth _ _ O Hin) as [k [Hk Hki]].
    rewrite length_map in Hk.
    assert (Hk' : (k < length ps)%nat).
    { subst sp. rewrite sorted_pairs_length in Hk. exact Hk. }
    rewrite <- Hki.
    rewrite scatter_nth;
      [| exact Hnd | now rewrite !length_map, Hlen_c; subst sp;
                         rewrite sorted_pairs_length
         | now rewrite length_map
         | now rewrite Hki, repeat_length, length_map, Hlen_c ].
    rewrite nth_map_default with (d0 := 0%R) by (now rewrite Hlen_c).
    rewrite corrected_sorted_is_bh by (try assumption; now rewrite Hlen_ss).
    rewrite Hki.
    rewrite nth_map_default with (d0 := 0%R) by (now rewrite length_map).
    rewrite nth_map_default with (d0 := 0%R) by exact Hi.
    f_equal. rewrite (bh_adjusted_perm _ Hperm). f_equal.
    subst ss. rewrite nth_map_default with (d0 := (O, 0%R)) by exact Hk.
    assert (Hpair : In (nth k sp (O, 0%R)) sp) by (apply nth_In; exact Hk).
    rewrite nth_map_default with (d0 := (O, 0%R)) in Hki by exact Hk.
    destruct (nth k sp (O, 0%R)) as [i' x] eqn:E. cbn [fst snd] in *. subst i'.
    destruct (@sorted_pairs_in ps 0%R _ _ Hpair) as [_ Hx]. now rewrite Hx.
Qed.

(* ================================================================== *)
(** * [convertor] *)

Lemma combine_map_same {A B C} (f : A -> B) (g : A -> C) (l : list A) :
  combine (map f l) (map g l) = map (fun x => (f x, g x)) l.
Proof.
  induction l as [| x l IH]; simpl; [reflexivity | now rewrite IH].
Qed.

Lemma p_value_df_columns (counts : DataFrame float) (n_iter : nat) :
  columns (p_value_df counts n_iter)
  = map (fun c => (fst c, map (code_raw_p n_iter) (snd c))) (columns counts).
Proof.
  unfold p_value_df, df_where, df_ge, df_div, df_map, df_apply. simpl.
  rewrite <- (map_id (map (fun c : label * list float =>
                             (fst c, map (fun x => fdiv x (of_nat n_iter)) (snd c)))
                          (columns counts))) at 1.
  rewrite combine_map_same. rewrite !map_map.
  apply map_ext. intros [c vs]. simpl. f_equal.
  rewrite <- (map_id (map (fun x => fdiv x (of_nat n_iter)) vs)) at 1.
  rewrite combine_map_same. rewrite !map_map.
  apply map_ext. intros x. reflexivity.
Qed.

Lemma p_value_df_index (counts : DataFrame float) (n_iter : nat) :
  index (p_value_df counts n_iter) = index counts.
Proof. reflexivity. Qed.

Lemma convertor_columns (counts : DataFrame float) (n_iter : nat) :
  columns (convertor counts n_iter)
  = map (fun c => (fst c,
                   map (code_score n_iter)
                       (multipletests_fdr_bh (map (code_raw_p n_iter) (snd c)))))
        (columns counts).
Proof.
  unfold convertor, p_values_fdr_bh, df_apply. cbn [columns].
  rewrite p_value_df_columns, !map_map. reflexivity.
Qed.

Lemma p_values_fdr_bh_columns (counts : DataFrame float) (n_iter : nat) :
  columns (p_values_fdr_bh counts n_iter)
  = map (fun c => (fst c, multipletests_fdr_bh (map (code_raw_p n_iter) (snd c))))
        (columns counts).
Proof.
  unfold p_values_fdr_bh, df_apply. cbn [columns].
  rewrite p_value_df_columns, !map_map. reflexivity.
Qed.

(** On a count the [where] of the source is the clip of the specification. *)
Lemma code_raw_p_spec (n_iter k : nat) :
  (1 <= n_iter)%nat -> code_raw_p n_iter (of_nat k) = Fin (spec_raw_p n_iter k).
Proof.
  intros Hn. unfold code_raw_p, spec_raw_p, of_nat.
  assert (Hpos : (0 < INR n_iter)%R) by (apply lt_0_INR; lia).
  rewrite fdiv_fin by lra. rewrite min_p_value_spec.
  unfold fgeb, fleb, Rleb, Rmax.
  destruct (Rle_dec (spec_min_p n_iter) (INR k / INR n_iter)),
           (Rle_dec (INR k / INR n_iter) (spec_min_p n_iter));
    try reflexivity; f_equal; lra.
Qed.

(** A clipped raw p-value lies between [min_p] and one. *)
Lemma code_raw_p_range (n_iter k : nat) :
  (1 <= n_iter)%nat -> (k <= n_iter)%nat ->
  in_range (spec_min_p n_iter) 1 (code_raw_p n_iter (of_nat k)).
Proof.
  intros Hn Hk. unfold code_raw_p, of_nat.
  assert (Hpos : (0 < INR n_iter)%R) by (apply lt_0_INR; lia).
  assert (Hkn : (INR k <= INR n_iter)%R) by (apply le_INR; lia).
  rewrite fdiv_fin by lra. rewrite min_p_value_spec.
  unfold fgeb, fleb.
  destruct (Rleb (spec_min_p n_iter) (INR k / INR n_iter)) eqn:E.
  - apply Rleb_true in E. exists (INR k / INR n_iter)%R.
    split; [reflexivity |]. split; [exact E |]. apply div_le_bound; lra.
  - exists (spec_min_p n_iter). split; [reflexivity |].
    pose proof (spec_min_p_le_1 n_iter). lra.
Qed.

Lemma count_column_range (n_iter : nat) (col : list float) :
  (1 <= n_iter)%nat ->
  Forall (fun x => exists k, (k <= n_iter)%nat /\ x = of_nat k) col ->
  Forall (in_range (spec_min_p n_iter) 1)
         (multipletests_fdr_bh (map (code_raw_p n_iter) col)).
Proof.
  intros Hn Hcol. apply multipletests_range.
  - split; [apply spec_min_p_pos | apply spec_min_p_le_1].
  - apply Forall_map. eapply Forall_impl; [| exact Hcol].
    intros x [k [Hk ->]]. apply code_raw_p_range; assumption.
Qed.

(** The score of a corrected p-value between [min_p] and one. *)
Lemma code_score_range (n_iter : nat) (q : R) :
  (1 <= n_iter)%nat -> (spec_min_p n_iter <= q <= 1)%R ->
  exists s, code_score n_iter (Fin q) = Fin s /\ (0 <= s <= 1)%R
            /\ (s = 1%R <-> q = spec_min_p n_iter).
Proof.
  intros Hn Hq. unfold code_score. rewrite min_p_value_spec.
  pose proof (spec_min_p_pos n_iter) as Hm0.
  pose proof (spec_min_p_lt_1 Hn) as Hm1.
  set (m := spec_min_p n_iter) in *.
  assert (Hq0 : (0 < q)%R) by lra.
  assert (H10 : (0 < ln 10)%R).
  { rewrite <- ln_1. apply ln_increasing; lra. }
  assert (Hlm : (ln m < 0)%R).
  { rewrite <- ln_1. apply ln_increasing; lra. }
  assert (Hlq : (ln q <= 0)%R).
  { destruct (Rle_lt_or_eq_dec q 1 (proj2 Hq)) as [Hlt | ->].
    - left. rewrite <- ln_1. apply ln_increasing; lra.
    - rewrite ln_1. lra. }
  assert (Hmq : (ln m <= ln q)%R).
  { destruct (Rle_lt_or_eq_dec m q (proj1 Hq)) as [Hlt | ->].
    - left. apply ln_increasing; lra.
    - lra. }
  unfold flog10.
  replace (Rltb 0 q) with true by (symmetry; apply Rltb_true; lra).
  replace (Rltb 0 m) with true by (symmetry; apply Rltb_true; lra).
  assert (Hden : (ln m / ln 10 <> 0)%R).
  { intros H. apply (Rmult_eq_compat_r (ln 10)) in H.
    unfold Rdiv in H. rewrite Rmult_assoc, Rinv_l, Rmult_0_l in H by lra. lra. }
  rewrite fdiv_fin by exact Hden.
  assert (Heq : (ln q / ln 10 / (ln m / ln 10) = ln q / ln m)%R).
  { field. split; lra. }
  rewrite Heq. exists (ln q / ln m)%R. split; [reflexivity |].
  assert (Hs : (ln q / ln m = (- ln q) / (- ln m))%R) by (field; lra).
  split; [split |].
  - rewrite Hs. apply div_ge_bound; lra.
  - rewrite Hs. apply div_le_bound; lra.
  - split.
    + intros H1. apply ln_inv; try lra.
      apply (Rmult_eq_compat_r (ln m)) in H1.
      unfold Rdiv in H1. rewrite Rmult_assoc, Rinv_l in H1 by lra. lra.
    + intros ->. field. lra.
Qed.

Lemma cell_col_values {A} (df : DataFrame A) (j i : nat) :
  cell (col_values df) j i
  = match nth_error (columns df) j with
    | Some c => nth_error (snd c) i
    | None => None
    end.
Proof.
  unfold cell, col_values. rewrite nth_error_map.
  destruct (nth_error (columns df) j); reflexivity.
Qed.

Lemma df_eta {A} (df : DataFrame A) : df = mkDF (index df) (columns df).
Proof. destruct df; reflexivity. Qed.

Lemma convertor_index (counts : DataFrame float) (n_iter : nat) :
  index (convertor counts n_iter) = index counts.
Proof. reflexivity. Qed.

(** The score of a positive corrected p-value is the score of the
    specification. *)
Lemma code_score_spec (n_iter : nat) (q : R) :
  (1 <= n_iter)%nat -> (0 < q)%R ->
  code_score n_iter (Fin q) = Fin (spec_score n_iter q).
Proof.
  intros Hn Hq. unfold code_score, spec_score, log10. rewrite min_p_value_spec.
  pose proof (spec_min_p_pos n_iter) as Hm0.
  pose proof (spec_min_p_lt_1 Hn) as Hm1.
  unfold flog10.
  replace (Rltb 0 q) with true by (symmetry; apply Rltb_true; lra).
  replace (Rltb 0 (spec_min_p n_iter)) with true
    by (symmetry; apply Rltb_true; lra).
  apply fdiv_fin.
  assert (H10 : (0 < ln 10)%R) by (rewrite <- ln_1; apply ln_increasing; lra).
  assert (Hlm : (ln (spec_min_p n_iter) < 0)%R)
    by (rewrite <- ln_1; apply ln_increasing; lra).
  intros H. apply (Rmult_eq_compat_r (ln 10)) in H.
  unfold Rdiv in H. rewrite Rmult_assoc, Rinv_l, Rmult_0_l in H by lra. lra.
Qed.

Lemma spec_raw_p_range (n_iter k : nat) :
  (1 <= n_iter)%nat -> (k <= n_iter)%nat ->
  (spec_min_p n_iter <= spec_raw_p n_iter k <= 1)%R.
Proof.
  intros Hn Hk.
  destruct (code_raw_p_range Hn Hk) as [r [Hr Hb]].
  rewrite code_raw_p_spec in Hr by exact Hn. injection Hr as ->. exact Hb.
Qed.

(** One column: the source computes what the specification describes. *)
Lemma convert_column_spec (n_iter : nat) (col : list nat) :
  (1 <= n_iter)%nat -> Forall (fun k => (k <= n_iter)%nat) col ->
  map (code_score n_iter)
      (multipletests_fdr_bh (map (code_raw_p n_iter) (map of_nat col)))
  = map Fin (spec_convert_column n_iter col).
Proof.
  intros Hn Hcol. unfold spec_convert_column.
  pose proof (spec_min_p_pos n_iter) as Hm0.
  assert (Hraw : map (code_raw_p n_iter) (map of_nat col)
                 = map Fin (map (spec_raw_p n_iter) col)).
  { rewrite !map_map. apply map_ext. intros k. apply code_raw_p_spec, Hn. }
  assert (Hrange : Forall (fun r => spec_min_p n_iter <= r <= 1)%R
                     (map (spec_raw_p n_iter) col)).
  { apply Forall_map. eapply Forall_impl; [| exact Hcol].
    intros k Hk. apply spec_raw_p_range; assumption. }
  assert (Hbh : multipletests_fdr_bh (map Fin (map (spec_raw_p n_iter) col))
                = map Fin (benjamini_hochberg (map (spec_raw_p n_iter) col))).
  { apply multipletests_is_benjamini_hochberg.
    eapply Forall_impl; [| exact Hrange]. intros r Hr. simpl in Hr. lra. }
  assert (Hout : Forall (in_range (spec_min_p n_iter) 1)
                   (map Fin (benjamini_hochberg (map (spec_raw_p n_iter) col)))).
  { rewrite <- Hbh. apply multipletests_range.
    - split; [exact Hm0 | apply spec_min_p_le_1].
    - apply Forall_map. eapply Forall_impl; [| exact Hrange].
      intros r Hr. exists r. split; [reflexivity | exact Hr]. }
  rewrite Hraw, Hbh, !map_map. apply map_ext_in. intros q Hq.
  apply code_score_spec; [exact Hn |].
  rewrite Forall_forall in Hout.
  destruct (Hout (Fin q) (in_map Fin _ _ Hq)) as [r [Hr Hb]].
  injection Hr as ->. lra.
Qed.

(** C2: for an integer count matrix with values in [0, n_iter] and
    n_iter >= 1, [convertor] returns log10(corrected_p) / log10(min_p), where
    min_p = 1/(n_iter+1), the raw p is count/n_iter clipped below at min_p, and
    corrected_p is the Benjamini-Hochberg correction of each feature column
    over its nodes: the frame computed by the source is the frame of real
    numbers the specification describes. *)
Theorem convertor_refines_spec (counts : DataFrame nat) (n_iter : nat) :
  (1 <= n_iter)%nat -> integer_counts n_iter counts ->
  convertor (df_map of_nat counts) n_iter
  = df_map Fin (spec_convertor counts n_iter).
Proof.
  intros Hn Hc.
  rewrite (df_eta (convertor (df_map of_nat counts) n_iter)).
  rewrite convertor_index, convertor_columns.
  unfold spec_convertor, df_map, df_apply. cbn [index columns]. f_equal.
  rewrite !map_map. apply map_ext_in. intros [c ks] Hin. cbn [fst snd]. f_equal.
  unfold integer_counts in Hc. rewrite Forall_forall in Hc.
  apply convert_column_spec; [exact Hn | exact (Hc _ Hin)].
Qed.

(** C3: for n_iter >= 1 and a count matrix with integer values in
    [0, n_iter], every SAFE score produced by [convertor] is a number in
    [0, 1], and it equals 1 exactly when the corrected p-value of its cell
    equals the minimum p-value 1/(n_iter+1). *)
Theorem convertor_score_bounds (counts : DataFrame float) (n_iter : nat) :
  (1 <= n_iter)%nat -> count_matrix n_iter counts ->
  forall (j i : nat) (x : float),
    cell (col_values (convertor counts n_iter)) j i = Some x ->
    exists s q : R,
      x = Fin s /\ (0 <= s <= 1)%R
      /\ cell (col_values (p_values_fdr_bh counts n_iter)) j i = Some (Fin q)
      /\ (s = 1%R <-> q = (1 / (INR n_iter + 1))%R).
Proof.
  intros Hn Hc j i x Hx.
  rewrite cell_col_values, convertor_columns, nth_error_map in Hx.
  rewrite cell_col_values, p_values_fdr_bh_columns, nth_error_map.
  destruct (nth_error (columns counts) j) as [[c vs] |] eqn:Hj; simpl in *;
    [| discriminate].
  rewrite nth_error_map in Hx.
  destruct (nth_error (multipletests_fdr_bh (map (code_raw_p n_iter) vs)) i)
    as [p |] eqn:Hi; simpl in Hx; [| discriminate].
  injection Hx as <-.
  assert (Hr : in_range (spec_min_p n_iter) 1 p).
  { apply nth_error_In in Hi.
    pose proof (@count_column_range n_iter vs Hn) as Hall.
    unfold count_matrix in Hc. rewrite Forall_forall in Hc.
    specialize (Hc _ (nth_error_In _ _ Hj)). simpl in Hc.
    specialize (Hall Hc). rewrite Forall_forall in Hall. apply Hall, Hi. }
  destruct Hr as [q [-> Hq]].
  destruct (code_score_range Hn Hq) as [s [Hs [Hb Hiff]]].
  exists s, q. repeat split; auto; try apply Hb; apply Hiff.
Qed.

(* ================================================================== *)
(** * Reasoning about computations *)

Lemma bind_ok {A B} (c : M A) (k : A -> M B) (s s' : state) (b : B) :
  bind c k s = (Ok b, s') ->
  exists a s1, c s = (Ok a, s1) /\ k a s1 = (Ok b, s').
Proof.
  unfold bind. destruct (c s) as [[a | e] s1]; intros H.
  - exists a, s1. split; [reflexivity | exact H].
  - discriminate.
Qed.

Lemma rbind_ok {A B} (r : result A) (k : A -> result B) (b : B) :
  rbind r k = Ok b -> exists a, r = Ok a /\ k a = Ok b.
Proof.
  destruct r as [a | e]; simpl; intros H; [exists a; auto | discriminate].
Qed.

Lemma ret_ok {A} (a b : A) (s s' : state) :
  ret a s = (Ok b, s') -> a = b /\ s = s'.
Proof. unfold ret. intros H. injection H as -> ->. auto. Qed.

Lemma lift_ok {A} (r : result A) (a : A) (s s' : state) :
  lift r s = (Ok a, s') -> r = Ok a /\ s = s'.
Proof. unfold lift. intros H. injection H as -> ->. auto. Qed.

Lemma assert_ok (b : bool) (u : unit) (s s' : state) :
  assert b s = (Ok u, s') -> b = true /\ s = s'.
Proof.
  unfold assert. destruct b; intros H.
  - apply ret_ok in H. tauto.
  - discriminate.
Qed.

Lemma deref_ok (l : loc) (d : DataFrame float) (s s' : state) :
  deref l s = (Ok d, s') -> nth_error (store s) l = Some d /\ s = s'.
Proof.
  unfold deref. destruct (nth_error (store s) l); intros H; [| discriminate].
  injection H as -> ->. auto.
Qed.

(** Splits a successful run into the runs of its steps. *)
Ltac run_inv H :=
  let a := fresh "a" in
  let s1 := fresh "s" in
  let H1 := fresh "Hrun" in
  match type of H with
  | bind _ _ _ = (Ok _, _) =>
      apply bind_ok in H; destruct H as [a [s1 [H1 H]]]
  | ret _ _ = (Ok _, _) => apply ret_ok in H; destruct H
  | lift _ _ = (Ok _, _) => apply lift_ok in H; destruct H
  | assert _ _ = (Ok _, _) => apply assert_ok in H; destruct H
  | deref _ _ = (Ok _, _) => apply deref_ok in H; destruct H
  | raise _ _ = (Ok _, _) => discriminate H
  end.

Lemma for_range_invariant {S} (I : nat -> S -> Prop) (body : S -> M S) :
  (forall k acc s acc' s', I k acc -> body acc s = (Ok acc', s') -> I (Datatypes.S k) acc') ->
  forall n k acc s r s',
    I k acc -> for_range n body acc s = (Ok r, s') -> I (k + n)%nat r.
Proof.
  intros Hstep. induction n as [| n IH]; intros k acc s r s' Hk Hrun; simpl in Hrun.
  - apply ret_ok in Hrun. destruct Hrun as [<- _]. now rewrite Nat.add_0_r.
  - apply bind_ok in Hrun. destruct Hrun as [acc1 [s1 [Hb Hrest]]].
    rewrite <- Nat.add_succ_comm.
    eapply IH; [| exact Hrest]. eapply Hstep; eassumption.
Qed.

(* ================================================================== *)
(** * The two counters of the permutation loop *)

Lemma nth_error_combine {A B} (l1 : list A) (l2 : list B) (i : nat) :
  nth_error (combine l1 l2) i
  = match nth_error l1 i, nth_error l2 i with
    | Some a, Some b => Some (a, b)
    | _, _ => None
    end.
Proof.
  revert l2 i. induction l1 as [| a l1 IH]; intros [| b l2] [| i]; simpl; auto.
  destruct (nth_error l1 i); reflexivity.
Qed.

Lemma df_compare_cell (op : float -> float -> bool) (a b : DataFrame float)
  (m : DataFrame bool) (j i : nat) :
  df_compare op a b = Ok m ->
  cell (col_values m) j i
  = match cell (col_values a) j i, cell (col_values b) j i with
    | Some x, Some y => Some (op x y)
    | _, _ => None
    end.
Proof.
  unfold df_compare.
  destruct (labels_eqb (index a) (index b) && labels_eqb (col_names a) (col_names b));
    intros H; [| discriminate].
  injection H as <-.
  rewrite !cell_col_values. cbn [columns].
  rewrite nth_error_map, nth_error_combine.
  destruct (nth_error (columns a) j) as [[ca va] |]; simpl; [| reflexivity].
  destruct (nth_error (columns b) j) as [[cb vb] |]; simpl.
  - rewrite nth_error_map, nth_error_combine.
    destruct (nth_error va i); simpl; [| reflexivity].
    destruct (nth_error vb i); reflexivity.
  - destruct (nth_error va i); reflexivity.
Qed.

Lemma mask_incr_cell (arr arr' : ndarray) (mask : DataFrame bool) (j i : nat) :
  mask_incr arr mask = Ok arr' ->
  cell (nd_data arr') j i
  = match cell (nd_data arr) j i, cell (col_values mask) j i with
    | Some n, Some b => Some (if b then S n else n)
    | _, _ => None
    end.
Proof.
  unfold mask_incr.
  destruct (shape_eqb (nd_shape arr) (shape mask)); intros H; [| discriminate].
  injection H as <-. cbn [nd_data]. unfold cell.
  rewrite nth_error_map, nth_error_combine.
  destruct (nth_error (nd_data arr) j) as [c |]; simpl; [| reflexivity].
  destruct (nth_error (col_values mask) j) as [bs |]; simpl.
  - rewrite nth_error_map, nth_error_combine.
    destruct (nth_error c i); simpl; [| reflexivity].
    destruct (nth_error bs i); reflexivity.
  - destruct (nth_error c i); reflexivity.
Qed.

Lemma mask_incr_shape (arr arr' : ndarray) (mask : DataFrame bool) :
  mask_incr arr mask = Ok arr' -> nd_shape arr' = nd_shape arr.
Proof.
  unfold mask_incr.
  destruct (shape_eqb (nd_shape arr) (shape mask)); intros H; [| discriminate].
  injection H as <-. reflexivity.
Qed.

(** What one trial does to one cell of the two counters. *)
Lemma count_step_cell (p obs : DataFrame float) (counts counts' : ndarray * ndarray)
  (j i : nat) :
  count_step p obs counts = Ok counts' ->
  cell (nd_data (fst counts')) j i
  = match cell (nd_data (fst counts)) j i,
          cell (col_values p) j i, cell (col_values obs) j i with
    | Some n, Some x, Some y => Some (if fgeb x y then S n else n)
    | _, _, _ => None
    end
  /\ cell (nd_data (snd counts')) j i
     = match cell (nd_data (snd counts)) j i,
             cell (col_values p) j i, cell (col_values obs) j i with
       | Some n, Some x, Some y => Some (if fleb x y then S n else n)
       | _, _, _ => None
       end.
Proof.
  unfold count_step. intros H.
  apply rbind_ok in H. destruct H as [ge [Hge H]].
  apply rbind_ok in H. destruct H as [enr [Henr H]].
  apply rbind_ok in H. destruct H as [le [Hle H]].
  apply rbind_ok in H. destruct H as [dec [Hdec H]].
  injection H as <-. cbn [fst snd].
  rewrite (mask_incr_cell _ _ j i Henr), (mask_incr_cell _ _ j i Hdec).
  rewrite (df_compare_cell _ _ _ j i Hge), (df_compare_cell _ _ _ j i Hle).
  split.
  - destruct (cell (nd_data (fst counts)) j i); [| reflexivity].
    destruct (cell (col_values p) j i); [| reflexivity].
    destruct (cell (col_values obs) j i); reflexivity.
  - destruct (cell (nd_data (snd counts)) j i); [| reflexivity].
    destruct (cell (col_values p) j i); [| reflexivity].
    destruct (cell (col_values obs) j i); reflexivity.
Qed.

(** Equal scores satisfy both inclusive comparisons. *)
Lemma feqb_both (x y : float) :
  feqb x y = true -> fgeb x y = true /\ fleb x y = true.
Proof.
  unfold feqb, fgeb, fleb.
  destruct x as [a | | |], y as [b | | |]; simpl; intros H; try discriminate; auto.
  apply Reqb_true in H. subst. split; apply Rleb_true; lra.
Qed.

(** A successful trial applies [count_step] to a frame the aggregation
    returned. *)
Lemma trial_ok (g : Graph) (data : loc) (shuffle_by : string)
  (nb : neighborhoods_t) (agg : string) (obs : DataFrame float)
  (counts counts' : ndarray * ndarray) (s s' : state) :
  trial g data shuffle_by nb agg obs counts s = (Ok counts', s') ->
  exists d, count_step (neighborhood_score g d nb agg) obs counts = Ok counts'.
Proof.
  unfold trial. intros H.
  run_inv H. run_inv H. run_inv H. subst.
  destruct a as [l |]; [| discriminate].
  run_inv Hrun0. unfold call_neighborhood_score in Hrun0.
  run_inv Hrun0. run_inv Hrun0. subst.
  exists a. assumption.
Qed.

Lemma nth_error_repeat_some {A} (x y : A) (n i : nat) :
  nth_error (repeat x n) i = Some y -> y = x.
Proof.
  intros H. apply nth_error_In in H. apply repeat_spec in H. exact H.
Qed.

Lemma np_zeros_cell (sh : nat * nat) (j i a : nat) :
  cell (nd_data (np_zeros sh)) j i = Some a -> a = O.
Proof.
  unfold cell, np_zeros. cbn [nd_data].
  destruct (nth_error (repeat (repeat O (fst sh)) (snd sh)) j) as [c |] eqn:Hj;
    [| discriminate].
  apply nth_error_repeat_some in Hj. subst c.
  apply nth_error_repeat_some.
Qed.

Lemma trials_where_bound (op : float -> float -> bool) (obs : DataFrame float)
  (ps : list (DataFrame float)) (j i : nat) :
  (trials_where op obs ps j i <= length ps)%nat.
Proof. apply filter_length_bound. Qed.

Lemma trials_where_snoc (op : float -> float -> bool) (obs p : DataFrame float)
  (ps : list (DataFrame float)) (j i : nat) :
  trials_where op obs (ps ++ [p]) j i
  = (trials_where op obs ps j i + (if holds_at op obs p j i then 1 else 0))%nat.
Proof.
  unfold trials_where. rewrite filter_app, length_app. simpl.
  destruct (holds_at op obs p j i); reflexivity.
Qed.

(** Two numbers compare in one direction, and in both exactly when they are
    equal. *)
Lemma inclusive_comparisons (x y : float) :
  is_nan x = false -> is_nan y = false ->
  ((if fgeb x y then 1 else 0) + (if fleb x y then 1 else 0)
   = 1 + (if feqb x y then 1 else 0))%nat.
Proof.
  unfold fgeb, fleb, feqb.
  destruct x as [a | | |], y as [b | | |]; simpl; intros Hx Hy;
    try discriminate; try reflexivity.
  destruct (Rtotal_order a b) as [H | [H | H]].
  - replace (Rleb b a) with false by (symmetry; apply Rleb_false; lra).
    replace (Rleb a b) with true by (symmetry; apply Rleb_true; lra).
    replace (Reqb a b) with false by (symmetry; apply Reqb_false; lra).
    reflexivity.
  - subst. rewrite Reqb_refl.
    replace (Rleb b b) with true by (symmetry; apply Rleb_true; lra).
    reflexivity.
  - replace (Rleb b a) with true by (symmetry; apply Rleb_true; lra).
    replace (Rleb a b) with false by (symmetry; apply Rleb_false; lra).
    replace (Reqb a b) with false by (symmetry; apply Reqb_false; lra).
    reflexivity.
Qed.

Lemma trials_where_cons (op : float -> float -> bool) (obs p : DataFrame float)
  (ps : list (DataFrame float)) (j i : nat) :
  trials_where op obs (p :: ps) j i
  = ((if holds_at op obs p j i then 1 else 0) + trials_where op obs ps j i)%nat.
Proof.
  unfold trials_where. simpl. destruct (holds_at op obs p j i); reflexivity.
Qed.

Lemma holds_at_cells (op : float -> float -> bool) (obs p : DataFrame float)
  (j i : nat) (x y : float) :
  cell (col_values p) j i = Some x -> cell (col_values obs) j i = Some y ->
  holds_at op obs p j i = op x y.
Proof. unfold holds_at. intros -> ->. reflexivity. Qed.

(** In a cell where every trial compared two numbers, the two counts add up
    to the number of trials plus the number of ties. *)
Lemma inclusive_double_counting (obs : DataFrame float)
  (ps : list (DataFrame float)) (j i : nat) :
  compared_at obs ps j i -> numeric_at obs ps j i ->
  (trials_where fgeb obs ps j i + trials_where fleb obs ps j i
   = length ps + trials_where feqb obs ps j i)%nat.
Proof.
  unfold compared_at, numeric_at.
  induction ps as [| p ps IH]; intros Hc Hn; [reflexivity |].
  inversion Hc as [| ? ? [x [y [Hx Hy]]] Hc']; subst.
  inversion Hn as [| ? ? Hp Hn']; subst.
  specialize (IH Hc' Hn'). destruct (Hp x y Hx Hy) as [Hxn Hyn].
  pose proof (inclusive_comparisons x y Hxn Hyn) as Hxy.
  rewrite !trials_where_cons, !(holds_at_cells _ _ _ _ _ Hx Hy).
  simpl length. lia.
Qed.

Section Counters.

Variable g : Graph.
Variable nb : neighborhoods_t.
Variable agg : string.
Variable obs : DataFrame float.

Lemma counters_after_zero (sh : nat * nat) :
  counters_after g nb agg obs 0 (np_zeros sh, np_zeros sh).
Proof.
  exists []. split; [reflexivity |]. split; [constructor |].
  intros j i. cbn [fst snd].
  destruct (cell (nd_data (np_zeros sh)) j i) as [a |] eqn:E; [| exact I].
  apply np_zeros_cell in E. subst. repeat split; constructor.
Qed.

Lemma counters_of_step (ps : list (DataFrame float)) (p : DataFrame float)
  (counts counts' : ndarray * ndarray) :
  counters_of obs ps counts ->
  count_step p obs counts = Ok counts' ->
  counters_of obs (ps ++ [p]) counts'.
Proof.
  intros Hk Hstep j i.
  destruct (@count_step_cell p obs counts counts' j i Hstep) as [He Hd].
  rewrite He, Hd. specialize (Hk j i).
  destruct (cell (nd_data (fst counts)) j i) as [a |],
           (cell (nd_data (snd counts)) j i) as [b |]; try contradiction.
  - destruct (cell (col_values p) j i) as [x |] eqn:Hx; [| exact I].
    destruct (cell (col_values obs) j i) as [y |] eqn:Hy; [| exact I].
    destruct Hk as [Ha [Hb Hc]].
    rewrite !trials_where_snoc. unfold holds_at. rewrite Hx, Hy.
    repeat split.
    + destruct (fgeb x y); lia.
    + destruct (fleb x y); lia.
    + apply Forall_app. split; [exact Hc |].
      constructor; [| constructor]. exists x, y. rewrite Hx. auto.
  - destruct (cell (col_values p) j i); [| exact I].
    destruct (cell (col_values obs) j i); exact I.
Qed.

Lemma permutation_loop_counters (data : loc) (n_iter : nat) (shuffle_by : string)
  (sh : nat * nat) (s s' : state) (counts : ndarray * ndarray) :
  permutation_loop g data n_iter shuffle_by nb agg obs sh s = (Ok counts, s') ->
  counters_after g nb agg obs n_iter counts.
Proof.
  unfold permutation_loop. intros Hrun.
  change n_iter with (0 + n_iter)%nat.
  eapply (for_range_invariant (counters_after g nb agg obs));
    [| apply counters_after_zero | exact Hrun].
  intros k acc s1 acc' s1' [ps [Hlen [Hall Hk]]] Hb.
  apply trial_ok in Hb. destruct Hb as [d Hd].
  exists (ps ++ [neighborhood_score g d nb agg]). split; [| split].
  - rewrite length_app. simpl. lia.
  - apply Forall_app. split; [exact Hall |].
    constructor; [exists d; reflexivity | constructor].
  - eapply counters_of_step; eassumption.
Qed.

(** A trial whose permuted score equals the observed one increments both
    counters of the cell. *)
Lemma count_step_equal_scores (p : DataFrame float)
  (counts counts' : ndarray * ndarray) (j i : nat) (x y : float) (a b : nat) :
  count_step p obs counts = Ok counts' ->
  cell (col_values p) j i = Some x ->
  cell (col_values obs) j i = Some y ->
  feqb x y = true ->
  cell (nd_data (fst counts)) j i = Some a ->
  cell (nd_data (snd counts)) j i = Some b ->
  cell (nd_data (fst counts')) j i = Some (S a)
  /\ cell (nd_data (snd counts')) j i = Some (S b).
Proof.
  intros Hstep Hx Hy Heq Ha Hb.
  destruct (@count_step_cell p obs counts counts' j i Hstep) as [He Hd].
  rewrite He, Hd, Ha, Hb, Hx, Hy.
  destruct (feqb_both x y Heq) as [-> ->]. auto.
Qed.

End Counters.

(** A comparison that holds compares two numbers. *)
Lemma comparison_of_numbers (x y : float) :
  fgeb x y = true -> is_nan x = false /\ is_nan y = false.
Proof.
  destruct x, y; simpl; intros H; try discriminate; auto.
Qed.

Lemma filter_full {A} (f : A -> bool) (l : list A) :
  length (filter f l) = length l -> Forall (fun x => f x = true) l.
Proof.
  induction l as [| x l IH]; simpl; intros H; [constructor |].
  pose proof (filter_length_bound f l) as Hb.
  destruct (f x) eqn:E; simpl in H.
  - constructor; [exact E | apply IH; lia].
  - lia.
Qed.

(** In a cell where every trial reached the observed score, the scores
    compared are numbers. *)
Lemma numeric_where_all_reach (obs : DataFrame float)
  (ps : list (DataFrame float)) (j i : nat) :
  trials_where fgeb obs ps j i = length ps -> numeric_at obs ps j i.
Proof.
  unfold trials_where, numeric_at. intros H. apply filter_full in H.
  eapply Forall_impl; [| exact H]. intros p Hp x y Hx Hy. cbv beta in Hp.
  unfold holds_at in Hp. rewrite Hx, Hy in Hp.
  apply comparison_of_numbers, Hp.
Qed.

(** C4 (as amended): after the permutation loop of [_SAFE] has run its n_iter
    trials, the enrichment count of a cell is the number of trials whose
    permuted score was >= the observed one and the decline count the number
    of trials whose permuted score was <= it, and each count is at most
    n_iter.  In a cell whose compared scores are numbers, the two counts add
    up to n_iter plus the number of trials that tied, hence to at least
    n_iter; a NaN satisfies neither comparison, so that a trial on a NaN
    score counts in neither counter.  A trial whose permuted score equals
    the observed score increments both counters. *)
Theorem permutation_counts (g : Graph) (data : loc) (n_iter : nat)
  (shuffle_by : string) (nb : neighborhoods_t) (agg : string)
  (obs : DataFrame float) (sh : nat * nat) (s s' : state) (enr dec : ndarray) :
  permutation_loop g data n_iter shuffle_by nb agg obs sh s = (Ok (enr, dec), s') ->
  (exists ps,
      length ps = n_iter
      /\ Forall (fun p => exists d, p = neighborhood_score g d nb agg) ps
      /\ forall j i,
          match cell (nd_data enr) j i, cell (nd_data dec) j i with
          | Some a, Some b =>
              a = trials_where fgeb obs ps j i
              /\ b = trials_where fleb obs ps j i
              /\ (a <= n_iter)%nat /\ (b <= n_iter)%nat
              /\ (numeric_at obs ps j i ->
                  (a + b = n_iter + trials_where feqb obs ps j i)%nat
                  /\ (n_iter <= a + b)%nat)
          | None, None => True
          | _, _ => False
          end)
  /\ (forall p counts counts' j i x y a b,
         count_step p obs counts = Ok counts' ->
         cell (col_values p) j i = Some x ->
         cell (col_values obs) j i = Some y ->
         feqb x y = true ->
         cell (nd_data (fst counts)) j i = Some a ->
         cell (nd_data (snd counts)) j i = Some b ->
         cell (nd_data (fst counts')) j i = Some (S a)
         /\ cell (nd_data (snd counts')) j i = Some (S b)).
Proof.
  intros Hrun. split.
  - pose proof Hrun as Hc. apply permutation_loop_counters in Hc.
    destruct Hc as [ps [Hlen [Hall Hc]]].
    exists ps. split; [exact Hlen |]. split; [exact Hall |].
    intros j i. specialize (Hc j i). cbn [fst snd] in Hc.
    destruct (cell (nd_data enr) j i) as [a |],
             (cell (nd_data dec) j i) as [b |]; try exact Hc.
    destruct Hc as [Ha [Hb Hcmp]].
    pose proof (trials_where_bound fgeb obs ps j i).
    pose proof (trials_where_bound fleb obs ps j i).
    repeat split; try assumption; try lia;
      match goal with
      | Hnum : numeric_at _ _ _ _ |- _ =>
          pose proof (inclusive_double_counting Hcmp Hnum); lia
      end.
  - intros. eapply count_step_equal_scores; eassumption.
Qed.

(* ================================================================== *)
(** * [_permutation] *)

Lemma bind_run {A B} (c : M A) (k : A -> M B) (s s1 : state) (a : A) :
  c s = (Ok a, s1) -> bind c k s = k a s1.
Proof. unfold bind. intros ->. reflexivity. Qed.

Lemma bind_fail {A B} (c : M A) (k : A -> M B) (s s1 : state) (e : exn) :
  c s = (Raise e, s1) -> bind c k s = (Raise e, s1).
Proof. unfold bind. intros ->. reflexivity. Qed.

Arguments bind_run {A B c} k {s s1 a} _.
Arguments bind_fail {A B c} k {s s1 e} _.

Lemma bind_ret_l {A B} (a : A) (k : A -> M B) (s : state) :
  bind (ret a) k s = k a s.
Proof. reflexivity. Qed.

Lemma insert_at_perm {A} (k : nat) (x : A) (l : list A) :
  Permutation (x :: l) (insert_at k x l).
Proof.
  revert k. induction l as [| y l IH]; intros [| k]; simpl;
    try apply Permutation_refl.
  apply perm_trans with (y :: x :: l); [apply perm_swap |].
  apply perm_skip, IH.
Qed.

Lemma same_but_tape_refl (s : state) : same_but_tape s s.
Proof. unfold same_but_tape. auto. Qed.

Lemma same_but_tape_trans (s1 s2 s3 : state) :
  same_but_tape s1 s2 -> same_but_tape s2 s3 -> same_but_tape s1 s3.
Proof.
  unfold same_but_tape. intros [A1 [B1 C1]] [A2 [B2 C2]].
  repeat split; congruence.
Qed.

Lemma draw_spec (s : state) :
  exists r s', draw s = (Ok r, s') /\ same_but_tape s s'.
Proof.
  unfold draw. destruct (tape s) as [| r t].
  - exists O, s. split; [reflexivity | apply same_but_tape_refl].
  - eexists r, _. split; [reflexivity |]. unfold same_but_tape. simpl. auto.
Qed.

(** A shuffled copy is a rearrangement, whatever the random source draws. *)
Lemma np_random_permutation_spec {A} (col : list A) :
  forall s, exists p s',
    np_random_permutation col s = (Ok p, s')
    /\ Permutation col p /\ same_but_tape s s'.
Proof.
  induction col as [| x col IH]; intros s; simpl.
  - exists [], s. split; [reflexivity |].
    split; [apply perm_nil | apply same_but_tape_refl].
  - destruct (IH s) as [p [s1 [Hrun [Hperm Hs1]]]].
    destruct (draw_spec s1) as [r [s2 [Hdraw Hs2]]].
    exists (insert_at (r mod S (length p)) x p), s2.
    split; [| split].
    + rewrite (bind_run _ Hrun), (bind_run _ Hdraw). reflexivity.
    + apply perm_trans with (x :: p); [apply perm_skip, Hperm | apply insert_at_perm].
    + eapply same_but_tape_trans; eassumption.
Qed.

Lemma permute_columns_spec (cols : list (label * list float)) :
  forall s, exists cols' s',
    mapM (fun c => v <- np_random_permutation (snd c) ;; ret (fst c, v)) cols s
    = (Ok cols', s')
    /\ Forall2 (fun c c' => fst c' = fst c /\ Permutation (snd c) (snd c'))
               cols cols'
    /\ same_but_tape s s'.
Proof.
  induction cols as [| c cols IH]; intros s; simpl.
  - exists [], s. split; [reflexivity |].
    split; [constructor | apply same_but_tape_refl].
  - destruct (np_random_permutation_spec (snd c) s) as [v [s1 [Hv [Hperm Hs1]]]].
    destruct (IH s1) as [cols' [s2 [Hrun [Hall Hs2]]]].
    exists ((fst c, v) :: cols'), s2. split; [| split].
    + rewrite (bind_run _ (bind_run _ Hv)). unfold ret at 1.
      rewrite (bind_run _ Hrun). reflexivity.
    + constructor; [simpl; auto | exact Hall].
    + eapply same_but_tape_trans; eassumption.
Qed.

Lemma alloc_run (df : DataFrame float) (s : state) :
  alloc df s = (Ok (length (store s)),
                mkState (store s ++ [df]) (tape s) (trace s) (safe_log s)).
Proof. reflexivity. Qed.

Lemma deref_run (l : loc) (d : DataFrame float) (s : state) :
  nth_error (store s) l = Some d -> deref l s = (Ok d, s).
Proof. unfold deref. intros ->. reflexivity. Qed.

Lemma nth_error_snoc_old {A} (l : list A) (x y : A) (i : nat) :
  nth_error l i = Some x -> nth_error (l ++ [y]) i = Some x.
Proof.
  intros H. rewrite nth_error_app1; [exact H |].
  apply nth_error_Some. congruence.
Qed.

Lemma nth_error_snoc_new {A} (l : list A) (y : A) :
  nth_error (l ++ [y]) (length l) = Some y.
Proof.
  rewrite nth_error_app2 by lia. rewrite Nat.sub_diag. reflexivity.
Qed.

(** [apply_permutation] allocates a frame whose columns rearrange those of
    the frame it reads; it writes to no existing frame. *)
Lemma apply_permutation_spec (l : loc) (d : DataFrame float) (s : state) :
  nth_error (store s) l = Some d ->
  exists d' s',
    apply_permutation l s = (Ok (length (store s)), s')
    /\ store s' = store s ++ [d']
    /\ column_permuted d d'
    /\ trace s' = trace s /\ safe_log s' = safe_log s.
Proof.
  intros Hl. unfold apply_permutation.
  destruct (permute_columns_spec (columns d) s) as [cols' [s1 [Hrun [Hall Hs1]]]].
  destruct Hs1 as [Hst [Htr Hlog]].
  exists (mkDF (index d) cols'), (mkState (store s1 ++ [mkDF (index d) cols'])
                                   (tape s1) (trace s1) (safe_log s1)).
  split; [| split; [| split; [| split]]].
  - rewrite (bind_run _ (deref_run _ _ Hl)), (bind_run _ Hrun).
    rewrite alloc_run, Hst. reflexivity.
  - simpl. now rewrite Hst.
  - split; [reflexivity | exact Hall].
  - exact Htr.
  - exact Hlog.
Qed.

Lemma column_permuted_shape (d d' : DataFrame float) :
  column_permuted d d' -> shape d' = shape d /\ col_names d' = col_names d.
Proof.
  intros [Hi Hc]. unfold shape, col_names. rewrite Hi.
  split.
  - f_equal. symmetry. eapply Forall2_length. exact Hc.
  - induction Hc as [| c c' l l' [Hf _] _ IH]; simpl; [reflexivity |].
    now rewrite Hf, IH.
Qed.

(** What [_permutation] does when it shuffles by node: a copy and a permuted
    frame are added to the store, nothing else changes but the random
    tape. *)
Lemma permutation_by_node_run (g : Graph) (data : loc) (d : DataFrame float)
  (s : state) :
  nth_error (store s) data = Some d ->
  fst (shape d) = length (nodes g) ->
  exists d' s',
    _permutation data g "node" s = (Ok (Some (S (length (store s)))), s')
    /\ store s' = (store s ++ [d]) ++ [d']
    /\ column_permuted d d'
    /\ trace s' = trace s /\ safe_log s' = safe_log s.
Proof.
  intros Hd Hrows.
  set (s1 := mkState (store s ++ [d]) (tape s) (trace s) (safe_log s)).
  assert (Hcopy : copy_deep data s = (Ok (length (store s)), s1)).
  { unfold copy_deep. rewrite (bind_run _ (deref_run _ _ Hd)). apply alloc_run. }
  assert (Hp : nth_error (store s1) (length (store s)) = Some d)
    by apply nth_error_snoc_new.
  destruct (apply_permutation_spec _ _ Hp) as [d' [s2 [Hrun [Hst [Hperm [Htr Hlog]]]]]].
  exists d', s2. split; [| split; [| split; [| split]]].
  - unfold _permutation. rewrite (bind_run _ Hcopy).
    change (String.eqb "node" "node") with true. cbv iota.
    rewrite (bind_run _ (deref_run _ _ Hp)).
    rewrite Hrows, Nat.eqb_refl. unfold assert.
    rewrite (bind_run _ (eq_refl : ret tt s1 = (Ok tt, s1))).
    rewrite (bind_run _ Hrun). cbn [store s1].
    rewrite length_app, Nat.add_comm. reflexivity.
  - exact Hst.
  - exact Hperm.
  - exact Htr.
  - exact Hlog.
Qed.

(** C5: for a node-space table whose row count equals the node count of the
    graph, [_permutation] with shuffle_by 'node' returns a table of the same
    shape in which every column holds the same multiset of values as the
    input column at its place, and the input table (like every other table)
    is left as it was. *)
Theorem permutation_by_node (g : Graph) (data : loc) (d : DataFrame float)
  (s : state) :
  nth_error (store s) data = Some d ->
  fst (shape d) = length (nodes g) ->
  exists r d' s',
    _permutation data g "node" s = (Ok (Some r), s')
    /\ nth_error (store s') r = Some d'
    /\ shape d' = shape d
    /\ column_permuted d d'
    /\ (forall l x, nth_error (store s) l = Some x ->
                    nth_error (store s') l = Some x)
    /\ nth_error (store s') data = Some d.
Proof.
  intros Hd Hrows.
  destruct (permutation_by_node_run g data s Hd Hrows)
    as [d' [s' [Hrun [Hst [Hperm _]]]]].
  assert (Hkeep : forall l x, nth_error (store s) l = Some x ->
                              nth_error (store s') l = Some x).
  { intros l x Hl. rewrite Hst. now apply nth_error_snoc_old, nth_error_snoc_old. }
  exists (S (length (store s))), d', s'.
  split; [exact Hrun |]. split; [| split; [| split; [exact Hperm | split]]].
  - rewrite Hst.
    replace (S (length (store s))) with (length (store s ++ [d]))
      by (rewrite length_app; simpl; lia).
    apply nth_error_snoc_new.
  - apply column_permuted_shape, Hperm.
  - exact Hkeep.
  - apply Hkeep, Hd.
Qed.

(* ================================================================== *)
(** * Shuffling by sample *)

Lemma for_range_invariant_st {S} (I : nat -> S -> state -> Prop) (body : S -> M S) :
  (forall k acc s acc' s',
      I k acc s -> body acc s = (Ok acc', s') -> I (Datatypes.S k) acc' s') ->
  forall n k acc s r s',
    I k acc s -> for_range n body acc s = (Ok r, s') -> I (k + n)%nat r s'.
Proof.
  intros Hstep. induction n as [| n IH]; intros k acc s r s' Hk Hrun; simpl in Hrun.
  - apply ret_ok in Hrun. destruct Hrun as [<- <-]. now rewrite Nat.add_0_r.
  - apply bind_ok in Hrun. destruct Hrun as [acc1 [s1 [Hb Hrest]]].
    rewrite <- Nat.add_succ_comm.
    eapply IH; [| exact Hrest]. eapply Hstep; eassumption.
Qed.

Lemma store_extends_refl (s : state) : store_extends s s.
Proof. intros l x H. exact H. Qed.

Lemma store_extends_trans (s1 s2 s3 : state) :
  store_extends s1 s2 -> store_extends s2 s3 -> store_extends s1 s3.
Proof. intros H1 H2 l x H. apply H2, H1, H. Qed.

Lemma emit_run (e : event) (s : state) :
  emit e s = (Ok tt, mkState (store s) (tape s) (trace s ++ [e]) (safe_log s)).
Proof. reflexivity. Qed.

(** What [_permutation] does when it shuffles by sample. *)
Lemma permutation_by_sample_run (g : Graph) (data : loc) (d : DataFrame float)
  (s : state) :
  nth_error (store s) data = Some d ->
  (fst (shape d) = rawX_rows g ->
   exists pd r s',
     _permutation data g "sample" s = (Ok (Some r), s')
     /\ nth_error (store s') r = Some (transform_sn g pd)
     /\ column_permuted d pd
     /\ trace s' = trace s ++ [EvTransformSN pd]
     /\ store_extends s s')
  /\ (fst (shape d) <> rawX_rows g ->
      exists s', _permutation data g "sample" s = (Raise AssertionError, s')).
Proof.
  intros Hd.
  set (s1 := mkState (store s ++ [d]) (tape s) (trace s) (safe_log s)).
  assert (Hcopy : copy_deep data s = (Ok (length (store s)), s1)).
  { unfold copy_deep. rewrite (bind_run _ (deref_run _ _ Hd)). apply alloc_run. }
  assert (Hp : nth_error (store s1) (length (store s)) = Some d)
    by apply nth_error_snoc_new.
  split.
  - intros Hrows.
    destruct (apply_permutation_spec _ _ Hp) as [pd [s2 [Hrun [Hst [Hperm [Htr _]]]]]].
    assert (Hpd : nth_error (store s2) (length (store s1)) = Some pd).
    { rewrite Hst. apply nth_error_snoc_new. }
    set (s3 := mkState (store s2) (tape s2) (trace s2 ++ [EvTransformSN pd])
                 (safe_log s2)).
    set (s4 := mkState (store s3 ++ [transform_sn g pd]) (tape s3) (trace s3)
                 (safe_log s3)).
    exists pd, (length (store s3)), s4.
    split; [| split; [| split; [| split]]].
    + unfold _permutation. rewrite (bind_run _ Hcopy).
      change (String.eqb "sample" "node") with false.
      change (String.eqb "sample" "sample") with true. cbv iota.
      rewrite (bind_run _ (deref_run _ _ Hp)).
      rewrite Hrows, Nat.eqb_refl. unfold assert.
      rewrite (bind_run _ (eq_refl : ret tt s1 = (Ok tt, s1))).
      rewrite (bind_run _ Hrun).
      rewrite (bind_run _ (deref_run _ _ Hpd)).
      unfold call_transform_sn.
      rewrite (bind_run _ (bind_run _ (emit_run (EvTransformSN pd) s2))).
      unfold ret at 1. fold s3.
      rewrite (bind_run _ (alloc_run (transform_sn g pd) s3)).
      reflexivity.
    + simpl. apply nth_error_snoc_new.
    + exact Hperm.
    + simpl. now rewrite Htr.
    + intros l x Hl. simpl. apply nth_error_snoc_old. rewrite Hst.
      apply nth_error_snoc_old. simpl. apply nth_error_snoc_old. exact Hl.
  - intros Hrows. exists s1.
    unfold _permutation. rewrite (bind_run _ Hcopy).
    change (String.eqb "sample" "node") with false.
    change (String.eqb "sample" "sample") with true. cbv iota.
    rewrite (bind_run _ (deref_run _ _ Hp)).
    apply Nat.eqb_neq in Hrows. rewrite Hrows. reflexivity.
Qed.

(** One successful trial that shuffles by sample: the raw frame is permuted,
    the permuted frame is transformed to node space, and the transformed
    frame is aggregated. *)
Lemma trial_by_sample (g : Graph) (data : loc) (d : DataFrame float)
  (nb : neighborhoods_t) (agg : string) (obs : DataFrame float)
  (counts counts' : ndarray * ndarray) (s s' : state) :
  nth_error (store s) data = Some d ->
  trial g data "sample" nb agg obs counts s = (Ok counts', s') ->
  exists pd,
    column_permuted d pd
    /\ trace s' = trace s ++ sample_trial_calls g pd
    /\ count_step (neighborhood_score g (transform_sn g pd) nb agg) obs counts
       = Ok counts'
    /\ store_extends s s'.
Proof.
  intros Hd Hrun.
  destruct (permutation_by_sample_run g data s Hd) as [Hok Hfail].
  destruct (Nat.eq_dec (fst (shape d)) (rawX_rows g)) as [Hrows | Hrows].
  - destruct (Hok Hrows) as [pd [r [s1 [Hp [Hr [Hperm [Htr Hext]]]]]]].
    unfold trial in Hrun. rewrite (bind_run _ Hp) in Hrun.
    rewrite (bind_run _ (bind_run _ (deref_run _ _ Hr))) in Hrun.
    cbv beta in Hrun. unfold call_neighborhood_score in Hrun.
    apply lift_ok in Hrun. destruct Hrun as [Hc <-].
    exists pd. split; [exact Hperm |]. split; [| split; [exact Hc |]].
    + simpl. rewrite Htr, <- app_assoc. reflexivity.
    + intros l x Hl. simpl. apply Hext, Hl.
  - destruct (Hfail Hrows) as [s1 Hp].
    unfold trial in Hrun. rewrite (bind_fail _ Hp) in Hrun. discriminate.
Qed.

Lemma sample_counts_snoc (g : Graph) (nb : neighborhoods_t) (agg : string)
  (obs : DataFrame float) (pds : list (DataFrame float)) (pd : DataFrame float) :
  forall c0,
    sample_counts g nb agg obs (pds ++ [pd]) c0
    = (c <?- sample_counts g nb agg obs pds c0 ;;
       count_step (neighborhood_score g (transform_sn g pd) nb agg) obs c).
Proof.
  induction pds as [| p pds IH]; intros c0; simpl.
  - destruct (count_step _ obs c0); reflexivity.
  - destruct (count_step _ obs c0) as [c |]; simpl; [apply IH | reflexivity].
Qed.

(** The loop that shuffles by sample: every trial permutes the same raw
    frame. *)
Lemma permutation_loop_by_sample (g : Graph) (data : loc) (d : DataFrame float)
  (n_iter : nat) (nb : neighborhoods_t) (agg : string) (obs : DataFrame float)
  (sh : nat * nat) (s s' : state) (counts : ndarray * ndarray) :
  nth_error (store s) data = Some d ->
  permutation_loop g data n_iter "sample" nb agg obs sh s = (Ok counts, s') ->
  exists pds,
    length pds = n_iter
    /\ Forall (column_permuted d) pds
    /\ trace s' = trace s ++ flat_map (sample_trial_calls g) pds
    /\ sample_counts g nb agg obs pds (np_zeros sh, np_zeros sh) = Ok counts
    /\ store_extends s s'.
Proof.
  intros Hd Hrun. unfold permutation_loop in Hrun.
  pose (I := fun (k : nat) (acc : ndarray * ndarray) (st : state) =>
               store_extends s st
               /\ exists pds,
                   length pds = k
                   /\ Forall (column_permuted d) pds
                   /\ trace st = trace s ++ flat_map (sample_trial_calls g) pds
                   /\ sample_counts g nb agg obs pds (np_zeros sh, np_zeros sh)
                      = Ok acc).
  assert (HI : I (0 + n_iter)%nat counts s').
  { eapply (for_range_invariant_st I); [| | exact Hrun].
    - intros k acc st acc' st' [Hext [pds [Hlen [Hall [Htr Hc]]]]] Hb.
      destruct (trial_by_sample g data nb agg obs acc st (Hext _ _ Hd) Hb)
        as [pd [Hperm [Htr' [Hstep Hext']]]].
      split; [eapply store_extends_trans; eassumption |].
      exists (pds ++ [pd]). split; [| split; [| split]].
      + rewrite length_app. simpl. lia.
      + apply Forall_app. split; [exact Hall | constructor; [exact Hperm | constructor]].
      + rewrite Htr', Htr, flat_map_app, <- app_assoc. simpl. reflexivity.
      + rewrite sample_counts_snoc, Hc. exact Hstep.
    - split; [apply store_extends_refl |].
      exists []. simpl. rewrite app_nil_r. repeat split; constructor. }
  destruct HI as [Hext [pds [Hlen [Hall [Htr Hc]]]]].
  exists pds. repeat split; assumption.
Qed.

(** C6: when shuffle_by is 'sample', the observed neighborhood scores of
    [_SAFE] are computed from the sample-to-node transform of the data, and
    every permutation trial permutes the raw sample-space data, applies the
    sample-to-node transform of the graph to the permuted frame, and only
    then aggregates over the neighborhoods. *)
Theorem SAFE_shuffle_by_sample (g : Graph) (data : loc) (d : DataFrame float)
  (n_iter : nat) (nr_threshold : float) (neighborhoods : option neighborhoods_t)
  (_mode agg_mode : string) (s s' : state) (r : safe_result) :
  nth_error (store s) data = Some d ->
  _SAFE g data n_iter nr_threshold neighborhoods "sample" _mode agg_mode s
  = (Ok r, s') ->
  exists pds counts enr dec,
    length pds = n_iter
    /\ Forall (column_permuted d) pds
    /\ trace s'
       = trace s ++ [EvTransformSN d] ++ neighborhood_calls nr_threshold neighborhoods
           ++ [EvNeighborhoodScore (transform_sn g d)]
           ++ flat_map (sample_trial_calls g) pds
    /\ sample_counts g (effective_neighborhoods g nr_threshold neighborhoods)
         agg_mode
         (neighborhood_score g (transform_sn g d)
            (effective_neighborhoods g nr_threshold neighborhoods) agg_mode)
         pds
         (np_zeros (shape (transform_sn g d)), np_zeros (shape (transform_sn g d)))
       = Ok counts
    /\ pd_DataFrame (fst counts) (nodes g) (col_names d) = Ok enr
    /\ pd_DataFrame (snd counts) (nodes g) (col_names d) = Ok dec
    /\ r = select_mode _mode (convertor enr n_iter) (convertor dec n_iter).
Proof.
  intros Hd Hrun. unfold _SAFE in Hrun.
  destruct (valid_mode _mode); cbn [negb] in Hrun; [| discriminate].
  change (String.eqb "sample" "sample") with true in Hrun. cbv iota in Hrun.
  set (sA := mkState (store s) (tape s) (trace s ++ [EvTransformSN d]) (safe_log s)).
  set (sB := mkState (store sA ++ [transform_sn g d]) (tape sA) (trace sA)
               (safe_log sA)).
  assert (Hnode : (d0 <- deref data ;; t <- call_transform_sn g d0 ;; alloc t) s
                  = (Ok (length (store s)), sB)).
  { rewrite (bind_run _ (deref_run _ _ Hd)). unfold call_transform_sn.
    rewrite (bind_run _ (bind_run _ (emit_run (EvTransformSN d) s))).
    reflexivity. }
  rewrite (bind_run _ Hnode) in Hrun.
  set (nb := effective_neighborhoods g nr_threshold neighborhoods) in *.
  set (sC := mkState (store sB) (tape sB)
               (trace sB ++ neighborhood_calls nr_threshold neighborhoods)
               (safe_log sB)).
  assert (Hnb : match neighborhoods with
                | Some n => ret n
                | None => call_get_neighborhoods g nr_threshold
                end sB = (Ok nb, sC)).
  { subst nb sC. destruct neighborhoods as [n |]; simpl.
    - unfold ret. rewrite app_nil_r. reflexivity.
    - reflexivity. }
  rewrite (bind_run _ Hnb) in Hrun.
  assert (HndC : nth_error (store sC) (length (store s)) = Some (transform_sn g d)).
  { simpl. apply nth_error_snoc_new. }
  rewrite (bind_run _ (deref_run _ _ HndC)) in Hrun.
  unfold call_neighborhood_score in Hrun.
  rewrite (bind_run _ (bind_run _ (emit_run _ sC))) in Hrun.
  unfold ret at 1 in Hrun.
  apply bind_ok in Hrun. destruct Hrun as [counts [sD [Hloop Hrun]]].
  assert (HdC : nth_error (store
                   (mkState (store sC) (tape sC)
                      (trace sC ++ [EvNeighborhoodScore (transform_sn g d)])
                      (safe_log sC))) data = Some d).
  { simpl. apply nth_error_snoc_old. exact Hd. }
  destruct (@permutation_loop_by_sample _ _ _ _ _ _ _ _ _ _ _ HdC Hloop)
    as [pds [Hlen [Hall [Htr [Hc Hext]]]]].
  rewrite (bind_run _ (deref_run _ _ (Hext _ _ HdC))) in Hrun.
  apply bind_ok in Hrun. destruct Hrun as [enr [sE [Henr Hrun]]].
  apply lift_ok in Henr. destruct Henr as [Henr <-].
  apply bind_ok in Hrun. destruct Hrun as [dec [sF [Hdec Hrun]]].
  apply lift_ok in Hdec. destruct Hdec as [Hdec <-].
  exists pds, counts, enr, dec.
  split; [exact Hlen |]. split; [exact Hall |].
  split; [| split; [exact Hc | split; [exact Henr | split; [exact Hdec |]]]].
  - assert (Hs' : s' = sD).
    { destruct (String.eqb _mode "both"); [apply ret_ok in Hrun; symmetry; tauto |].
      destruct (String.eqb _mode "enrich"); [apply ret_ok in Hrun; symmetry; tauto |].
      destruct (String.eqb _mode "decline"); apply ret_ok in Hrun; symmetry; tauto. }
    rewrite Hs', Htr. simpl. rewrite <- !app_assoc. reflexivity.
  - unfold select_mode.
    destruct (String.eqb _mode "both"); [apply ret_ok in Hrun; symmetry; tauto |].
    destruct (String.eqb _mode "enrich"); [apply ret_ok in Hrun; symmetry; tauto |].
    destruct (String.eqb _mode "decline"); apply ret_ok in Hrun; symmetry; tauto.
Qed.

(* ================================================================== *)
(** * The trace only grows *)

Create HintDb grows.

Lemma grows_ret {A} (a : A) : trace_grows (ret a).
Proof. intros s. exists []. simpl. now rewrite app_nil_r. Qed.

Lemma grows_raise {A} (e : exn) : trace_grows (@raise A e).
Proof. intros s. exists []. simpl. now rewrite app_nil_r. Qed.

Lemma grows_lift {A} (r : result A) : trace_grows (lift r).
Proof. intros s. exists []. simpl. now rewrite app_nil_r. Qed.

Lemma grows_bind {A B} (c : M A) (k : A -> M B) :
  trace_grows c -> (forall a, trace_grows (k a)) -> trace_grows (bind c k).
Proof.
  intros Hc Hk s. unfold bind.
  destruct (Hc s) as [r1 H1].
  destruct (c s) as [[a | e] s1]; simpl in *.
  - destruct (Hk a s1) as [r2 H2]. exists (r1 ++ r2).
    rewrite H2, H1, app_assoc. reflexivity.
  - exists r1. exact H1.
Qed.

Lemma grows_emit (e : event) : trace_grows (emit e).
Proof. intros s. exists [e]. reflexivity. Qed.

Lemma grows_alloc (d : DataFrame float) : trace_grows (alloc d).
Proof. intros s. exists []. simpl. now rewrite app_nil_r. Qed.

Lemma grows_deref (l : loc) : trace_grows (deref l).
Proof.
  intros s. exists []. unfold deref.
  destruct (nth_error (store s) l); simpl; now rewrite app_nil_r.
Qed.

Lemma grows_draw : trace_grows draw.
Proof.
  intros s. exists []. unfold draw.
  destruct (tape s); simpl; now rewrite app_nil_r.
Qed.

Lemma grows_assert (b : bool) : trace_grows (assert b).
Proof. destruct b; [apply grows_ret | apply grows_raise]. Qed.

Lemma grows_add_safe (p : safe_params) : trace_grows (_add_safe p).
Proof. intros s. exists []. simpl. now rewrite app_nil_r. Qed.

Lemma grows_if {A} (b : bool) (c1 c2 : M A) :
  trace_grows c1 -> trace_grows c2 -> trace_grows (if b then c1 else c2).
Proof. destruct b; auto. Qed.

#[export] Hint Resolve grows_ret grows_raise grows_lift grows_emit grows_alloc
  grows_deref grows_draw grows_assert grows_add_safe : grows.

(** Decomposes a computation along its binds and branches. *)
Ltac grows :=
  repeat first
    [ solve [auto with grows]
    | apply grows_ret
    | apply grows_if
    | match goal with
      | |- trace_grows (match ?x with _ => _ end) => destruct x
      | |- trace_grows (bind _ _) => apply grows_bind; [| intros ?]
      end ].

Lemma grows_mapM {A B} (f : A -> M B) (l : list A) :
  (forall x, trace_grows (f x)) -> trace_grows (mapM f l).
Proof.
  intros Hf. induction l as [| x l IH]; simpl; grows; auto.
Qed.

Lemma grows_for_range {S} (body : S -> M S) (n : nat) :
  (forall acc, trace_grows (body acc)) ->
  forall acc, trace_grows (for_range n body acc).
Proof.
  intros Hb. induction n as [| n IH]; intros acc; simpl; grows; auto.
Qed.

Lemma grows_np_random_permutation {A} (col : list A) :
  trace_grows (np_random_permutation col).
Proof.
  induction col as [| x col IH]; simpl; grows; auto.
Qed.

#[export] Hint Resolve grows_np_random_permutation : grows.

Lemma grows_permutation (data : loc) (g : Graph) (shuffle_by : string) :
  trace_grows (_permutation data g shuffle_by).
Proof.
  unfold _permutation, copy_deep, apply_permutation, call_transform_sn.
  grows; apply grows_mapM; intros c; grows.
Qed.

#[export] Hint Resolve grows_permutation : grows.

Lemma grows_trial (g : Graph) (data : loc) (shuffle_by : string)
  (nb : neighborhoods_t) (agg : string) (obs : DataFrame float)
  (counts : ndarray * ndarray) :
  trace_grows (trial g data shuffle_by nb agg obs counts).
Proof.
  unfold trial, call_neighborhood_score. grows.
Qed.

Lemma grows_permutation_loop (g : Graph) (data : loc) (n_iter : nat)
  (shuffle_by : string) (nb : neighborhoods_t) (agg : string)
  (obs : DataFrame float) (sh : nat * nat) :
  trace_grows (permutation_loop g data n_iter shuffle_by nb agg obs sh).
Proof.
  unfold permutation_loop. apply grows_for_range. intros acc. apply grows_trial.
Qed.

#[export] Hint Resolve grows_permutation_loop : grows.

Lemma grows_SAFE (g : Graph) (data : loc) (n_iter : nat) (nr_threshold : float)
  (neighborhoods : option neighborhoods_t) (shuffle_by _mode agg_mode : string) :
  trace_grows (_SAFE g data n_iter nr_threshold neighborhoods shuffle_by _mode
                 agg_mode).
Proof.
  unfold _SAFE, call_transform_sn, call_get_neighborhoods, call_neighborhood_score.
  grows.
Qed.

#[export] Hint Resolve grows_SAFE : grows.

(* ================================================================== *)
(** * [SAFE_batch]: what happens before [_SAFE] is entered *)

Lemma neighborhoods_step (g : Graph) (nr_threshold : float)
  (neighborhoods : option neighborhoods_t) (s : state) :
  match neighborhoods with
  | None => call_get_neighborhoods g nr_threshold
  | Some n => ret n
  end s
  = (Ok (effective_neighborhoods g nr_threshold neighborhoods),
     mkState (store s) (tape s)
       (trace s ++ neighborhood_calls nr_threshold neighborhoods) (safe_log s)).
Proof.
  destruct neighborhoods as [n |]; simpl.
  - unfold ret. rewrite app_nil_r. destruct s; reflexivity.
  - reflexivity.
Qed.

Lemma verification_step (u : Utils) (g : Graph) (metadata : DataFrame float)
  (shuffle_by : string) (s : state) :
  (if String.eqb shuffle_by "node"
   then call_verify_metadata u g metadata "node"
   else call_verify_metadata u g metadata "sample") s
  = (verify_metadata u g metadata (verification_axis shuffle_by),
     mkState (store s) (tape s)
       (trace s ++ [EvVerifyMetadata (verification_axis shuffle_by)])
       (safe_log s)).
Proof.
  unfold verification_axis.
  destruct (String.eqb shuffle_by "node"); reflexivity.
Qed.

(** The mode is checked first thing in [_SAFE]: nothing has happened when the
    error is raised. *)
Lemma SAFE_invalid_mode (g : Graph) (data : loc) (n_iter : nat)
  (nr_threshold : float) (neighborhoods : option neighborhoods_t)
  (shuffle_by _mode agg_mode : string) (s : state) :
  valid_mode _mode = false ->
  _SAFE g data n_iter nr_threshold neighborhoods shuffle_by _mode agg_mode s
  = (Raise SyntaxError, s).
Proof.
  intros H. unfold _SAFE. rewrite H. reflexivity.
Qed.

(** [SAFE_batch] up to its call of [_SAFE]. *)
Lemma SAFE_batch_entry (u : Utils) (g : Graph) (metadata : DataFrame float)
  (n_iter : nat) (nr_threshold : float) (neighborhoods : option neighborhoods_t)
  (shuffle_by _mode agg_mode : string) (s : state) :
  match verify_metadata u g metadata (verification_axis shuffle_by) with
  | Raise e =>
      SAFE_batch u g metadata n_iter nr_threshold neighborhoods shuffle_by
        _mode agg_mode s
      = (Raise e, state_after_verification s nr_threshold neighborhoods shuffle_by [])
  | Ok v =>
      SAFE_batch u g metadata n_iter nr_threshold neighborhoods shuffle_by
        _mode agg_mode s
      = (all_safe_scores <-
           _SAFE g (length (store s)) n_iter nr_threshold
             (Some (effective_neighborhoods g nr_threshold neighborhoods))
             shuffle_by _mode agg_mode ;;
         _ <- (if String.eqb _mode "both" then
                 match all_safe_scores with
                 | Both e d =>
                     _ <- _add_safe (mkParams shuffle_by agg_mode nr_threshold
                                       n_iter e "enrich") ;;
                     _add_safe (mkParams shuffle_by agg_mode nr_threshold
                                  n_iter d "decline")
                 | _ => raise TypeError
                 end
               else
                 match all_safe_scores with
                 | Single d => _add_safe (mkParams shuffle_by agg_mode
                                            nr_threshold n_iter d _mode)
                 | _ => raise TypeError
                 end) ;;
         ret all_safe_scores)
          (state_after_verification s nr_threshold neighborhoods shuffle_by [v])
  end.
Proof.
  unfold SAFE_batch, state_after_verification.
  rewrite (bind_run _ (neighborhoods_step g nr_threshold neighborhoods s)).
  pose proof (verification_step u g metadata shuffle_by
                (mkState (store s) (tape s)
                   (trace s ++ neighborhood_calls nr_threshold neighborhoods)
                   (safe_log s))) as Hv.
  cbn [store tape trace safe_log] in Hv. rewrite <- app_assoc in Hv.
  destruct (verify_metadata u g metadata (verification_axis shuffle_by)) as [v | e].
  - rewrite (bind_run _ Hv). rewrite (bind_run _ (alloc_run v _)).
    cbn [store tape trace safe_log]. reflexivity.
  - rewrite (bind_fail _ Hv). rewrite app_nil_r. reflexivity.
Qed.

(** C7 (as amended): for a mode that is not 'enrich', 'decline' or 'both',
    [_SAFE] raises the mode error on entry, before anything else happens; a
    computation invoked through [SAFE_batch] first looks the neighborhoods up
    (when none were supplied) and verifies the metadata, and then, when the
    verification succeeds, fails with the mode error before any scoring or
    permutation trial and without a record in the history of the graph; when
    the verification fails, its error is the one raised. *)
Theorem invalid_mode_error (u : Utils) (g : Graph) (metadata : DataFrame float)
  (n_iter : nat) (nr_threshold : float) (neighborhoods : option neighborhoods_t)
  (shuffle_by _mode agg_mode : string) (s : state) :
  valid_mode _mode = false ->
  (forall data,
      rejected_at_entry
        (_SAFE g data n_iter nr_threshold neighborhoods shuffle_by _mode agg_mode) s)
  /\ match verify_metadata u g metadata (verification_axis shuffle_by) with
     | Ok v =>
         SAFE_batch u g metadata n_iter nr_threshold neighborhoods shuffle_by
           _mode agg_mode s
         = (Raise SyntaxError,
            state_after_verification s nr_threshold neighborhoods shuffle_by [v])
     | Raise e =>
         SAFE_batch u g metadata n_iter nr_threshold neighborhoods shuffle_by
           _mode agg_mode s
         = (Raise e,
            state_after_verification s nr_threshold neighborhoods shuffle_by [])
     end.
Proof.
  intros Hmode. split.
  - intros data. apply SAFE_invalid_mode. exact Hmode.
  - pose proof (SAFE_batch_entry u g metadata n_iter nr_threshold neighborhoods
                  shuffle_by _mode agg_mode s) as H.
    destruct (verify_metadata u g metadata (verification_axis shuffle_by)) as [v | e];
      [| exact H].
    rewrite H. apply bind_fail. apply SAFE_invalid_mode. exact Hmode.
Qed.

Lemma trace_bind_prefix {A B} (c : M A) (k : A -> M B) (s : state)
  (t r1 : list event) :
  trace (snd (c s)) = t ++ r1 ->
  (forall a, trace_grows (k a)) ->
  exists r, trace (snd (bind c k s)) = t ++ r.
Proof.
  intros Hc Hk. unfold bind.
  destruct (c s) as [[a | e] s1]; simpl in *.
  - destruct (Hk a s1) as [r2 H2]. exists (r1 ++ r2).
    rewrite H2, Hc, app_assoc. reflexivity.
  - exists r1. exact Hc.
Qed.

(** With a valid mode and an axis other than 'sample', the first thing
    [_SAFE] does is to aggregate the data it was given. *)
Lemma SAFE_scores_first (g : Graph) (data : loc) (d : DataFrame float)
  (n_iter : nat) (nr_threshold : float) (nb : neighborhoods_t)
  (shuffle_by _mode agg_mode : string) (s : state) :
  valid_mode _mode = true ->
  String.eqb shuffle_by "sample" = false ->
  nth_error (store s) data = Some d ->
  exists rest,
    trace (snd (_SAFE g data n_iter nr_threshold (Some nb) shuffle_by _mode
                  agg_mode s))
    = (trace s ++ [EvNeighborhoodScore d]) ++ rest.
Proof.
  intros Hmode Hsample Hd. unfold _SAFE. rewrite Hmode, Hsample. cbn [negb].
  rewrite !bind_ret_l.
  rewrite (bind_run _ (deref_run _ _ Hd)).
  unfold call_neighborhood_score.
  rewrite (bind_run _ (bind_run _ (emit_run _ s))).
  unfold ret at 1.
  match goal with
  | |- context [snd (?c ?st)] =>
      assert (Hg : trace_grows c) by (cbv beta zeta; grows);
      destruct (Hg st) as [rest Hrest]
  end.
  exists rest. rewrite Hrest. reflexivity.
Qed.

(** C10: for a shuffle_by other than 'node' and 'sample', [_permutation]
    returns nothing (None) and raises no error, and [SAFE_batch] sends every
    shuffle_by other than 'node' through the verification for 'sample'; the
    unrecognized axis is not rejected at entry: once the verification has
    succeeded, the aggregation is called on the verified data. *)
Theorem unrecognized_shuffle_axis (shuffle_by : string) :
  String.eqb shuffle_by "node" = false ->
  String.eqb shuffle_by "sample" = false ->
  (forall g data d s,
      nth_error (store s) data = Some d ->
      _permutation data g shuffle_by s
      = (Ok None, mkState (store s ++ [d]) (tape s) (trace s) (safe_log s)))
  /\ (forall u g metadata n_iter nr_threshold neighborhoods _mode agg_mode s,
         exists rest,
           trace (snd (SAFE_batch u g metadata n_iter nr_threshold neighborhoods
                         shuffle_by _mode agg_mode s))
           = trace s ++ neighborhood_calls nr_threshold neighborhoods
               ++ [EvVerifyMetadata "sample"] ++ rest)
  /\ (forall u g metadata v n_iter nr_threshold neighborhoods _mode agg_mode s,
         valid_mode _mode = true ->
         verify_metadata u g metadata "sample" = Ok v ->
         exists rest,
           trace (snd (SAFE_batch u g metadata n_iter nr_threshold neighborhoods
                         shuffle_by _mode agg_mode s))
           = trace s ++ neighborhood_calls nr_threshold neighborhoods
               ++ [EvVerifyMetadata "sample"; EvNeighborhoodScore v] ++ rest).
Proof.
  intros Hnode Hsample.
  assert (Haxis : verification_axis shuffle_by = "sample"%string).
  { unfold verification_axis. rewrite Hnode. reflexivity. }
  split; [| split].
  - intros g data d s Hd. unfold _permutation, copy_deep.
    rewrite (bind_run _ (bind_run _ (deref_run _ _ Hd))).
    rewrite Hnode, Hsample. reflexivity.
  - intros u g metadata n_iter nr_threshold neighborhoods _mode agg_mode s.
    pose proof (SAFE_batch_entry u g metadata n_iter nr_threshold neighborhoods
                  shuffle_by _mode agg_mode s) as H.
    rewrite Haxis in H.
    destruct (verify_metadata u g metadata "sample") as [v | e]; rewrite H.
    + match goal with
      | |- context [snd (?c ?st)] =>
          assert (Hg : trace_grows c) by (grows; auto with grows);
          destruct (Hg st) as [rest Hrest]
      end.
      exists rest. rewrite Hrest. unfold state_after_verification.
      cbn [trace]. rewrite Haxis, <- !app_assoc. reflexivity.
    + exists []. unfold state_after_verification. cbn [snd trace].
      rewrite Haxis. reflexivity.
  - intros u g metadata v n_iter nr_threshold neighborhoods _mode agg_mode s
      Hmode Hv.
    pose proof (SAFE_batch_entry u g metadata n_iter nr_threshold neighborhoods
                  shuffle_by _mode agg_mode s) as H.
    rewrite Haxis, Hv in H. rewrite H. clear H.
    set (s1 := state_after_verification s nr_threshold neighborhoods shuffle_by [v]).
    assert (Hd : nth_error (store s1) (length (store s)) = Some v).
    { subst s1. unfold state_after_verification. cbn [store].
      apply nth_error_snoc_new. }
    destruct (@SAFE_scores_first g (length (store s)) v n_iter nr_threshold
                (effective_neighborhoods g nr_threshold neighborhoods)
                shuffle_by _mode agg_mode s1 Hmode Hsample Hd) as [r1 Hr1].
    match goal with
    | |- context [snd (bind ?c ?k ?st)] =>
        destruct (@trace_bind_prefix _ _ c k st _ _ Hr1) as [rest Hrest];
        [intros a; grows |]
    end.
    exists rest. rewrite Hrest. subst s1. unfold state_after_verification.
    cbn [trace]. rewrite Haxis, <- !app_assoc. reflexivity.
Qed.

(* ================================================================== *)
(** * Shuffling by node: the run completes *)

Lemma label_eqb_refl (a : label) : label_eqb a a = true.
Proof.
  destruct a; simpl; [apply Z.eqb_refl | apply String.eqb_refl].
Qed.

Lemma labels_eqb_refl (l : list label) : labels_eqb l l = true.
Proof.
  induction l as [| a l IH]; simpl; [reflexivity |].
  now rewrite label_eqb_refl, IH.
Qed.

Lemma col_names_length {A} (df : DataFrame A) :
  length (col_names df) = length (columns df).
Proof. apply length_map. Qed.

Lemma df_compare_returns (op : float -> float -> bool) (a b : DataFrame float) :
  index a = index b -> col_names a = col_names b ->
  exists m, df_compare op a b = Ok m /\ shape m = shape a.
Proof.
  intros Hi Hc. unfold df_compare.
  rewrite Hi, Hc, !labels_eqb_refl. cbn [andb].
  eexists. split; [reflexivity |].
  unfold shape. cbn [index columns]. rewrite Hi. f_equal.
  rewrite length_map, length_combine, <- !col_names_length, Hc.
  apply Nat.min_id.
Qed.

Lemma shape_eqb_refl (sh : nat * nat) : shape_eqb sh sh = true.
Proof. unfold shape_eqb. now rewrite !Nat.eqb_refl. Qed.

Lemma mask_incr_returns (arr : ndarray) (mask : DataFrame bool) :
  nd_shape arr = shape mask ->
  exists arr', mask_incr arr mask = Ok arr' /\ nd_shape arr' = nd_shape arr.
Proof.
  intros H. unfold mask_incr. rewrite H, shape_eqb_refl.
  eexists. split; reflexivity.
Qed.

Lemma count_step_returns (p obs : DataFrame float) (counts : ndarray * ndarray) :
  index p = index obs -> col_names p = col_names obs ->
  nd_shape (fst counts) = shape p -> nd_shape (snd counts) = shape p ->
  exists counts',
    count_step p obs counts = Ok counts'
    /\ nd_shape (fst counts') = shape p /\ nd_shape (snd counts') = shape p.
Proof.
  intros Hi Hc He Hd. unfold count_step.
  destruct (df_compare_returns fgeb p obs Hi Hc) as [ge [Hge Hsge]].
  destruct (df_compare_returns fleb p obs Hi Hc) as [le [Hle Hsle]].
  rewrite Hge. cbn [rbind].
  destruct (@mask_incr_returns (fst counts) ge) as [enr [Henr Hse]];
    [congruence |].
  rewrite Henr. cbn [rbind]. rewrite Hle. cbn [rbind].
  destruct (@mask_incr_returns (snd counts) le) as [dec [Hdec Hsd]];
    [congruence |].
  rewrite Hdec. cbn [rbind].
  exists (enr, dec). cbn [fst snd]. repeat split; congruence.
Qed.

Lemma for_range_returns {S} (J : S -> state -> Prop) (body : S -> M S) :
  (forall acc s, J acc s ->
                 exists acc' s', body acc s = (Ok acc', s') /\ J acc' s') ->
  forall n acc s,
    J acc s -> exists r s', for_range n body acc s = (Ok r, s') /\ J r s'.
Proof.
  intros Hstep. induction n as [| n IH]; intros acc s HJ; simpl.
  - exists acc, s. split; [reflexivity | exact HJ].
  - destruct (Hstep acc s HJ) as [acc1 [s1 [Hb HJ1]]].
    destruct (IH acc1 s1 HJ1) as [r [s' [Hr HJr]]].
    exists r, s'. split; [| exact HJr].
    rewrite (bind_run _ Hb). exact Hr.
Qed.

(** One trial by node completes on a table that has one row per node, when
    the aggregation keeps the labels. *)
Lemma trial_by_node_returns (g : Graph) (data : loc) (d : DataFrame float)
  (nb : neighborhoods_t) (agg : string) (obs : DataFrame float)
  (counts : ndarray * ndarray) (s : state) :
  keeps_labels g ->
  nth_error (store s) data = Some d ->
  fst (shape d) = length (nodes g) ->
  index obs = index d -> col_names obs = col_names d ->
  nd_shape (fst counts) = shape d -> nd_shape (snd counts) = shape d ->
  exists counts' s',
    trial g data "node" nb agg obs counts s = (Ok counts', s')
    /\ store_extends s s'
    /\ nd_shape (fst counts') = shape d /\ nd_shape (snd counts') = shape d.
Proof.
  intros Hkeep Hd Hrows Hoi Hoc He Hdc.
  destruct (permutation_by_node_run g data s Hd Hrows)
    as [pd [s1 [Hrun [Hst [Hperm _]]]]].
  destruct (column_permuted_shape Hperm) as [Hshape Hnames].
  destruct Hperm as [Hidx _].
  assert (Hpd : nth_error (store s1) (S (length (store s))) = Some pd).
  { rewrite Hst.
    replace (S (length (store s))) with (length (store s ++ [d]))
      by (rewrite length_app; simpl; lia).
    apply nth_error_snoc_new. }
  destruct (Hkeep pd nb agg) as [Hki Hkc].
  set (p := neighborhood_score g pd nb agg) in *.
  assert (Hps : shape p = shape d).
  { unfold shape. rewrite Hki, Hidx. f_equal.
    rewrite <- !col_names_length, Hkc, Hnames. reflexivity. }
  destruct (@count_step_returns p obs counts) as [counts' [Hc [Hs1 Hs2]]];
    try congruence.
  exists counts'. eexists. split; [| split; [| split]].
  - unfold trial. rewrite (bind_run _ Hrun). cbv beta iota.
    rewrite (bind_run _ (bind_run _ (deref_run _ _ Hpd))).
    unfold call_neighborhood_score.
    fold p. rewrite Hc. reflexivity.
  - intros l x Hl. cbn [store]. rewrite Hst.
    now apply nth_error_snoc_old, nth_error_snoc_old.
  - congruence.
  - congruence.
Qed.

(** The loop by node runs all its trials. *)
Lemma permutation_loop_by_node_returns (g : Graph) (data : loc)
  (d : DataFrame float) (n_iter : nat) (nb : neighborhoods_t) (agg : string)
  (obs : DataFrame float) (s : state) :
  keeps_labels g ->
  nth_error (store s) data = Some d ->
  fst (shape d) = length (nodes g) ->
  index obs = index d -> col_names obs = col_names d ->
  exists counts s',
    permutation_loop g data n_iter "node" nb agg obs (shape d) s
    = (Ok counts, s')
    /\ store_extends s s'
    /\ nd_shape (fst counts) = shape d /\ nd_shape (snd counts) = shape d.
Proof.
  intros Hkeep Hd Hrows Hoi Hoc. unfold permutation_loop.
  pose (J := fun (c : ndarray * ndarray) (st : state) =>
               store_extends s st
               /\ nd_shape (fst c) = shape d /\ nd_shape (snd c) = shape d).
  destruct (@for_range_returns _ J
              (trial g data "node" nb agg obs)) with
    (n := n_iter) (acc := (np_zeros (shape d), np_zeros (shape d))) (s := s)
    as [r [s' [Hr [Hext [H1 H2]]]]].
  - intros acc st [Hext [H1 H2]].
    destruct (@trial_by_node_returns g data d nb agg obs acc st Hkeep
                (Hext _ _ Hd) Hrows Hoi Hoc H1 H2)
      as [acc' [st' [Hrun [Hext' [H1' H2']]]]].
    exists acc', st'. split; [exact Hrun |].
    split; [eapply store_extends_trans; eassumption | auto].
  - split; [apply store_extends_refl | auto].
  - exists r, s'. auto.
Qed.

(** [_SAFE] by node returns its scores for every valid mode, every number of
    trials and every table that has one row per node, when the aggregation
    keeps the labels. *)
Lemma SAFE_by_node_returns (g : Graph) (data : loc) (d : DataFrame float)
  (n_iter : nat) (nr_threshold : float) (neighborhoods : option neighborhoods_t)
  (_mode agg_mode : string) (s : state) :
  keeps_labels g ->
  valid_mode _mode = true ->
  nth_error (store s) data = Some d ->
  fst (shape d) = length (nodes g) ->
  exists r s',
    _SAFE g data n_iter nr_threshold neighborhoods "node" _mode agg_mode s
    = (Ok r, s').
Proof.
  intros Hkeep Hmode Hd Hrows. unfold _SAFE.
  rewrite Hmode. cbn [negb].
  change (String.eqb "node" "sample") with false. cbv iota.
  rewrite bind_ret_l.
  rewrite (bind_run _ (neighborhoods_step g nr_threshold neighborhoods s)).
  set (nb := effective_neighborhoods g nr_threshold neighborhoods).
  set (s1 := mkState (store s) (tape s)
               (trace s ++ neighborhood_calls nr_threshold neighborhoods)
               (safe_log s)).
  assert (Hd1 : nth_error (store s1) data = Some d) by exact Hd.
  rewrite (bind_run _ (deref_run _ _ Hd1)).
  unfold call_neighborhood_score.
  rewrite (bind_run _ (bind_run _ (emit_run _ s1))).
  set (s2 := mkState (store s1) (tape s1)
               (trace s1 ++ [EvNeighborhoodScore d]) (safe_log s1)).
  assert (Hd2 : nth_error (store s2) data = Some d) by exact Hd.
  destruct (Hkeep d nb agg_mode) as [Hoi Hoc].
  destruct (@permutation_loop_by_node_returns g data d n_iter nb agg_mode
              (neighborhood_score g d nb agg_mode) s2 Hkeep Hd2 Hrows Hoi Hoc)
    as [counts [s3 [Hloop [Hext [H1 H2]]]]].
  unfold ret at 1. rewrite (bind_run _ Hloop).
  rewrite (bind_run _ (deref_run _ _ (Hext _ _ Hd2))).
  assert (Hsh : shape d = (length (nodes g), length (col_names d))).
  { unfold shape in *. cbn [fst] in Hrows. rewrite Hrows, col_names_length.
    reflexivity. }
  unfold pd_DataFrame. rewrite H1, H2, <- Hsh, shape_eqb_refl.
  unfold lift at 1. rewrite (bind_run _ eq_refl).
  unfold lift at 1. rewrite (bind_run _ eq_refl).
  destruct (String.eqb _mode "both"); [eexists; eexists; reflexivity |].
  destruct (String.eqb _mode "enrich"); [eexists; eexists; reflexivity |].
  destruct (String.eqb _mode "decline"); eexists; eexists; reflexivity.
Qed.

(* ================================================================== *)
(** * What a successful run of [_SAFE] is made of *)

Lemma select_mode_run (_mode : string) (e d : DataFrame float) (s s' : state)
  (r : safe_result) :
  (if String.eqb _mode "both" then ret (Both e d)
   else if String.eqb _mode "enrich" then ret (Single e)
   else if String.eqb _mode "decline" then ret (Single d)
   else ret NoResult) s = (Ok r, s') ->
  r = select_mode _mode e d /\ s' = s.
Proof.
  unfold select_mode.
  destruct (String.eqb _mode "both"); [intros H; apply ret_ok in H; split; symmetry; tauto |].
  destruct (String.eqb _mode "enrich"); [intros H; apply ret_ok in H; split; symmetry; tauto |].
  destruct (String.eqb _mode "decline"); intros H; apply ret_ok in H; split; symmetry; tauto.
Qed.

Lemma SAFE_ok_inv (g : Graph) (data : loc) (n_iter : nat) (nr_threshold : float)
  (neighborhoods : option neighborhoods_t) (shuffle_by _mode agg_mode : string)
  (s s' : state) (r : safe_result) :
  _SAFE g data n_iter nr_threshold neighborhoods shuffle_by _mode agg_mode s
  = (Ok r, s') ->
  exists (nd : DataFrame float) nb obs sL counts (d : DataFrame float) enr dec,
    permutation_loop g data n_iter shuffle_by nb agg_mode obs (shape nd) sL
    = (Ok counts, s')
    /\ pd_DataFrame (fst counts) (nodes g) (col_names d) = Ok enr
    /\ pd_DataFrame (snd counts) (nodes g) (col_names d) = Ok dec
    /\ r = select_mode _mode (convertor enr n_iter) (convertor dec n_iter)
    /\ valid_mode _mode = true.
Proof.
  unfold _SAFE. intros H.
  destruct (valid_mode _mode) eqn:Hmode; cbn [negb] in H; [| discriminate].
  apply bind_ok in H. destruct H as [node_data [s1 [_ H]]].
  apply bind_ok in H. destruct H as [nb [s2 [_ H]]].
  apply bind_ok in H. destruct H as [nd [s3 [_ H]]].
  apply bind_ok in H. destruct H as [obs [s4 [Hobs H]]].
  apply bind_ok in H. destruct H as [counts [s5 [Hloop H]]].
  apply bind_ok in H. destruct H as [d [s6 [Hd H]]].
  apply deref_ok in Hd. destruct Hd as [_ <-].
  apply bind_ok in H. destruct H as [enr [s7 [Henr H]]].
  apply lift_ok in Henr. destruct Henr as [Henr <-].
  apply bind_ok in H. destruct H as [dec [s8 [Hdec H]]].
  apply lift_ok in Hdec. destruct Hdec as [Hdec <-].
  apply select_mode_run in H. destruct H as [-> ->].
  unfold call_neighborhood_score in Hobs.
  apply bind_ok in Hobs. destruct Hobs as [u [s9 [_ Hobs]]].
  apply ret_ok in Hobs. destruct Hobs as [<- <-].
  exists nd, nb, (neighborhood_score g nd nb agg_mode), s9, counts, d, enr, dec.
  repeat split; assumption.
Qed.

(* ================================================================== *)
(** * No trial at all: n_iter = 0 *)

Lemma min_p_value_zero : min_p_value 0 = Fin 1.
Proof.
  unfold min_p_value. f_equal. simpl. field.
Qed.

Lemma code_raw_p_zero : code_raw_p 0 (of_nat 0) = Fin 1.
Proof.
  unfold code_raw_p, of_nat. simpl INR.
  unfold fdiv. rewrite Reqb_refl. simpl. apply min_p_value_zero.
Qed.

Lemma code_score_zero : code_score 0 (Fin 1) = NaN.
Proof.
  unfold code_score. rewrite min_p_value_zero. unfold flog10.
  replace (Rltb 0 1) with true by (symmetry; apply Rltb_true; lra).
  rewrite ln_1. unfold fdiv.
  replace (0 / ln 10)%R with 0%R by (unfold Rdiv; now rewrite Rmult_0_l).
  rewrite Reqb_refl. reflexivity.
Qed.

(** Without a trial every count is zero, every p-value is clipped to one and
    stays one under the correction, and the score is 0/0. *)
Lemma convertor_zero_iterations (counts : DataFrame float) :
  Forall (fun c => Forall (fun x => x = of_nat 0) (snd c)) (columns counts) ->
  all_nan (convertor counts 0).
Proof.
  intros Hz. unfold all_nan. rewrite convertor_columns.
  apply Forall_map. eapply Forall_impl; [| exact Hz].
  intros [c vs] Hvs. simpl in *.
  assert (Hone : Forall (in_range 1 1)
                   (multipletests_fdr_bh (map (code_raw_p 0) vs))).
  { apply multipletests_range; [lra |].
    apply Forall_map. eapply Forall_impl; [| exact Hvs].
    intros x ->. rewrite code_raw_p_zero. exists 1%R. split; [reflexivity | lra]. }
  apply Forall_map. eapply Forall_impl; [| exact Hone].
  intros x [q [-> Hq]]. replace q with 1%R by lra. apply code_score_zero.
Qed.

Lemma pd_DataFrame_zeros (sh : nat * nat) (idx cols : list label)
  (df : DataFrame float) :
  pd_DataFrame (np_zeros sh) idx cols = Ok df ->
  Forall (fun c => Forall (fun x => x = of_nat 0) (snd c)) (columns df).
Proof.
  unfold pd_DataFrame.
  destruct (shape_eqb (nd_shape (np_zeros sh)) (length idx, length cols));
    intros H; [| discriminate].
  injection H as <-. cbn [columns nd_data np_zeros].
  apply Forall_forall. intros [c vs] Hin.
  apply in_combine_r in Hin. apply in_map_iff in Hin.
  destruct Hin as [col [<- Hcol]]. apply repeat_spec in Hcol. subst col.
  simpl. apply Forall_map. apply Forall_forall.
  intros x Hx. apply repeat_spec in Hx. now subst.
Qed.

Lemma select_mode_all_nan (_mode : string) (e d : DataFrame float) :
  all_nan e -> all_nan d -> all_nan_result (select_mode _mode e d).
Proof.
  intros He Hd. unfold select_mode.
  destruct (String.eqb _mode "both"); [split; assumption |].
  destruct (String.eqb _mode "enrich"); [exact He |].
  destruct (String.eqb _mode "decline"); [exact Hd | exact I].
Qed.

(** Without a trial, and on an axis other than 'sample', [_SAFE] returns for
    every table that has one row per node. *)
Lemma SAFE_zero_iterations_returns (g : Graph) (data : loc) (d : DataFrame float)
  (nr_threshold : float) (neighborhoods : option neighborhoods_t)
  (shuffle_by _mode agg_mode : string) (s : state) :
  valid_mode _mode = true ->
  String.eqb shuffle_by "sample" = false ->
  nth_error (store s) data = Some d ->
  fst (shape d) = length (nodes g) ->
  exists r s',
    _SAFE g data 0 nr_threshold neighborhoods shuffle_by _mode agg_mode s
    = (Ok r, s').
Proof.
  intros Hmode Hsample Hd Hrows. unfold _SAFE.
  rewrite Hmode, Hsample. cbn [negb]. rewrite bind_ret_l.
  rewrite (bind_run _ (neighborhoods_step g nr_threshold neighborhoods s)).
  set (s1 := mkState (store s) (tape s)
               (trace s ++ neighborhood_calls nr_threshold neighborhoods)
               (safe_log s)).
  assert (Hd1 : nth_error (store s1) data = Some d) by exact Hd.
  rewrite (bind_run _ (deref_run _ _ Hd1)).
  unfold call_neighborhood_score.
  rewrite (bind_run _ (bind_run _ (emit_run _ s1))).
  unfold permutation_loop. cbn [for_range]. rewrite !bind_ret_l.
  set (s2 := mkState (store s1) (tape s1)
               (trace s1 ++ [EvNeighborhoodScore d]) (safe_log s1)).
  assert (Hd2 : nth_error (store s2) data = Some d) by exact Hd.
  rewrite (bind_run _ (deref_run _ _ Hd2)).
  assert (Hframe : exists z, pd_DataFrame (np_zeros (shape d)) (nodes g)
                                (col_names d) = Ok z).
  { unfold pd_DataFrame, shape_eqb, np_zeros, col_names. cbn [nd_shape fst snd].
    unfold shape in *. cbn [fst snd] in *.
    rewrite Hrows, length_map, !Nat.eqb_refl. eexists. reflexivity. }
  destruct Hframe as [z Hz]. cbn [fst snd].
  rewrite Hz.
  rewrite !(bind_run _ (eq_refl : lift (Ok z) s2 = (Ok z, s2))).
  destruct (String.eqb _mode "both"); [eexists; eexists; reflexivity |].
  destruct (String.eqb _mode "enrich"); [eexists; eexists; reflexivity |].
  destruct (String.eqb _mode "decline"); eexists; eexists; reflexivity.
Qed.

(** C9 (as amended): on the boundary n_iter = 0 the pipeline has min_p = 1.0,
    and every cell of the scores it returns is NaN, the quotient
    log10(1)/log10(1) of two zeros: the source has no guard for this
    boundary. *)
Theorem zero_iterations_scores (g : Graph) (data : loc) (nr_threshold : float)
  (neighborhoods : option neighborhoods_t) (shuffle_by _mode agg_mode : string)
  (s s' : state) (r : safe_result) :
  _SAFE g data 0 nr_threshold neighborhoods shuffle_by _mode agg_mode s
  = (Ok r, s') ->
  min_p_value 0 = Fin 1 /\ all_nan_result r.
Proof.
  intros H. split; [apply min_p_value_zero |].
  apply SAFE_ok_inv in H.
  destruct H as [nd [nb [obs [sL [counts [d [enr [dec [Hloop [He [Hd [-> _]]]]]]]]]]]].
  unfold permutation_loop in Hloop. simpl in Hloop.
  apply ret_ok in Hloop. destruct Hloop as [<- _]. cbn [fst snd] in He, Hd.
  apply select_mode_all_nan; apply convertor_zero_iterations;
    eapply pd_DataFrame_zeros; eassumption.
Qed.

(* ================================================================== *)
(** * The scores of the whole pipeline *)

Lemma ex_graph_keeps_labels : keeps_labels ex_graph.
Proof.
  intros d nb agg. split; [reflexivity |].
  unfold col_names. cbn [ex_graph neighborhood_score neighborhood_sum columns].
  rewrite map_map. reflexivity.
Qed.

(** On a count matrix every score is a number between 0 and 1. *)
Lemma convertor_unit_scores (counts : DataFrame float) (n_iter : nat) :
  (1 <= n_iter)%nat -> count_matrix n_iter counts ->
  unit_scores (convertor counts n_iter).
Proof.
  intros Hn Hc. unfold unit_scores. rewrite convertor_columns.
  apply Forall_map. unfold count_matrix in Hc.
  eapply Forall_impl; [| exact Hc]. intros [c vs] Hvs. cbn [snd] in *.
  apply Forall_map.
  eapply Forall_impl; [| apply (count_column_range Hn Hvs)].
  intros p [q [-> Hq]].
  destruct (code_score_range Hn Hq) as [s [Hs [Hb _]]].
  exists s. split; [exact Hs | exact Hb].
Qed.

Lemma in_columns_cell {A} (m : list (list A)) (col : list A) (x : A) :
  In col m -> In x col -> exists j i, cell m j i = Some x.
Proof.
  intros Hc Hx.
  destruct (In_nth_error _ _ Hc) as [j Hj].
  destruct (In_nth_error _ _ Hx) as [i Hi].
  exists j, i. unfold cell. now rewrite Hj.
Qed.

(** The frame made of a counter of the loop is a count matrix. *)
Lemma counter_frame_is_count_matrix (g : Graph) (nb : neighborhoods_t)
  (agg : string) (obs : DataFrame float) (n_iter : nat)
  (counts : ndarray * ndarray) (idx cols : list label) (e d : DataFrame float) :
  counters_after g nb agg obs n_iter counts ->
  pd_DataFrame (fst counts) idx cols = Ok e ->
  pd_DataFrame (snd counts) idx cols = Ok d ->
  count_matrix n_iter e /\ count_matrix n_iter d.
Proof.
  intros [ps [Hlen [_ Hcells]]] He Hd.
  assert (Hbound : forall (pick : ndarray * ndarray -> ndarray) df,
             (pick = fst \/ pick = snd) ->
             pd_DataFrame (pick counts) idx cols = Ok df ->
             count_matrix n_iter df).
  { intros pick df Hpick Hdf. unfold pd_DataFrame in Hdf.
    destruct (shape_eqb _ _); [| discriminate]. injection Hdf as <-.
    unfold count_matrix. cbn [columns]. apply Forall_forall.
    intros [c vs] Hin. cbn [snd].
    apply in_combine_r in Hin. apply in_map_iff in Hin.
    destruct Hin as [col [<- Hcol]].
    apply Forall_map, Forall_forall. intros a Ha.
    exists a. split; [| reflexivity].
    destruct (in_columns_cell _ _ _ Hcol Ha) as [j [i Hji]].
    specialize (Hcells j i).
    pose proof (trials_where_bound fgeb obs ps j i).
    pose proof (trials_where_bound fleb obs ps j i).
    destruct Hpick as [-> | ->]; rewrite Hji in Hcells.
    - destruct (cell (nd_data (snd counts)) j i); [| contradiction].
      destruct Hcells as [-> _]. lia.
    - destruct (cell (nd_data (fst counts)) j i); [| contradiction].
      destruct Hcells as [_ [-> _]]. lia. }
  split; [apply (Hbound fst); auto | apply (Hbound snd); auto].
Qed.

(** With at least one trial, every score [_SAFE] returns is a number between
    0 and 1: the counters of the loop meet the condition under which
    [convertor] stays in range. *)
Lemma SAFE_unit_scores (g : Graph) (data : loc) (n_iter : nat)
  (nr_threshold : float) (neighborhoods : option neighborhoods_t)
  (shuffle_by _mode agg_mode : string) (s s' : state) (r : safe_result) :
  (1 <= n_iter)%nat ->
  _SAFE g data n_iter nr_threshold neighborhoods shuffle_by _mode agg_mode s
  = (Ok r, s') ->
  unit_result r.
Proof.
  intros Hn H. apply SAFE_ok_inv in H.
  destruct H as [nd [nb [obs [sL [counts [d [enr [dec [Hloop [He [Hd [-> _]]]]]]]]]]]].
  apply permutation_loop_counters in Hloop.
  destruct (counter_frame_is_count_matrix _ _ Hloop He Hd) as [Hce Hcd].
  pose proof (convertor_unit_scores Hn Hce) as Hue.
  pose proof (convertor_unit_scores Hn Hcd) as Hud.
  unfold select_mode.
  destruct (String.eqb _mode "both"); [split; assumption |].
  destruct (String.eqb _mode "enrich"); [exact Hue |].
  destruct (String.eqb _mode "decline"); [exact Hud | exact I].
Qed.

(* ================================================================== *)
(** * [get_significant_nodes] *)

Lemma filter_all {A} (f : A -> bool) (l : list A) :
  (forall x, f x = true) -> filter f l = l.
Proof.
  intros H. induction l as [| x l IH]; simpl; [reflexivity |].
  now rewrite H, IH.
Qed.

(** The comprehension of lines 201-203 iterates over the inner dict, that is
    over its keys, the node labels; none of them is null, so the filter keeps
    them all, whatever the threshold has left of the scores. *)
Lemma centroids_are_all_rows (safe_scores : DataFrame float) (SAFE_pvalue : float) :
  well_formed safe_scores ->
  significant_centroides_of
    (to_dict (df_where safe_scores (df_ge safe_scores SAFE_pvalue) NaN))
  = map (fun c => (fst c, index safe_scores)) (columns safe_scores).
Proof.
  intros Hwf. unfold significant_centroides_of, to_dict, df_where, df_ge, df_map,
    df_apply. cbn [columns index].
  rewrite <- (map_id (columns safe_scores)) at 1.
  rewrite combine_map_same, !map_map.
  apply map_ext_in. intros [c vs] Hin. cbn [fst snd]. f_equal.
  unfold well_formed in Hwf. rewrite Forall_forall in Hwf.
  specialize (Hwf _ Hin). cbn [snd] in Hwf.
  rewrite filter_all by reflexivity.
  unfold dict_iter. apply map_fst_combine.
  rewrite length_map, length_combine, length_map, Nat.min_id. symmetry. exact Hwf.
Qed.

(** C1 at a failing input: four nodes, one feature whose score reaches the
    threshold 1/2 at node A only.  The source returns all four nodes as
    significant centroids and the union of all four neighborhoods as
    significant nodes, where the nodes whose score is at least the threshold
    are A alone and the union of their neighborhoods is A, B. *)
Theorem significant_centroids_failing_input :
  get_significant_nodes ex_utils ex_graph ex_scores (Some (Fin (1 / 2)))
    (Fin (1 / 2)) (Fin (1 / 20)) None true empty_state
  = (Ok (WithCentroids [(LStr "f", ex_nodes)] [(LStr "f", ex_nodes)]),
     mkState [] [] [EvGetNeighborhoods (Fin (1 / 2))] [])
  /\ spec_centroids (Fin (1 / 2)) ex_scores = [(LStr "f", [LStr "A"])]
  /\ significant_nodes_of ex_neighborhoods
       (spec_centroids (Fin (1 / 2)) ex_scores)
     = Ok [(LStr "f", [LStr "A"; LStr "B"])].
Proof.
  assert (Hspec : spec_centroids (Fin (1 / 2)) ex_scores = [(LStr "f", [LStr "A"])]).
  { cbv -[Rleb Rltb Reqb IZR Rplus Rmult Rdiv Rinv Ropp ln]. rcompare. reflexivity. }
  split; [| split].
  - cbv -[Rleb Rltb Reqb IZR Rplus Rmult Rdiv Rinv Ropp ln]. reflexivity.
  - exact Hspec.
  - rewrite Hspec. reflexivity.
Qed.

(* ================================================================== *)
(** * [get_SAFE_summary] *)

(** The guarded division of the SAFE score ratio. *)
Lemma safe_div_by_zero (x : float) : _safe_div x (Fin 0) = NaN.
Proof. unfold _safe_div, feqb. now rewrite Reqb_refl. Qed.

(** The division of the abundance ratio is not guarded. *)
Lemma unguarded_division_by_zero (a : R) :
  (0 < a)%R -> fdiv (Fin a) (Fin 0) = PInf.
Proof.
  intros Ha. unfold fdiv. rewrite Reqb_refl.
  replace (Reqb a 0) with false by (symmetry; apply Reqb_false; lra).
  replace (Rltb 0 a) with true by (symmetry; apply Rltb_true; lra).
  reflexivity.
Qed.

(** C8 at a failing input: a feature with values 1, 1, -2 over three samples,
    the last of which belongs to no node.  Its total is zero, the summary is
    returned without an error, and the enriched abundance ratio is
    2/0 = +inf, not NaN. *)
Theorem abundance_ratio_failing_input :
  exists t s',
    get_SAFE_summary ex_utils ex2_graph ex2_metadata ex2_scores (Some 1%nat)
      (Fin 1) (Fin (1 / 2)) false empty_state = (Ok (Table t), s')
    /\ (exists total, lookup (LStr "f") (sum_cols ex2_metadata) = Ok total
                      /\ feqb total (Fin 0) = true)
    /\ lookup (LStr "f") (enriched_abundance_ratio t) = Ok PInf.
Proof.
  eexists. eexists. split; [| split].
  - cbv -[Rleb Rltb Reqb IZR Rplus Rmult Rdiv Rinv Ropp ln]. rcompare. reflexivity.
  - eexists. split.
    + cbv -[Rleb Rltb Reqb IZR Rplus Rmult Rdiv Rinv Ropp ln]. reflexivity.
    + cbv -[Rleb Rltb Reqb IZR Rplus Rmult Rdiv Rinv Ropp ln]. rcompare. reflexivity.
  - reflexivity.
Qed.

(* ================================================================== *)
(** * The theorems at concrete inputs *)

(** Evaluates a run on concrete inputs, deciding the comparisons of real
    constants on the way. *)
Ltac run_concrete :=
  cbv -[Rleb Rltb Reqb IZR Rplus Rmult Rdiv Rinv Ropp ln convertor];
  rcompare.

Lemma ex_counts_matrix : count_matrix 1 ex_counts.
Proof.
  unfold count_matrix, ex_counts. cbn [columns snd].
  repeat constructor; eexists; (split; [| reflexivity]); lia.
Qed.

Lemma convertor_cell_exists (counts : DataFrame float) (n_iter j i : nat)
  (c : float) :
  cell (col_values counts) j i = Some c ->
  exists x, cell (col_values (convertor counts n_iter)) j i = Some x.
Proof.
  rewrite !cell_col_values, convertor_columns, nth_error_map.
  destruct (nth_error (columns counts) j) as [[f vs] |]; simpl; [| discriminate].
  intros Hc.
  destruct (nth_error
              (map (code_score n_iter)
                 (multipletests_fdr_bh (map (code_raw_p n_iter) vs))) i)
    as [x |] eqn:E; [exists x; reflexivity |].
  apply nth_error_None in E.
  rewrite length_map, multipletests_length, length_map in E.
  assert (i < length vs)%nat by (apply nth_error_Some; congruence). lia.
Qed.

Lemma all_nan_cell (df : DataFrame float) (j i : nat) (x : float) :
  all_nan df -> cell (col_values df) j i = Some x -> x = NaN.
Proof.
  intros Hn Hc. rewrite cell_col_values in Hc.
  destruct (nth_error (columns df) j) as [c |] eqn:Hj; [| discriminate].
  unfold all_nan in Hn. rewrite Forall_forall in Hn.
  specialize (Hn _ (nth_error_In _ _ Hj)). rewrite Forall_forall in Hn.
  apply Hn. eapply nth_error_In. exact Hc.
Qed.

Lemma convertor_refines_spec_witness :
  (1 <= 1)%nat /\ integer_counts 1 ex_trial_counts
  /\ convertor (df_map of_nat ex_trial_counts) 1
     = df_map Fin (spec_convertor ex_trial_counts 1).
Proof.
  assert (Hc : integer_counts 1 ex_trial_counts).
  { unfold integer_counts, ex_trial_counts. cbn [columns snd].
    repeat constructor. }
  split; [apply le_n |]. split; [exact Hc |].
  apply (@convertor_refines_spec ex_trial_counts 1 (le_n 1) Hc).
Defined.

Lemma convertor_score_bounds_witness :
  (1 <= 1)%nat /\ count_matrix 1 ex_counts
  /\ exists x,
      cell (col_values (convertor ex_counts 1)) 0 0 = Some x
      /\ exists s q : R,
          x = Fin s /\ (0 <= s <= 1)%R
          /\ cell (col_values (p_values_fdr_bh ex_counts 1)) 0 0 = Some (Fin q)
          /\ (s = 1%R <-> q = (1 / (INR 1 + 1))%R).
Proof.
  split; [apply le_n |]. split; [apply ex_counts_matrix |].
  destruct (@convertor_cell_exists ex_counts 1 0 0 (of_nat 1) eq_refl) as [x Hx].
  exists x. split; [exact Hx |].
  apply (@convertor_score_bounds ex_counts 1 (le_n 1) ex_counts_matrix 0 0 x Hx).
Defined.

Lemma permutation_counts_witness :
  exists s',
    permutation_loop ex_graph 0 1 "node" ex_neighborhoods "sum"
      (neighborhood_sum ex_metadata ex_neighborhoods "sum") (4, 1)%nat ex_state
    = (Ok (mkArr (4, 1)%nat [[1; 1; 1; 1]%nat], mkArr (4, 1)%nat [[1; 0; 0; 1]%nat]), s')
    /\ exists ps,
        length ps = 1%nat
        /\ forall j i,
            match cell [[1; 1; 1; 1]%nat] j i, cell [[1; 0; 0; 1]%nat] j i with
            | Some a, Some b =>
                a = trials_where fgeb
                      (neighborhood_sum ex_metadata ex_neighborhoods "sum") ps j i
                /\ (a <= 1)%nat /\ (b <= 1)%nat
                /\ numeric_at
                     (neighborhood_sum ex_metadata ex_neighborhoods "sum") ps j i
                /\ (a + b
                    = 1 + trials_where feqb
                            (neighborhood_sum ex_metadata ex_neighborhoods "sum")
                            ps j i)%nat
                /\ (1 <= a + b)%nat
            | None, None => True
            | _, _ => False
            end.
Proof.
  destruct (permutation_loop ex_graph 0 1 "node" ex_neighborhoods "sum"
              (neighborhood_sum ex_metadata ex_neighborhoods "sum") (4, 1)%nat
              ex_state) as [r s'] eqn:Hrun.
  assert (Hr : r = Ok (mkArr (4, 1)%nat [[1; 1; 1; 1]%nat],
                       mkArr (4, 1)%nat [[1; 0; 0; 1]%nat])).
  { revert Hrun. run_concrete. intros H. injection H as <- _. reflexivity. }
  subst r. exists s'. split; [reflexivity |].
  destruct (@permutation_counts _ _ _ _ _ _ _ _ _ _ _ _ Hrun)
    as [[ps [Hlen [_ Hcells]]] _].
  exists ps. split; [exact Hlen |].
  intros j i. specialize (Hcells j i). cbn [nd_data] in Hcells.
  destruct (cell [[1; 1; 1; 1]%nat] j i) as [a |] eqn:Ea,
           (cell [[1; 0; 0; 1]%nat] j i) as [b |] eqn:Eb;
    try exact Hcells.
  assert (Ha1 : a = 1%nat).
  { unfold cell in Ea.
    destruct (nth_error [[1; 1; 1; 1]%nat] j) as [c |] eqn:Ec; [| discriminate].
    apply nth_error_In in Ec. destruct Ec as [<- | []].
    apply nth_error_In in Ea. simpl in Ea.
    repeat (destruct Ea as [Ea | Ea]; [now symmetry |]). contradiction. }
  destruct Hcells as [Ha [_ [Hle1 [Hle2 Hsum]]]].
  assert (Hnum : numeric_at
                   (neighborhood_sum ex_metadata ex_neighborhoods "sum") ps j i).
  { apply numeric_where_all_reach. rewrite <- Ha, Hlen. exact Ha1. }
  destruct (Hsum Hnum) as [Heq Hge].
  repeat split; assumption.
Defined.

(** C4 as stated fails: a NaN satisfies neither comparison.  On a graph whose
    aggregation returns NaN, three trials leave both counters at 0, and the
    two counts of a cell add up to 0, not to 3 or more. *)
Lemma counts_sum_below_n_iter :
  ~ (forall enr dec s',
        permutation_loop nan_graph 0 3 "node" ex_neighborhoods "sum"
          (neighborhood_score nan_graph ex_metadata ex_neighborhoods "sum")
          (4, 1)%nat ex_state
        = (Ok (enr, dec), s') ->
        forall j i a b,
          cell (nd_data enr) j i = Some a ->
          cell (nd_data dec) j i = Some b ->
          (3 <= a + b)%nat).
Proof.
  intros Hclaim.
  assert (Hrun : exists s',
             permutation_loop nan_graph 0 3 "node" ex_neighborhoods "sum"
               (neighborhood_score nan_graph ex_metadata ex_neighborhoods "sum")
               (4, 1)%nat ex_state
             = (Ok (mkArr (4, 1)%nat [[0; 0; 0; 0]%nat],
                    mkArr (4, 1)%nat [[0; 0; 0; 0]%nat]), s')).
  { eexists. run_concrete. reflexivity. }
  destruct Hrun as [s' Hrun].
  pose proof (Hclaim _ _ _ Hrun 0%nat 0%nat 0%nat 0%nat eq_refl eq_refl) as H.
  lia.
Qed.

Lemma permutation_by_node_witness :
  nth_error (store ex_state) 0 = Some ex_metadata
  /\ fst (shape ex_metadata) = length (nodes ex_graph)
  /\ exists r d' s',
      _permutation 0 ex_graph "node" ex_state = (Ok (Some r), s')
      /\ nth_error (store s') r = Some d'
      /\ shape d' = shape ex_metadata
      /\ column_permuted ex_metadata d'
      /\ nth_error (store s') 0 = Some ex_metadata.
Proof.
  split; [reflexivity |]. split; [reflexivity |].
  destruct (@permutation_by_node ex_graph 0 ex_metadata ex_state eq_refl eq_refl)
    as [r [d' [s' [Hrun [Hr [Hsh [Hperm [_ Hin]]]]]]]].
  exists r, d', s'. repeat split; try assumption; apply Hperm.
Defined.

Lemma SAFE_shuffle_by_sample_witness :
  nth_error (store ex_state) 0 = Some ex_metadata
  /\ exists r s',
      _SAFE ex_graph 0 1 (Fin (1 / 2)) None "sample" "enrich" "sum" ex_state
      = (Ok r, s')
      /\ exists pds,
          length pds = 1%nat
          /\ Forall (column_permuted ex_metadata) pds
          /\ trace s'
             = [EvTransformSN ex_metadata; EvGetNeighborhoods (Fin (1 / 2));
                EvNeighborhoodScore (transform_sn ex_graph ex_metadata)]
                 ++ flat_map (sample_trial_calls ex_graph) pds.
Proof.
  split; [reflexivity |].
  destruct (_SAFE ex_graph 0 1 (Fin (1 / 2)) None "sample" "enrich" "sum" ex_state)
    as [[r | e] s'] eqn:Hrun.
  - exists r, s'. split; [reflexivity |].
    destruct (@SAFE_shuffle_by_sample ex_graph 0 ex_metadata 1 (Fin (1 / 2)) None
                "enrich" "sum" ex_state s' r eq_refl Hrun)
      as [pds [counts [enr [dec [Hlen [Hall [Htr _]]]]]]].
    exists pds. split; [exact Hlen |]. split; [exact Hall | exact Htr].
  - exfalso. revert Hrun. run_concrete. discriminate.
Defined.

Lemma invalid_mode_error_witness :
  valid_mode "bogus" = false
  /\ rejected_at_entry
       (_SAFE ex_graph 0 1 (Fin (1 / 2)) None "node" "bogus" "sum") ex_state
  /\ SAFE_batch ex_utils ex_graph ex_metadata 1 (Fin (1 / 2)) None "node" "bogus"
       "sum" empty_state
     = (Raise SyntaxError,
        mkState [ex_metadata] []
          [EvGetNeighborhoods (Fin (1 / 2)); EvVerifyMetadata "node"] []).
Proof.
  split; [reflexivity |].
  destruct (@invalid_mode_error ex_utils ex_graph ex_metadata 1 (Fin (1 / 2)) None
              "node" "bogus" "sum" ex_state eq_refl) as [H1 _].
  destruct (@invalid_mode_error ex_utils ex_graph ex_metadata 1 (Fin (1 / 2)) None
              "node" "bogus" "sum" empty_state eq_refl) as [_ H2].
  split; [apply H1 | exact H2].
Defined.

(** C7 as stated fails: through [SAFE_batch] the neighborhoods have been
    looked up and the metadata verified when the mode error is raised. *)
Lemma invalid_mode_not_rejected_at_entry :
  ~ rejected_at_entry
      (SAFE_batch ex_utils ex_graph ex_metadata 1 (Fin (1 / 2)) None "node"
         "bogus" "sum") empty_state.
Proof.
  unfold rejected_at_entry.
  pose proof (SAFE_batch_entry ex_utils ex_graph ex_metadata 1 (Fin (1 / 2)) None
                "node" "bogus" "sum" empty_state) as H.
  change (verify_metadata ex_utils ex_graph ex_metadata (verification_axis "node"))
    with (Ok ex_metadata) in H.
  rewrite H. rewrite (bind_fail _ (SAFE_invalid_mode ex_graph _ 1 (Fin (1 / 2)) _
                                     "node" "bogus" "sum" _ eq_refl)).
  unfold state_after_verification, empty_state. cbn [store tape trace safe_log app].
  intros Heq. discriminate Heq.
Qed.

Lemma zero_iterations_scores_witness :
  exists r s',
    _SAFE ex_graph 0 0 (Fin (1 / 2)) None "node" "enrich" "sum" ex_state = (Ok r, s')
    /\ min_p_value 0 = Fin 1 /\ all_nan_result r.
Proof.
  destruct (_SAFE ex_graph 0 0 (Fin (1 / 2)) None "node" "enrich" "sum" ex_state)
    as [[r | e] s'] eqn:Hrun.
  - exists r, s'. split; [reflexivity |]. exact (@zero_iterations_scores _ _ _ _ _ _ _ _ _ _ Hrun).
  - exfalso. revert Hrun. run_concrete. discriminate.
Defined.

(** C9 as stated fails: without a trial the scores are NaN, not 0. *)
Lemma zero_iterations_not_zero :
  ~ (forall d s',
        _SAFE ex_graph 0 0 (Fin (1 / 2)) None "node" "enrich" "sum" ex_state
        = (Ok (Single d), s') ->
        forall j i x, cell (col_values d) j i = Some x -> x = Fin 0).
Proof.
  intros Hclaim.
  assert (Hrun : exists s',
             _SAFE ex_graph 0 0 (Fin (1 / 2)) None "node" "enrich" "sum" ex_state
             = (Ok (Single (convertor ex_zero_counts 0)), s')).
  { eexists. run_concrete. reflexivity. }
  destruct Hrun as [s' Hrun].
  assert (Hnan : all_nan (convertor ex_zero_counts 0)).
  { apply convertor_zero_iterations. repeat constructor. }
  destruct (@convertor_cell_exists ex_zero_counts 0 0 0 (of_nat 0) eq_refl)
    as [x Hx].
  pose proof (all_nan_cell _ _ Hnan Hx) as Hxn. subst x.
  specialize (Hclaim _ _ Hrun 0%nat 0%nat NaN Hx). discriminate.
Qed.

Lemma unrecognized_shuffle_axis_witness :
  String.eqb "feature" "node" = false
  /\ String.eqb "feature" "sample" = false
  /\ _permutation 0 ex_graph "feature" ex_state
     = (Ok None, mkState [ex_metadata; ex_metadata] [0; 1; 0; 2]%nat [] [])
  /\ (exists rest,
         trace (snd (SAFE_batch ex_utils ex_graph ex_metadata 1 (Fin (1 / 2)) None
                       "feature" "enrich" "sum" empty_state))
         = [EvGetNeighborhoods (Fin (1 / 2)); EvVerifyMetadata "sample";
            EvNeighborhoodScore ex_metadata] ++ rest).
Proof.
  split; [reflexivity |]. split; [reflexivity |].
  destruct (@unrecognized_shuffle_axis "feature" eq_refl eq_refl) as [Hp [_ Hb]].
  split.
  - exact (Hp ex_graph 0%nat ex_metadata ex_state eq_refl).
  - exact (Hb ex_utils ex_graph ex_metadata ex_metadata 1%nat (Fin (1 / 2)) None
             "enrich"%string "sum"%string empty_state eq_refl eq_refl).
Defined.

(* ================================================================== *)
(** * Order properties of the correction and of the scores *)

Lemma bh_rank_pos (ps : list R) (y : R) : In y ps -> (1 <= bh_rank ps y)%nat.
Proof.
  intros H. unfold bh_rank.
  assert (Hin : In y (filter (fun x => Rleb x y) ps)).
  { apply filter_In. split; [exact H | apply Rleb_true; lra]. }
  destruct (filter (fun x => Rleb x y) ps); [contradiction | simpl; lia].
Qed.

(** A term of the adjustment is never below its p-value. *)
Lemma bh_term_ge (ps : list R) (y : R) :
  In y ps -> (0 <= y)%R -> (y <= bh_term ps y)%R.
Proof.
  intros Hin Hy. unfold bh_term.
  pose proof (bh_rank_pos _ _ Hin) as H1.
  pose proof (rank_bound ps y) as H2.
  assert (Hr : (0 < INR (bh_rank ps y))%R) by (apply lt_0_INR; lia).
  assert (Hm : (INR (bh_rank ps y) <= INR (length ps))%R) by (apply le_INR; lia).
  apply div_ge_bound; [exact Hr | nra].
Qed.

Lemma bh_adjusted_le_one (ps : list R) (x : R) : (bh_adjusted ps x <= 1)%R.
Proof. apply list_min_le_default. Qed.

(** The adjustment never lowers a p-value. *)
Lemma bh_adjusted_ge (ps : list R) (x : R) :
  Forall (Rle 0) ps -> (x <= 1)%R -> (x <= bh_adjusted ps x)%R.
Proof.
  intros Hpos Hx. unfold bh_adjusted. apply list_min_glb; [exact Hx |].
  intros a Ha. apply in_map_iff in Ha. destruct Ha as [y [<- Hy]].
  apply filter_In in Hy. destruct Hy as [Hin Hle]. apply Rleb_true in Hle.
  rewrite Forall_forall in Hpos.
  eapply Rle_trans; [exact Hle | apply bh_term_ge; auto].
Qed.

(** The adjustment keeps the order of the p-values. *)
Lemma bh_adjusted_mono (ps : list R) (x x' : R) :
  (x <= x')%R -> (bh_adjusted ps x <= bh_adjusted ps x')%R.
Proof.
  intros H. unfold bh_adjusted. apply list_min_dominated.
  intros a Ha. exists a. split; [| lra].
  apply in_map_iff in Ha. destruct Ha as [y [<- Hy]]. apply in_map.
  apply filter_In in Hy. destruct Hy as [Hin Hle]. apply Rleb_true in Hle.
  apply filter_In. split; [exact Hin | apply Rleb_true; lra].
Qed.

(** The largest p-value is left as it is. *)
Lemma bh_adjusted_top (ps : list R) (x : R) :
  In x ps -> Forall (fun y => (y <= x)%R) ps -> Forall (Rle 0) ps -> (x <= 1)%R ->
  bh_adjusted ps x = x.
Proof.
  intros Hin Hmax Hpos Hx.
  apply Rle_antisym; [| apply bh_adjusted_ge; assumption].
  assert (Hterm : bh_term ps x = x).
  { unfold bh_term, bh_rank.
    assert (Hall : filter (fun y => Rleb y x) ps = ps).
    { rewrite Forall_forall in Hmax. clear Hin Hpos.
      induction ps as [| y ps IH]; simpl; [reflexivity |].
      replace (Rleb y x) with true
        by (symmetry; apply Rleb_true, Hmax; left; reflexivity).
      f_equal. apply IH. intros z Hz. apply Hmax. right. exact Hz. }
    rewrite Hall.
    assert (Hlen : (0 < INR (length ps))%R).
    { apply lt_0_INR. destruct ps; [contradiction | simpl; lia]. }
    field. lra. }
  unfold bh_adjusted.
  apply Rle_trans with (bh_term ps x); [| rewrite Hterm; lra].
  apply list_min_le_in, in_map, filter_In.
  split; [exact Hin | apply Rleb_true; lra].
Qed.

Lemma spec_raw_p_mono (n a b : nat) :
  (1 <= n)%nat -> (a <= b)%nat -> (spec_raw_p n a <= spec_raw_p n b)%R.
Proof.
  intros Hn Hab. unfold spec_raw_p.
  assert (Hpos : (0 < INR n)%R) by (apply lt_0_INR; lia).
  assert (Hle : (INR a / INR n <= INR b / INR n)%R).
  { unfold Rdiv. apply Rmult_le_compat_r; [left; apply Rinv_0_lt_compat, Hpos |].
    apply le_INR, Hab. }
  apply Rmax_lub.
  - eapply Rle_trans; [exact Hle | apply Rmax_l].
  - apply Rmax_r.
Qed.

Lemma spec_score_ln (n : nat) (q : R) :
  (1 <= n)%nat -> spec_score n q = (ln q / ln (spec_min_p n))%R.
Proof.
  intros Hn. unfold spec_score, log10.
  pose proof (spec_min_p_pos n) as Hm0.
  pose proof (spec_min_p_lt_1 Hn) as Hm1.
  assert (H10 : (0 < ln 10)%R) by (rewrite <- ln_1; apply ln_increasing; lra).
  assert (Hlm : (ln (spec_min_p n) < 0)%R)
    by (rewrite <- ln_1; apply ln_increasing; lra).
  field. split; lra.
Qed.

(** A larger p-value has a smaller score. *)
Lemma spec_score_antitone (n : nat) (q q' : R) :
  (1 <= n)%nat -> (0 < q)%R -> (q <= q')%R ->
  (spec_score n q' <= spec_score n q)%R.
Proof.
  intros Hn Hq Hqq. rewrite !spec_score_ln by exact Hn.
  pose proof (spec_min_p_pos n) as Hm0.
  pose proof (spec_min_p_lt_1 Hn) as Hm1.
  assert (Hlm : (ln (spec_min_p n) < 0)%R)
    by (rewrite <- ln_1; apply ln_increasing; lra).
  assert (Hln : (ln q <= ln q')%R).
  { destruct (Rle_lt_or_eq_dec q q' Hqq) as [Hlt | ->]; [| lra].
    left. apply ln_increasing; lra. }
  assert (Hinv : (/ ln (spec_min_p n) < 0)%R) by (apply Rinv_lt_0_compat, Hlm).
  unfold Rdiv. nra.
Qed.

Lemma spec_score_one (n : nat) : (1 <= n)%nat -> spec_score n 1 = 0%R.
Proof.
  intros Hn. rewrite spec_score_ln by exact Hn. rewrite ln_1.
  unfold Rdiv. apply Rmult_0_l.
Qed.

Lemma spec_score_min_p (n : nat) :
  (1 <= n)%nat -> spec_score n (spec_min_p n) = 1%R.
Proof.
  intros Hn. rewrite spec_score_ln by exact Hn.
  pose proof (spec_min_p_pos n) as Hm0.
  pose proof (spec_min_p_lt_1 Hn) as Hm1.
  assert (Hlm : (ln (spec_min_p n) < 0)%R)
    by (rewrite <- ln_1; apply ln_increasing; lra).
  field. lra.
Qed.

Lemma spec_raw_p_full (n : nat) : (1 <= n)%nat -> spec_raw_p n n = 1%R.
Proof.
  intros Hn. unfold spec_raw_p.
  assert (Hpos : (0 < INR n)%R) by (apply lt_0_INR; lia).
  replace (INR n / INR n)%R with 1%R by (field; lra).
  apply Rmax_left. apply spec_min_p_le_1.
Qed.

Lemma spec_raw_p_zero (n : nat) : spec_raw_p n 0 = spec_min_p n.
Proof.
  unfold spec_raw_p. simpl INR. unfold Rdiv. rewrite Rmult_0_l.
  apply Rmax_right. left. apply spec_min_p_pos.
Qed.

Lemma of_nat_inj (a b : nat) : of_nat a = of_nat b -> a = b.
Proof. unfold of_nat. intros H. injection H as H. apply INR_eq, H. Qed.

Lemma map_of_nat_inj (l l' : list nat) : map of_nat l = map of_nat l' -> l = l'.
Proof.
  revert l'. induction l as [| a l IH]; intros [| b l'] H; simpl in H;
    try discriminate; [reflexivity |].
  injection H as Hab Hl. apply INR_eq in Hab. subst. f_equal. apply IH, Hl.
Qed.

(** A column of counts is a column of natural numbers. *)
Lemma count_column_nats (n : nat) (vs : list float) :
  Forall (fun x => exists k, (k <= n)%nat /\ x = of_nat k) vs ->
  exists ks, vs = map of_nat ks /\ Forall (fun k => (k <= n)%nat) ks.
Proof.
  induction 1 as [| x vs [k [Hk ->]] _ [ks [-> Hks]]].
  - exists []. split; [reflexivity | constructor].
  - exists (k :: ks). split; [reflexivity | constructor; assumption].
Qed.

Lemma raw_p_column_range (n : nat) (ks : list nat) :
  (1 <= n)%nat -> Forall (fun k => (k <= n)%nat) ks ->
  Forall (fun r => (spec_min_p n <= r <= 1)%R) (map (spec_raw_p n) ks).
Proof.
  intros Hn Hks. apply Forall_map. eapply Forall_impl; [| exact Hks].
  intros k Hk. apply spec_raw_p_range; assumption.
Qed.

Lemma raw_p_column_pos (n : nat) (ks : list nat) :
  (1 <= n)%nat -> Forall (fun k => (k <= n)%nat) ks ->
  Forall (Rle 0) (map (spec_raw_p n) ks).
Proof.
  intros Hn Hks. eapply Forall_impl; [| apply raw_p_column_range; eassumption].
  intros r Hr. simpl in Hr. pose proof (spec_min_p_pos n). lra.
Qed.

(** The score of a cell of a count matrix, through the adjustment of its
    column. *)
Lemma convertor_cell_bh (counts : DataFrame float) (n j i a : nat) :
  (1 <= n)%nat -> count_matrix n counts ->
  cell (col_values counts) j i = Some (of_nat a) ->
  exists c ks,
    nth_error (columns counts) j = Some (c, map of_nat ks)
    /\ Forall (fun k => (k <= n)%nat) ks
    /\ nth_error ks i = Some a
    /\ cell (col_values (convertor counts n)) j i
       = Some (Fin (spec_score n
                      (bh_adjusted (map (spec_raw_p n) ks) (spec_raw_p n a)))).
Proof.
  intros Hn Hc Hcell. rewrite cell_col_values in Hcell.
  destruct (nth_error (columns counts) j) as [[c vs] |] eqn:Hj; [| discriminate].
  cbn [snd] in Hcell.
  unfold count_matrix in Hc. rewrite Forall_forall in Hc.
  pose proof (Hc _ (nth_error_In _ _ Hj)) as Hcol. cbn [snd] in Hcol.
  destruct (count_column_nats Hcol) as [ks [-> Hks]].
  rewrite nth_error_map in Hcell.
  destruct (nth_error ks i) as [a' |] eqn:Hi; [| discriminate].
  simpl in Hcell. injection Hcell as Haa. apply INR_eq in Haa. subst a'.
  exists c, ks. repeat split; try assumption.
  rewrite cell_col_values, convertor_columns, nth_error_map, Hj.
  cbn [option_map fst snd].
  rewrite (convert_column_spec Hn Hks).
  unfold spec_convert_column, benjamini_hochberg.
  rewrite !nth_error_map, Hi. reflexivity.
Qed.

(** The score of the raw, uncorrected p-value of a count. *)
Lemma uncorrected_score (n a : nat) :
  (1 <= n)%nat -> (a <= n)%nat ->
  code_score n (code_raw_p n (of_nat a)) = Fin (spec_score n (spec_raw_p n a)).
Proof.
  intros Hn Ha. rewrite code_raw_p_spec by exact Hn.
  apply code_score_spec; [exact Hn |].
  pose proof (spec_raw_p_range Hn Ha). pose proof (spec_min_p_pos n). lra.
Qed.

(* ================================================================== *)
(** * More on [convertor] *)

(** X1: [convertor] keeps the frame of its counts: the row labels, the column
    labels in their order, the shape, and one score per row in every
    column. *)
Theorem convertor_keeps_frame (counts : DataFrame float) (n_iter : nat) :
  index (convertor counts n_iter) = index counts
  /\ col_names (convertor counts n_iter) = col_names counts
  /\ shape (convertor counts n_iter) = shape counts
  /\ (well_formed counts -> well_formed (convertor counts n_iter)).
Proof.
  assert (Hnames : col_names (convertor counts n_iter) = col_names counts).
  { unfold col_names. rewrite convertor_columns, map_map. reflexivity. }
  split; [reflexivity |]. split; [exact Hnames |]. split.
  - unfold shape. rewrite convertor_index. f_equal.
    rewrite <- !col_names_length, Hnames. reflexivity.
  - unfold well_formed. rewrite convertor_index, convertor_columns.
    intros Hwf. apply Forall_map. eapply Forall_impl; [| exact Hwf].
    intros [c vs] Hlen. cbn [snd] in *.
    rewrite length_map, multipletests_length, length_map. exact Hlen.
Qed.

(** X2: within a feature column, [convertor] reverses the order of the
    counts: of two nodes, the one with the smaller count never gets the
    smaller score. *)
Theorem convertor_order_reversing (counts : DataFrame float)
  (n_iter j i i' a b : nat) :
  (1 <= n_iter)%nat -> count_matrix n_iter counts ->
  cell (col_values counts) j i = Some (of_nat a) ->
  cell (col_values counts) j i' = Some (of_nat b) ->
  (a <= b)%nat ->
  exists s t : R,
    cell (col_values (convertor counts n_iter)) j i = Some (Fin s)
    /\ cell (col_values (convertor counts n_iter)) j i' = Some (Fin t)
    /\ (t <= s)%R.
Proof.
  intros Hn Hc Ha Hb Hab.
  destruct (convertor_cell_bh _ _ Hn Hc Ha) as [c [ks [Hj [Hks [Hi Hs]]]]].
  destruct (convertor_cell_bh _ _ Hn Hc Hb) as [c' [ks' [Hj' [_ [Hi' Ht]]]]].
  rewrite Hj in Hj'. injection Hj' as _ Hsame.
  apply map_of_nat_inj in Hsame. subst ks'.
  eexists. eexists. split; [exact Hs |]. split; [exact Ht |].
  set (ps := map (spec_raw_p n_iter) ks).
  assert (Hka : (a <= n_iter)%nat).
  { rewrite Forall_forall in Hks. apply Hks. eapply nth_error_In, Hi. }
  pose proof (spec_raw_p_range Hn Hka) as Hra.
  pose proof (spec_min_p_pos n_iter) as Hm0.
  apply spec_score_antitone; [exact Hn | |].
  - eapply Rlt_le_trans; [| apply bh_adjusted_ge].
    + apply Rlt_le_trans with (spec_min_p n_iter); [exact Hm0 | apply Hra].
    + apply raw_p_column_pos; assumption.
    + apply Hra.
  - apply bh_adjusted_mono, spec_raw_p_mono; assumption.
Qed.

Lemma convertor_order_reversing_witness :
  (1 <= 1)%nat /\ count_matrix 1 ex_counts
  /\ cell (col_values ex_counts) 0 1 = Some (of_nat 0)
  /\ cell (col_values ex_counts) 0 0 = Some (of_nat 1)
  /\ (0 <= 1)%nat
  /\ exists s t : R,
      cell (col_values (convertor ex_counts 1)) 0 1 = Some (Fin s)
      /\ cell (col_values (convertor ex_counts 1)) 0 0 = Some (Fin t)
      /\ (t <= s)%R.
Proof.
  split; [apply le_n |]. split; [apply ex_counts_matrix |].
  split; [reflexivity |]. split; [reflexivity |]. split; [apply le_S, le_n |].
  apply (@convertor_order_reversing ex_counts 1 0 1 0 0 1 (le_n 1)
           ex_counts_matrix eq_refl eq_refl (le_S 0 0 (le_n 0))).
Defined.

(** The counts of a column are at most [a]. *)
Lemma largest_in_column (counts : DataFrame float) (j a : nat) (c : label)
  (ks : list nat) :
  nth_error (columns counts) j = Some (c, map of_nat ks) ->
  (forall i' b, cell (col_values counts) j i' = Some (of_nat b) -> (b <= a)%nat) ->
  Forall (fun k => (k <= a)%nat) ks.
Proof.
  intros Hj Hmax. apply Forall_forall. intros k Hk.
  destruct (In_nth_error _ _ Hk) as [i' Hi'].
  apply (Hmax i' k). rewrite cell_col_values, Hj. cbn [snd].
  rewrite nth_error_map, Hi'. reflexivity.
Qed.

(** X3: the multiple-testing correction never raises a score: the score of a
    cell is at most the score its raw p-value alone would give, and the two
    are equal in a cell that holds the largest count of its column. *)
Theorem convertor_correction_lowers_scores (counts : DataFrame float)
  (n_iter j i a : nat) :
  (1 <= n_iter)%nat -> count_matrix n_iter counts ->
  cell (col_values counts) j i = Some (of_nat a) ->
  exists s t : R,
    cell (col_values (convertor counts n_iter)) j i = Some (Fin s)
    /\ code_score n_iter (code_raw_p n_iter (of_nat a)) = Fin t
    /\ (0 <= s <= t)%R
    /\ ((forall i' b, cell (col_values counts) j i' = Some (of_nat b) ->
                      (b <= a)%nat) -> s = t).
Proof.
  intros Hn Hc Ha.
  destruct (convertor_cell_bh _ _ Hn Hc Ha) as [c [ks [Hj [Hks [Hi Hs]]]]].
  set (ps := map (spec_raw_p n_iter) ks) in *.
  assert (Hka : (a <= n_iter)%nat).
  { rewrite Forall_forall in Hks. apply Hks. eapply nth_error_In, Hi. }
  pose proof (spec_raw_p_range Hn Hka) as Hra.
  pose proof (spec_min_p_pos n_iter) as Hm0.
  pose proof (raw_p_column_pos Hn Hks) as Hpos. fold ps in Hpos.
  assert (Hge : (spec_raw_p n_iter a <= bh_adjusted ps (spec_raw_p n_iter a))%R)
    by (apply bh_adjusted_ge; [exact Hpos | apply Hra]).
  eexists. eexists. split; [exact Hs |].
  split; [apply uncorrected_score; assumption |]. split; [split |].
  - rewrite <- (spec_score_one Hn).
    apply spec_score_antitone; [exact Hn | lra | apply bh_adjusted_le_one].
  - apply spec_score_antitone; [exact Hn | lra | exact Hge].
  - intros Hmax. f_equal. apply bh_adjusted_top.
    + unfold ps. apply in_map. eapply nth_error_In, Hi.
    + unfold ps. apply Forall_map.
      eapply Forall_impl; [| exact (@largest_in_column counts j a c ks Hj Hmax)].
      intros k Hk. apply spec_raw_p_mono; assumption.
    + exact Hpos.
    + apply Hra.
Qed.

Lemma convertor_correction_lowers_scores_witness :
  (1 <= 1)%nat /\ count_matrix 1 ex_counts
  /\ cell (col_values ex_counts) 0 1 = Some (of_nat 0)
  /\ exists s t : R,
      cell (col_values (convertor ex_counts 1)) 0 1 = Some (Fin s)
      /\ code_score 1 (code_raw_p 1 (of_nat 0)) = Fin t
      /\ (0 <= s <= t)%R
      /\ ((forall i' b, cell (col_values ex_counts) 0 i' = Some (of_nat b) ->
                        (b <= 0)%nat) -> s = t).
Proof.
  split; [apply le_n |]. split; [apply ex_counts_matrix |].
  split; [reflexivity |].
  apply (@convertor_correction_lowers_scores ex_counts 1 0 1 0 (le_n 1)
           ex_counts_matrix eq_refl).
Defined.

(** X4: a cell whose count is [n_iter], the observed score having been
    reached in every trial, gets the score 0. *)
Theorem convertor_full_count_scores_zero (counts : DataFrame float)
  (n_iter j i : nat) :
  (1 <= n_iter)%nat -> count_matrix n_iter counts ->
  cell (col_values counts) j i = Some (of_nat n_iter) ->
  cell (col_values (convertor counts n_iter)) j i = Some (Fin 0).
Proof.
  intros Hn Hc Ha.
  destruct (convertor_cell_bh _ _ Hn Hc Ha) as [c [ks [Hj [Hks [Hi Hs]]]]].
  rewrite Hs. do 2 f_equal.
  rewrite bh_adjusted_top.
  - rewrite spec_raw_p_full by exact Hn. apply spec_score_one, Hn.
  - apply in_map. eapply nth_error_In, Hi.
  - apply Forall_map. eapply Forall_impl; [| exact Hks].
    intros k Hk. apply spec_raw_p_mono; assumption.
  - apply raw_p_column_pos; assumption.
  - rewrite spec_raw_p_full by exact Hn. lra.
Qed.

Lemma convertor_full_count_scores_zero_witness :
  (1 <= 1)%nat /\ count_matrix 1 ex_counts
  /\ cell (col_values ex_counts) 0 0 = Some (of_nat 1)
  /\ cell (col_values (convertor ex_counts 1)) 0 0 = Some (Fin 0).
Proof.
  split; [apply le_n |]. split; [apply ex_counts_matrix |].
  split; [reflexivity |].
  apply (@convertor_full_count_scores_zero ex_counts 1 0 0 (le_n 1)
           ex_counts_matrix eq_refl).
Defined.

Lemma Forall_eq_repeat {A} (x : A) (l : list A) :
  Forall (fun y => y = x) l -> l = repeat x (length l).
Proof.
  induction 1 as [| y l -> _ IH]; simpl; [reflexivity | now rewrite <- IH].
Qed.

(** X5: a feature column whose counts are all zero, the observed score
    having been reached in no trial at any node, gets the score 1 at every
    node. *)
Theorem convertor_zero_column_scores_one (counts : DataFrame float)
  (n_iter j : nat) (c : label * list float) :
  (1 <= n_iter)%nat ->
  nth_error (columns counts) j = Some c ->
  Forall (fun x => x = of_nat 0) (snd c) ->
  nth_error (columns (convertor counts n_iter)) j
  = Some (fst c, repeat (Fin 1) (length (snd c))).
Proof.
  intros Hn Hj Hzero. destruct c as [f vs]. cbn [fst snd] in *.
  rewrite convertor_columns, nth_error_map, Hj. cbn [option_map fst snd].
  do 2 f_equal.
  rewrite (Forall_eq_repeat Hzero). rewrite repeat_length.
  set (m := length vs).
  assert (Hks : Forall (fun k => (k <= n_iter)%nat) (repeat O m)).
  { apply Forall_forall. intros k Hk. apply repeat_spec in Hk. lia. }
  rewrite <- (map_repeat O m of_nat).
  rewrite (convert_column_spec Hn Hks).
  unfold spec_convert_column, benjamini_hochberg.
  rewrite !map_repeat, spec_raw_p_zero.
  destruct m as [| m]; [reflexivity |].
  rewrite bh_adjusted_top.
  - rewrite spec_score_min_p by exact Hn. reflexivity.
  - left. reflexivity.
  - apply Forall_forall. intros y Hy. apply repeat_spec in Hy. lra.
  - apply Forall_forall. intros y Hy. apply repeat_spec in Hy.
    pose proof (spec_min_p_pos n_iter). unfold Rle. lra.
  - apply spec_min_p_le_1.
Qed.

Lemma convertor_zero_column_scores_one_witness :
  (1 <= 1)%nat
  /\ nth_error (columns ex_zero_counts) 0
     = Some (LStr "f", [of_nat 0; of_nat 0; of_nat 0; of_nat 0])
  /\ Forall (fun x => x = of_nat 0) [of_nat 0; of_nat 0; of_nat 0; of_nat 0]
  /\ nth_error (columns (convertor ex_zero_counts 1)) 0
     = Some (LStr "f", repeat (Fin 1) 4).
Proof.
  assert (Hz : Forall (fun x => x = of_nat 0)
                 [of_nat 0; of_nat 0; of_nat 0; of_nat 0])
    by (repeat constructor).
  split; [apply le_n |]. split; [reflexivity |]. split; [exact Hz |].
  apply (@convertor_zero_column_scores_one ex_zero_counts 1 0
           (LStr "f", [of_nat 0; of_nat 0; of_nat 0; of_nat 0])
           (le_n 1) eq_refl Hz).
Defined.

(* ================================================================== *)
(** * Lookups and deduplicated unions *)

Lemma label_eqb_eq (a b : label) : label_eqb a b = true <-> a = b.
Proof.
  destruct a as [x | x], b as [y | y]; simpl; split; intros H;
    try discriminate.
  - apply Z.eqb_eq in H. now subst.
  - injection H as ->. apply Z.eqb_refl.
  - apply String.eqb_eq in H. now subst.
  - injection H as ->. apply String.eqb_refl.
Qed.

(** A lookup succeeds exactly on the keys of the dict, and fails with a
    KeyError only. *)
Lemma lookup_key {V} (k : label) (d : list (label * V)) :
  (In k (map fst d) -> exists v, lookup k d = Ok v /\ In (k, v) d)
  /\ (~ In k (map fst d) -> lookup k d = Raise KeyError).
Proof.
  induction d as [| [k' v] d [IHin IHout]]; simpl.
  - split; [contradiction | reflexivity].
  - destruct (label_eqb k k') eqn:E.
    + apply label_eqb_eq in E. subst k'. split.
      * intros _. exists v. split; [reflexivity | left; reflexivity].
      * intros H. exfalso. apply H. left. reflexivity.
    + assert (Hne : k' <> k).
      { intros ->. rewrite label_eqb_refl in E. discriminate. }
      split.
      * intros [H | H]; [contradiction |].
        destruct (IHin H) as [w [Hw Hin]]. exists w. split; [exact Hw | right; exact Hin].
      * intros H. apply IHout. intros Hin. apply H. right. exact Hin.
Qed.

Lemma lookup_ok_key {V} (k : label) (d : list (label * V)) (v : V) :
  lookup k d = Ok v -> In k (map fst d).
Proof.
  intros H. destruct (in_dec label_eq_dec k (map fst d)) as [Hin | Hout];
    [exact Hin |].
  rewrite (proj2 (lookup_key k d) Hout) in H. discriminate.
Qed.

(** The comprehension over the members of the keys [nds]: it returns when
    every key is in the dict, and a missing key is a KeyError. *)
Lemma expand_spec (m : neighborhoods_t) (nds : list label) :
  (all_keys m nds ->
   exists l, expand m nds = Ok l
             /\ forall x, In x l <-> exists k ms, In k nds /\ lookup k m = Ok ms /\ In x ms)
  /\ (~ all_keys m nds -> expand m nds = Raise KeyError).
Proof.
  unfold all_keys. induction nds as [| n nds [IHin IHout]]; simpl.
  - split.
    + intros _. exists []. split; [reflexivity |].
      intros x. split; [contradiction |]. intros [k [ms [[] _]]].
    + intros H. exfalso. apply H. constructor.
  - split.
    + intros H. inversion H as [| ? ? Hn Hrest]; subst.
      destruct (proj1 (lookup_key n m) Hn) as [ns [Hns _]].
      destruct (IHin Hrest) as [l [Hl Hmem]].
      exists (ns ++ l). rewrite Hns, Hl. split; [reflexivity |].
      intros x. rewrite in_app_iff, Hmem. split.
      * intros [Hx | [k [ms [Hk [Hms Hx]]]]].
        -- exists n, ns. auto.
        -- exists k, ms. auto.
      * intros [k [ms [[-> | Hk] [Hms Hx]]]].
        -- left. rewrite Hns in Hms. injection Hms as ->. exact Hx.
        -- right. exists k, ms. auto.
    + intros H. destruct (in_dec label_eq_dec n (map fst m)) as [Hn | Hn].
      * destruct (proj1 (lookup_key n m) Hn) as [ns [Hns _]]. rewrite Hns.
        simpl. rewrite IHout; [reflexivity |].
        intros Hrest. apply H. constructor; assumption.
      * rewrite (proj2 (lookup_key n m) Hn). reflexivity.
Qed.

Lemma py_set_union (m : neighborhoods_t) (nds l : list label) :
  (forall x, In x l <-> exists k ms, In k nds /\ lookup k m = Ok ms /\ In x ms) ->
  union_of m nds (py_set l).
Proof.
  intros H. unfold union_of, py_set. split; [apply NoDup_nodup |].
  intros x. rewrite nodup_In. apply H.
Qed.

(** Lines 205-207, for every feature. *)
Lemma significant_nodes_of_spec (m : neighborhoods_t)
  (cents : list (label * list label)) :
  (Forall (fun c => all_keys m (snd c)) cents ->
   exists r, significant_nodes_of m cents = Ok r
             /\ Forall2 (fun c n => fst n = fst c /\ union_of m (snd c) (snd n))
                        cents r)
  /\ (~ Forall (fun c => all_keys m (snd c)) cents ->
      significant_nodes_of m cents = Raise KeyError).
Proof.
  induction cents as [| [f nds] cents [IHin IHout]]; simpl.
  - split.
    + intros _. exists []. split; [reflexivity | constructor].
    + intros H. exfalso. apply H. constructor.
  - split.
    + intros H. inversion H as [| ? ? Hn Hrest]; subst. cbn [snd] in Hn.
      destruct (proj1 (expand_spec m nds) Hn) as [l [Hl Hmem]].
      destruct (IHin Hrest) as [r [Hr Hall]].
      exists ((f, py_set l) :: r). rewrite Hl, Hr. split; [reflexivity |].
      constructor; [| exact Hall]. split; [reflexivity |].
      apply py_set_union, Hmem.
    + intros H.
      destruct (Forall_dec (fun k => In k (map fst m))
                  (fun k => in_dec label_eq_dec k (map fst m)) nds) as [Hn | Hn].
      * destruct (proj1 (expand_spec m nds) Hn) as [l [Hl _]]. rewrite Hl.
        simpl. rewrite IHout; [reflexivity |].
        intros Hrest. apply H. constructor; assumption.
      * rewrite (proj2 (expand_spec m nds) Hn). reflexivity.
Qed.

Lemma significant_nodes_of_ok (m : neighborhoods_t)
  (cents r : list (label * list label)) :
  significant_nodes_of m cents = Ok r ->
  Forall2 (fun c n => fst n = fst c /\ union_of m (snd c) (snd n)) cents r.
Proof.
  intros H.
  destruct (Forall_dec (fun c : label * list label => all_keys m (snd c))
              (fun c => Forall_dec (fun k => In k (map fst m))
                          (fun k => in_dec label_eq_dec k (map fst m)) (snd c))
              cents) as [Hall | Hnot].
  - destruct (proj1 (significant_nodes_of_spec m cents) Hall) as [r' [Hr' HF]].
    rewrite Hr' in H. injection H as <-. exact HF.
  - rewrite (proj2 (significant_nodes_of_spec m cents) Hnot) in H. discriminate.
Qed.

Lemma get_enriched_samples_eq (enriched_nodes nodes : list (label * list label)) :
  get_enriched_samples enriched_nodes nodes
  = significant_nodes_of nodes enriched_nodes.
Proof.
  induction enriched_nodes as [| [f ids] rest IH]; simpl; [reflexivity |].
  now rewrite IH.
Qed.

(** X6: [get_enriched_samples] returns exactly when every enriched node is a
    key of the node-to-samples dict, and raises a KeyError otherwise.  What
    it returns has the features of [enriched_nodes] in their order, and for
    each feature the samples of its enriched nodes, each sample once. *)
Theorem enriched_samples_are_unions
  (enriched_nodes nodes : list (label * list label)) :
  (Forall (fun e => all_keys nodes (snd e)) enriched_nodes ->
   exists r, get_enriched_samples enriched_nodes nodes = Ok r
             /\ Forall2 (fun e f => fst f = fst e /\ union_of nodes (snd e) (snd f))
                        enriched_nodes r)
  /\ (~ Forall (fun e => all_keys nodes (snd e)) enriched_nodes ->
      get_enriched_samples enriched_nodes nodes = Raise KeyError).
Proof.
  rewrite get_enriched_samples_eq. split.
  - intros H. destruct (proj1 (significant_nodes_of_spec nodes enriched_nodes) H)
      as [r [Hr HF]].
    exists r. split; [exact Hr | exact HF].
  - intros H. apply (proj2 (significant_nodes_of_spec nodes enriched_nodes)), H.
Qed.

(* ================================================================== *)
(** * Transposition *)

Lemma row_at_cons {A} (c : label * list A) (cols : list (label * list A))
  (i : nat) (v : A) :
  nth_error (snd c) i = Some v -> row_at (c :: cols) i = v :: row_at cols i.
Proof. intros H. unfold row_at. simpl. now rewrite H. Qed.

(** A row of a frame in which every column reaches the row. *)
Lemma nth_error_row_at {A} (cols : list (label * list A)) (i j : nat) :
  Forall (fun c => (i < length (snd c))%nat) cols ->
  nth_error (row_at cols i) j
  = match nth_error cols j with
    | Some c => nth_error (snd c) i
    | None => None
    end.
Proof.
  intros H. revert j. induction H as [| c cols Hc _ IH]; intros j.
  - destruct j; reflexivity.
  - destruct (nth_error (snd c) i) as [v |] eqn:Hv.
    + rewrite (row_at_cons _ _ _ Hv). destruct j as [| j]; simpl.
      * symmetry. exact Hv.
      * apply IH.
    + apply nth_error_None in Hv. lia.
Qed.

Lemma length_row_at {A} (cols : list (label * list A)) (i : nat) :
  Forall (fun c => (i < length (snd c))%nat) cols ->
  length (row_at cols i) = length cols.
Proof.
  induction 1 as [| c cols Hc _ IH]; [reflexivity |].
  destruct (nth_error (snd c) i) as [v |] eqn:Hv.
  - rewrite (row_at_cons _ _ _ Hv). simpl. now rewrite IH.
  - apply nth_error_None in Hv. lia.
Qed.

Lemma nth_error_ext {A} (l l' : list A) :
  (forall i, nth_error l i = nth_error l' i) -> l = l'.
Proof.
  revert l'. induction l as [| x l IH]; intros [| y l'] H.
  - reflexivity.
  - specialize (H O). discriminate.
  - specialize (H O). discriminate.
  - pose proof (H O) as H0. simpl in H0. injection H0 as ->.
    f_equal. apply IH. intros i. apply (H (S i)).
Qed.

Lemma nth_error_combine_seq {A} (l : list A) (start i : nat) :
  nth_error (combine (seq start (length l)) l) i
  = option_map (fun x => ((start + i)%nat, x)) (nth_error l i).
Proof.
  revert start i. induction l as [| x l IH]; intros start i; simpl.
  - destruct i; reflexivity.
  - destruct i as [| i]; simpl.
    + now rewrite Nat.add_0_r.
    + rewrite IH. rewrite Nat.add_succ_r. reflexivity.
Qed.

Lemma transpose_index {A} (df : DataFrame A) : index (transpose df) = col_names df.
Proof. reflexivity. Qed.

Lemma transpose_col_names {A} (df : DataFrame A) :
  col_names (transpose df) = index df.
Proof.
  unfold col_names, transpose. cbn [columns]. rewrite map_map. cbn [fst].
  apply map_snd_combine. apply length_seq.
Qed.

(** [df.T.shape] is [df.shape] reversed. *)
Lemma transpose_shape {A} (df : DataFrame A) :
  shape (transpose df) = (snd (shape df), fst (shape df)).
Proof.
  unfold shape. cbn [fst snd]. f_equal.
  - rewrite transpose_index. apply col_names_length.
  - rewrite <- col_names_length, transpose_col_names. reflexivity.
Qed.

Lemma nth_error_transpose_columns {A} (df : DataFrame A) (i : nat) :
  nth_error (columns (transpose df)) i
  = option_map (fun l => (l, row_at (columns df) i)) (nth_error (index df) i).
Proof.
  unfold transpose. cbn [columns].
  rewrite nth_error_map, nth_error_combine_seq.
  destruct (nth_error (index df) i); reflexivity.
Qed.

Lemma well_formed_rows {A} (df : DataFrame A) (i : nat) :
  well_formed df -> (i < length (index df))%nat ->
  Forall (fun c => (i < length (snd c))%nat) (columns df).
Proof.
  intros Hwf Hi. eapply Forall_impl; [| exact Hwf].
  intros c Hc. simpl in Hc. lia.
Qed.

Lemma transpose_well_formed {A} (df : DataFrame A) :
  well_formed df -> well_formed (transpose df).
Proof.
  intros Hwf. unfold well_formed. apply Forall_forall. intros c Hc.
  destruct (In_nth_error _ _ Hc) as [i Hi].
  rewrite nth_error_transpose_columns in Hi.
  destruct (nth_error (index df) i) as [l |] eqn:Hl; [| discriminate].
  injection Hi as <-. cbn [snd]. rewrite transpose_index.
  rewrite length_row_at, col_names_length; [reflexivity |].
  apply well_formed_rows; [exact Hwf |].
  apply nth_error_Some. congruence.
Qed.

(** A cell of the transposed frame is the cell of the frame at the swapped
    place. *)
Lemma transpose_cell {A} (df : DataFrame A) (j i : nat) :
  well_formed df ->
  cell (col_values (transpose df)) i j = cell (col_values df) j i.
Proof.
  intros Hwf. rewrite !cell_col_values, nth_error_transpose_columns.
  destruct (nth_error (index df) i) as [l |] eqn:Hl; cbn [option_map snd].
  - apply nth_error_row_at, well_formed_rows; [exact Hwf |].
    apply nth_error_Some. congruence.
  - destruct (nth_error (columns df) j) as [c |] eqn:Hc; [| reflexivity].
    symmetry. apply nth_error_None.
    unfold well_formed in Hwf. rewrite Forall_forall in Hwf.
    rewrite (Hwf _ (nth_error_In _ _ Hc)). apply nth_error_None, Hl.
Qed.

(** Transposing twice gives the frame back. *)
Lemma transpose_involutive {A} (df : DataFrame A) :
  well_formed df -> transpose (transpose df) = df.
Proof.
  intros Hwf.
  transitivity (mkDF (index df) (columns df)); [| symmetry; apply df_eta].
  rewrite (df_eta (transpose (transpose df))).
  rewrite transpose_index, transpose_col_names. f_equal.
  apply nth_error_ext. intros j.
  rewrite nth_error_transpose_columns, transpose_index. unfold col_names.
  rewrite nth_error_map. cbn [columns].
  destruct (nth_error (columns df) j) as [[c vs] |] eqn:Hj;
    cbn [option_map fst]; [| reflexivity].
  do 2 f_equal. apply nth_error_ext. intros i.
  pose proof (@transpose_cell _ df j i Hwf) as Hcell.
  rewrite !cell_col_values, Hj in Hcell. cbn [snd] in Hcell.
  destruct (nth_error (columns (transpose df)) i) as [r |] eqn:Hr.
  - rewrite <- Hcell.
    pose proof (transpose_well_formed Hwf) as Hwt.
    rewrite nth_error_row_at.
    + rewrite Hr. reflexivity.
    + apply well_formed_rows; [exact Hwt |].
      rewrite transpose_index, col_names_length.
      apply nth_error_Some. congruence.
  - rewrite <- Hcell. apply nth_error_None.
    apply nth_error_None in Hr.
    destruct (Nat.lt_ge_cases j (length (columns df))) as [Hlt | Hge];
      [| apply nth_error_None in Hge; congruence].
    rewrite length_row_at.
    + exact Hr.
    + apply well_formed_rows; [apply transpose_well_formed, Hwf |].
      rewrite transpose_index, col_names_length. exact Hlt.
Qed.

(* ================================================================== *)
(** * More on [get_significant_nodes] *)

Lemma call_get_neighborhoods_run (g : Graph) (nr_threshold : float) (s : state) :
  call_get_neighborhoods g nr_threshold s
  = (Ok (get_neighborhoods g nr_threshold),
     mkState (store s) (tape s) (trace s ++ [EvGetNeighborhoods nr_threshold])
       (safe_log s)).
Proof. reflexivity. Qed.

(** X7: [get_significant_nodes] raises an AssertionError when neither
    dimension of the score matrix is the number of nodes of the graph; the
    neighborhoods have been looked up by then, and nothing else has
    happened. *)
Theorem significant_nodes_shape_mismatch (u : Utils) (g : Graph)
  (safe_scores : DataFrame float) (SAFE_pvalue : option float)
  (nr_threshold pvalue : float) (n_iter : option nat) (centroids : bool)
  (s : state) :
  fst (shape (unify_data u safe_scores)) <> length (nodes g) ->
  snd (shape (unify_data u safe_scores)) <> length (nodes g) ->
  get_significant_nodes u g safe_scores SAFE_pvalue nr_threshold pvalue n_iter
    centroids s
  = (Raise AssertionError,
     mkState (store s) (tape s) (trace s ++ [EvGetNeighborhoods nr_threshold])
       (safe_log s)).
Proof.
  intros Hrows Hcols. unfold get_significant_nodes.
  rewrite (bind_run _ (call_get_neighborhoods_run g nr_threshold s)).
  apply Nat.eqb_neq in Hrows. rewrite Hrows. cbn [negb].
  rewrite transpose_shape. cbn [fst].
  apply Nat.eqb_neq in Hcols. rewrite Hcols. reflexivity.
Qed.

Lemma significant_nodes_shape_mismatch_witness :
  fst (shape (unify_data ex_utils ex2_scores)) <> length (nodes ex_graph)
  /\ snd (shape (unify_data ex_utils ex2_scores)) <> length (nodes ex_graph)
  /\ get_significant_nodes ex_utils ex_graph ex2_scores None (Fin (1 / 2))
       (Fin (1 / 20)) (Some 1%nat) false empty_state
     = (Raise AssertionError,
        mkState [] [] [EvGetNeighborhoods (Fin (1 / 2))] []).
Proof.
  assert (H1 : fst (shape (unify_data ex_utils ex2_scores)) <> length (nodes ex_graph))
    by (simpl; lia).
  assert (H2 : snd (shape (unify_data ex_utils ex2_scores)) <> length (nodes ex_graph))
    by (simpl; lia).
  split; [exact H1 |]. split; [exact H2 |].
  apply (@significant_nodes_shape_mismatch ex_utils ex_graph ex2_scores None
           (Fin (1 / 2)) (Fin (1 / 20)) (Some 1%nat) false empty_state H1 H2).
Defined.

(** X8: [get_significant_nodes] takes the score matrix in either
    orientation: when the number of features differs from the number of
    nodes, the features x nodes matrix gives what the nodes x features
    matrix gives. *)
Theorem significant_nodes_either_orientation (u : Utils) (g : Graph)
  (safe_scores : DataFrame float) (SAFE_pvalue : option float)
  (nr_threshold pvalue : float) (n_iter : option nat) (centroids : bool)
  (s : state) :
  (forall d, unify_data u d = d) ->
  well_formed safe_scores ->
  fst (shape safe_scores) = length (nodes g) ->
  snd (shape safe_scores) <> length (nodes g) ->
  get_significant_nodes u g (transpose safe_scores) SAFE_pvalue nr_threshold
    pvalue n_iter centroids s
  = get_significant_nodes u g safe_scores SAFE_pvalue nr_threshold pvalue
      n_iter centroids s.
Proof.
  intros Hu Hwf Hrows Hcols. unfold get_significant_nodes.
  rewrite !Hu, transpose_shape, (transpose_involutive Hwf). cbn [fst].
  apply Nat.eqb_neq in Hcols. rewrite Hcols, Hrows, Nat.eqb_refl.
  reflexivity.
Qed.

Lemma ex_scores_well_formed : well_formed ex_scores.
Proof. repeat constructor. Qed.

Lemma significant_nodes_either_orientation_witness :
  (forall d, unify_data ex_utils d = d)
  /\ well_formed ex_scores
  /\ fst (shape ex_scores) = length (nodes ex_graph)
  /\ snd (shape ex_scores) <> length (nodes ex_graph)
  /\ get_significant_nodes ex_utils ex_graph (transpose ex_scores) None
       (Fin (1 / 2)) (Fin (1 / 20)) (Some 1%nat) true empty_state
     = get_significant_nodes ex_utils ex_graph ex_scores None
         (Fin (1 / 2)) (Fin (1 / 20)) (Some 1%nat) true empty_state.
Proof.
  assert (H2 : snd (shape ex_scores) <> length (nodes ex_graph)) by (simpl; lia).
  split; [reflexivity |]. split; [exact ex_scores_well_formed |].
  split; [reflexivity |]. split; [exact H2 |].
  apply (@significant_nodes_either_orientation ex_utils ex_graph ex_scores None
           (Fin (1 / 2)) (Fin (1 / 20)) (Some 1%nat) true empty_state
           (fun d => eq_refl) ex_scores_well_formed eq_refl H2).
Defined.




(** A successful run with the [centroids] flag: where the centroids come
    from, what the nodes are made of, and what the run without the flag
    returns. *)
Lemma significant_nodes_inv (u : Utils) (g : Graph)
  (safe_scores : DataFrame float) (SAFE_pvalue : option float)
  (nr_threshold pvalue : float) (n_iter : option nat) (s s' : state)
  (cs ns : list (label * list label)) :
  get_significant_nodes u g safe_scores SAFE_pvalue nr_threshold pvalue n_iter
    true s = (Ok (WithCentroids cs ns), s') ->
  (exists thr,
      cs = significant_centroides_of
             (to_dict (df_where (node_scores u g safe_scores)
                         (df_ge (node_scores u g safe_scores) thr) NaN)))
  /\ significant_nodes_of (get_neighborhoods g nr_threshold) cs = Ok ns
  /\ get_significant_nodes u g safe_scores SAFE_pvalue nr_threshold pvalue
       n_iter false s = (Ok (NodesOnly ns), s').
Proof.
  unfold get_significant_nodes. fold (node_scores u g safe_scores). intros H.
  rewrite (bind_run _ (call_get_neighborhoods_run g nr_threshold s)) in H.
  rewrite (bind_run _ (call_get_neighborhoods_run g nr_threshold s)).
  set (s1 := mkState (store s) (tape s)
               (trace s ++ [EvGetNeighborhoods nr_threshold]) (safe_log s)) in *.
  apply bind_ok in H. destruct H as [t [s2 [Hassert H]]].
  rewrite (bind_run _ Hassert).
  apply bind_ok in H. destruct H as [thr [s3 [Hthr H]]].
  rewrite (bind_run _ Hthr).
  apply bind_ok in H. destruct H as [cn [s4 [Hsel H]]].
  rewrite (bind_run _ Hsel).
  apply ret_ok in H. destruct H as [Hres <-]. injection Hres as <- <-.
  apply lift_ok in Hsel. destruct Hsel as [Hsel _].
  unfold select_significant in Hsel.
  apply rbind_ok in Hsel. destruct Hsel as [r [Hr Hcn]].
  injection Hcn as <-. cbn [fst snd].
  split; [exists thr; reflexivity |]. split; [exact Hr | reflexivity].
Qed.

(** X10: the significant nodes [get_significant_nodes] returns for a feature
    are the members of the neighborhoods of the centroids it returns for
    that feature, each node once, with the features in the same order; and
    without the [centroids] flag the same nodes are returned alone. *)
Theorem significant_nodes_are_unions (u : Utils) (g : Graph)
  (safe_scores : DataFrame float) (SAFE_pvalue : option float)
  (nr_threshold pvalue : float) (n_iter : option nat) (s s' : state)
  (cs ns : list (label * list label)) :
  get_significant_nodes u g safe_scores SAFE_pvalue nr_threshold pvalue n_iter
    true s = (Ok (WithCentroids cs ns), s') ->
  Forall2 (fun c n => fst n = fst c
                      /\ union_of (get_neighborhoods g nr_threshold) (snd c) (snd n))
          cs ns
  /\ get_significant_nodes u g safe_scores SAFE_pvalue nr_threshold pvalue
       n_iter false s = (Ok (NodesOnly ns), s').
Proof.
  intros H. apply significant_nodes_inv in H. destruct H as [_ [Hr Hflag]].
  split; [apply significant_nodes_of_ok, Hr | exact Hflag].
Qed.

Lemma significant_nodes_are_unions_witness :
  get_significant_nodes ex_utils ex_graph ex_scores (Some (Fin (1 / 2)))
    (Fin (1 / 2)) (Fin (1 / 20)) None true empty_state
  = (Ok (WithCentroids [(LStr "f", ex_nodes)] [(LStr "f", ex_nodes)]),
     mkState [] [] [EvGetNeighborhoods (Fin (1 / 2))] [])
  /\ Forall2 (fun c n => fst n = fst c
                         /\ union_of (get_neighborhoods ex_graph (Fin (1 / 2)))
                              (snd c) (snd n))
       [(LStr "f", ex_nodes)] [(LStr "f", ex_nodes)]
  /\ get_significant_nodes ex_utils ex_graph ex_scores (Some (Fin (1 / 2)))
       (Fin (1 / 2)) (Fin (1 / 20)) None false empty_state
     = (Ok (NodesOnly [(LStr "f", ex_nodes)]),
        mkState [] [] [EvGetNeighborhoods (Fin (1 / 2))] []).
Proof.
  assert (Hrun : get_significant_nodes ex_utils ex_graph ex_scores
                   (Some (Fin (1 / 2))) (Fin (1 / 2)) (Fin (1 / 20)) None true
                   empty_state
                 = (Ok (WithCentroids [(LStr "f", ex_nodes)] [(LStr "f", ex_nodes)]),
                    mkState [] [] [EvGetNeighborhoods (Fin (1 / 2))] [])).
  { cbv -[Rleb Rltb Reqb IZR Rplus Rmult Rdiv Rinv Ropp ln]. reflexivity. }
  split; [exact Hrun |].
  apply (@significant_nodes_are_unions ex_utils ex_graph ex_scores
           (Some (Fin (1 / 2))) (Fin (1 / 2)) (Fin (1 / 20)) None empty_state _
           _ _ Hrun).
Defined.

(* ================================================================== *)
(** * Relations every step of a computation keeps *)

Section Preserves.

Variable R : state -> state -> Prop.
Variable allowed : event -> Prop.
Hypothesis R_refl : forall s, R s s.
Hypothesis R_trans : forall s1 s2 s3, R s1 s2 -> R s2 s3 -> R s1 s3.
Hypothesis R_alloc : forall d s, R s (snd (alloc d s)).
Hypothesis R_draw : forall s, R s (snd (draw s)).
Hypothesis R_emit : forall e s, allowed e -> R s (snd (emit e s)).

Lemma preserves_ret {A} (a : A) : preserves R (ret a).
Proof. intros s. apply R_refl. Qed.

Lemma preserves_raise {A} (e : exn) : preserves R (@raise A e).
Proof. intros s. apply R_refl. Qed.

Lemma preserves_lift {A} (r : result A) : preserves R (lift r).
Proof. intros s. apply R_refl. Qed.

Lemma preserves_bind {A B} (c : M A) (k : A -> M B) :
  preserves R c -> (forall a, preserves R (k a)) -> preserves R (bind c k).
Proof.
  intros Hc Hk s. unfold bind. specialize (Hc s).
  destruct (c s) as [[a | e] s1]; simpl in *.
  - eapply R_trans; [exact Hc | apply Hk].
  - exact Hc.
Qed.

Lemma preserves_emit (e : event) : allowed e -> preserves R (emit e).
Proof. intros He s. apply R_emit, He. Qed.

Lemma preserves_alloc (d : DataFrame float) : preserves R (alloc d).
Proof. intros s. apply R_alloc. Qed.

Lemma preserves_deref (l : loc) : preserves R (deref l).
Proof.
  intros s. unfold deref. destruct (nth_error (store s) l); apply R_refl.
Qed.

Lemma preserves_draw : preserves R draw.
Proof. intros s. apply R_draw. Qed.

Lemma preserves_assert (b : bool) : preserves R (assert b).
Proof. destruct b; [apply preserves_ret | apply preserves_raise]. Qed.

Lemma preserves_if {A} (b : bool) (c1 c2 : M A) :
  preserves R c1 -> preserves R c2 -> preserves R (if b then c1 else c2).
Proof. destruct b; auto. Qed.

(** Decomposes a computation along its binds and branches. *)
Ltac preserves_steps :=
  repeat first
    [ apply preserves_ret
    | apply preserves_raise
    | apply preserves_lift
    | apply preserves_alloc
    | apply preserves_deref
    | apply preserves_draw
    | apply preserves_assert
    | assumption
    | match goal with
      | |- preserves R (bind _ _) => apply preserves_bind; [| intros ?]
      | |- preserves R (if _ then _ else _) => apply preserves_if
      | |- preserves R (match ?x with _ => _ end) => destruct x
      end ].

Lemma preserves_mapM {A B} (f : A -> M B) (l : list A) :
  (forall x, preserves R (f x)) -> preserves R (mapM f l).
Proof.
  intros Hf. induction l as [| x l IH]; simpl; preserves_steps. apply Hf.
Qed.

Lemma preserves_for_range {S} (body : S -> M S) (n : nat) :
  (forall acc, preserves R (body acc)) ->
  forall acc, preserves R (for_range n body acc).
Proof.
  intros Hb. induction n as [| n IH]; intros acc; simpl; preserves_steps;
    [apply Hb | apply IH].
Qed.

Lemma preserves_np_random_permutation {A} (col : list A) :
  preserves R (np_random_permutation col).
Proof.
  induction col as [| x col IH]; simpl; preserves_steps.
Qed.

Lemma preserves_apply_permutation (l : loc) : preserves R (apply_permutation l).
Proof.
  unfold apply_permutation. preserves_steps.
  apply preserves_mapM. intros c. preserves_steps.
  apply preserves_np_random_permutation.
Qed.

Hypothesis score_allowed : forall d, allowed (EvNeighborhoodScore d).

Section Axis.

Variable shuffle_by : string.
Hypothesis transform_allowed :
  String.eqb shuffle_by "sample" = true -> forall d, allowed (EvTransformSN d).

Lemma preserves_permutation (data : loc) (g : Graph) :
  preserves R (_permutation data g shuffle_by).
Proof.
  unfold _permutation, copy_deep.
  apply preserves_bind; [preserves_steps | intros p].
  destruct (String.eqb shuffle_by "node").
  - preserves_steps. apply preserves_apply_permutation.
  - destruct (String.eqb shuffle_by "sample").
    + unfold call_transform_sn. preserves_steps.
      * apply preserves_apply_permutation.
      * apply preserves_emit, transform_allowed. reflexivity.
    + apply preserves_ret.
Qed.

Lemma preserves_trial (g : Graph) (data : loc) (nb : neighborhoods_t)
  (agg : string) (obs : DataFrame float) (counts : ndarray * ndarray) :
  preserves R (trial g data shuffle_by nb agg obs counts).
Proof.
  unfold trial, call_neighborhood_score. preserves_steps.
  - apply preserves_permutation.
  - apply preserves_emit, score_allowed.
Qed.

Lemma preserves_SAFE (g : Graph) (data : loc) (n_iter : nat)
  (nr_threshold : float) (neighborhoods : option neighborhoods_t)
  (_mode agg_mode : string) :
  (neighborhoods = None -> allowed (EvGetNeighborhoods nr_threshold)) ->
  preserves R (_SAFE g data n_iter nr_threshold neighborhoods shuffle_by _mode
                 agg_mode).
Proof.
  intros Hlookup. unfold _SAFE.
  destruct (negb (valid_mode _mode)); [apply preserves_raise |].
  apply preserves_bind.
  { destruct (String.eqb shuffle_by "sample").
    - unfold call_transform_sn. preserves_steps.
      apply preserves_emit, transform_allowed. reflexivity.
    - apply preserves_ret. }
  intros node_data. apply preserves_bind.
  { destruct neighborhoods as [n |]; [apply preserves_ret |].
    unfold call_get_neighborhoods. preserves_steps.
    apply preserves_emit, Hlookup. reflexivity. }
  intros nb. unfold call_neighborhood_score, permutation_loop.
  apply preserves_bind; [apply preserves_deref | intros nd].
  apply preserves_bind;
    [preserves_steps; apply preserves_emit, score_allowed | intros obs].
  apply preserves_bind;
    [apply preserves_for_range; intros acc; apply preserves_trial | intros counts].
  preserves_steps.
Qed.

End Axis.

End Preserves.

(** ** The history is only written by [SAFE_batch] *)

Lemma SAFE_keeps_log (g : Graph) (data : loc) (n_iter : nat)
  (nr_threshold : float) (neighborhoods : option neighborhoods_t)
  (shuffle_by _mode agg_mode : string) :
  preserves log_kept
    (_SAFE g data n_iter nr_threshold neighborhoods shuffle_by _mode agg_mode).
Proof.
  apply preserves_SAFE with (allowed := fun _ => True); unfold log_kept; auto.
  - intros s1 s2 s3 H1 H2. congruence.
  - intros s. unfold draw. destruct (tape s); reflexivity.
Qed.

(** ** The frames of the store stay where they are *)

Lemma SAFE_extends_store (g : Graph) (data : loc) (n_iter : nat)
  (nr_threshold : float) (neighborhoods : option neighborhoods_t)
  (shuffle_by _mode agg_mode : string) :
  preserves store_extends
    (_SAFE g data n_iter nr_threshold neighborhoods shuffle_by _mode agg_mode).
Proof.
  apply preserves_SAFE with (allowed := fun _ => True); auto.
  - apply store_extends_refl.
  - apply store_extends_trans.
  - intros d s l x H. simpl. apply nth_error_snoc_old, H.
  - intros s l x H. unfold draw. destruct (tape s); exact H.
  - intros e s _ l x H. exact H.
Qed.

(** ** The collaborator calls *)

Lemma calls_only_refl (P : event -> Prop) (s : state) : calls_only P s s.
Proof. exists []. split; [now rewrite app_nil_r | constructor]. Qed.

Lemma calls_only_trans (P : event -> Prop) (s1 s2 s3 : state) :
  calls_only P s1 s2 -> calls_only P s2 s3 -> calls_only P s1 s3.
Proof.
  intros [r1 [H1 F1]] [r2 [H2 F2]]. exists (r1 ++ r2). split.
  - rewrite H2, H1, app_assoc. reflexivity.
  - apply Forall_app. split; assumption.
Qed.

Lemma calls_only_emit (P : event -> Prop) (e : event) (s : state) :
  P e -> calls_only P s (snd (emit e s)).
Proof. intros He. exists [e]. split; [reflexivity | repeat constructor; exact He]. Qed.

(** X11: unless it shuffles by sample, [_SAFE] never calls [transform_sn],
    however the run ends: every call it makes into the graph is a call of
    [neighborhood_score], but for the lookup of the neighborhoods when none
    were passed. *)
Theorem SAFE_node_calls (g : Graph) (data : loc) (n_iter : nat)
  (nr_threshold : float) (neighborhoods : option neighborhoods_t)
  (shuffle_by _mode agg_mode : string) :
  String.eqb shuffle_by "sample" = false ->
  preserves (calls_only (node_call nr_threshold neighborhoods))
    (_SAFE g data n_iter nr_threshold neighborhoods shuffle_by _mode agg_mode).
Proof.
  intros Haxis.
  apply preserves_SAFE
    with (allowed := node_call nr_threshold neighborhoods).
  - apply calls_only_refl.
  - apply calls_only_trans.
  - intros d s. exists []. split; [simpl; now rewrite app_nil_r | constructor].
  - intros s. exists []. split; [| constructor].
    unfold draw. destruct (tape s); simpl; now rewrite app_nil_r.
  - intros e s He. apply calls_only_emit, He.
  - intros d. left. exact I.
  - rewrite Haxis. discriminate.
  - intros ->. right. split; reflexivity.
Qed.

Lemma SAFE_node_calls_witness :
  String.eqb "node" "sample" = false
  /\ preserves (calls_only (node_call (Fin (1 / 2)) None))
       (_SAFE ex_graph 0 3 (Fin (1 / 2)) None "node" "enrich" "sum").
Proof.
  split; [reflexivity |].
  apply (@SAFE_node_calls ex_graph 0 3 (Fin (1 / 2)) None "node" "enrich" "sum"
           eq_refl).
Defined.

(* ================================================================== *)
(** * More on [_SAFE] and [SAFE_batch] *)

Lemma convertor_col_names (counts : DataFrame float) (n_iter : nat) :
  col_names (convertor counts n_iter) = col_names counts.
Proof. unfold col_names. rewrite convertor_columns, map_map. reflexivity. Qed.

(** A counter has the shape it was made with, and one column of counts per
    column of that shape. *)
Lemma mask_incr_width (arr arr' : ndarray) (mask : DataFrame bool) :
  mask_incr arr mask = Ok arr' ->
  length (nd_data arr) = snd (nd_shape arr) ->
  nd_shape arr' = nd_shape arr /\ length (nd_data arr') = snd (nd_shape arr').
Proof.
  unfold mask_incr.
  destruct (shape_eqb (nd_shape arr) (shape mask)) eqn:E; intros H Hw;
    [| discriminate].
  injection H as <-. cbn [nd_shape nd_data]. split; [reflexivity |].
  unfold shape_eqb in E. apply andb_prop in E. destruct E as [_ E].
  apply Nat.eqb_eq in E. unfold shape in E. cbn [snd] in E.
  rewrite length_map, length_combine. unfold col_values. rewrite length_map. lia.
Qed.

Lemma count_step_width (p obs : DataFrame float) (counts counts' : ndarray * ndarray)
  (sh : nat * nat) :
  count_step p obs counts = Ok counts' ->
  (nd_shape (fst counts) = sh /\ length (nd_data (fst counts)) = snd sh)
  /\ (nd_shape (snd counts) = sh /\ length (nd_data (snd counts)) = snd sh) ->
  (nd_shape (fst counts') = sh /\ length (nd_data (fst counts')) = snd sh)
  /\ (nd_shape (snd counts') = sh /\ length (nd_data (snd counts')) = snd sh).
Proof.
  unfold count_step. intros H [[Hs1 Hw1] [Hs2 Hw2]].
  apply rbind_ok in H. destruct H as [ge [_ H]].
  apply rbind_ok in H. destruct H as [enr [Henr H]].
  apply rbind_ok in H. destruct H as [le [_ H]].
  apply rbind_ok in H. destruct H as [dec [Hdec H]].
  injection H as <-. cbn [fst snd].
  rewrite <- Hs1 in Hw1. rewrite <- Hs2 in Hw2.
  destruct (mask_incr_width _ _ Henr Hw1) as [He1 He2].
  destruct (mask_incr_width _ _ Hdec Hw2) as [Hd1 Hd2].
  rewrite He2, Hd2, He1, Hd1, Hs1, Hs2. auto.
Qed.

Lemma loop_counts_width (g : Graph) (data : loc) (n_iter : nat)
  (shuffle_by : string) (nb : neighborhoods_t) (agg : string)
  (obs : DataFrame float) (sh : nat * nat) (s s' : state)
  (counts : ndarray * ndarray) :
  permutation_loop g data n_iter shuffle_by nb agg obs sh s = (Ok counts, s') ->
  (nd_shape (fst counts) = sh /\ length (nd_data (fst counts)) = snd sh)
  /\ (nd_shape (snd counts) = sh /\ length (nd_data (snd counts)) = snd sh).
Proof.
  unfold permutation_loop. intros Hrun.
  apply (@for_range_invariant _
           (fun _ c => (nd_shape (fst c) = sh /\ length (nd_data (fst c)) = snd sh)
                       /\ (nd_shape (snd c) = sh /\ length (nd_data (snd c)) = snd sh))
           (trial g data shuffle_by nb agg obs))
    with (n := n_iter) (k := O) (acc := (np_zeros sh, np_zeros sh)) (s := s)
         (s' := s').
  - intros k acc s1 acc' s1' Hinv Hb.
    apply trial_ok in Hb. destruct Hb as [d Hd].
    eapply count_step_width; eassumption.
  - cbn [fst snd np_zeros nd_shape nd_data]. rewrite repeat_length. auto.
  - exact Hrun.
Qed.

Lemma pd_DataFrame_labelled (arr : ndarray) (idx cols : list label)
  (df : DataFrame float) :
  pd_DataFrame arr idx cols = Ok df ->
  length (nd_data arr) = snd (nd_shape arr) ->
  labelled idx cols df.
Proof.
  unfold pd_DataFrame.
  destruct (shape_eqb (nd_shape arr) (length idx, length cols)) eqn:E;
    intros H Hw; [| discriminate].
  injection H as <-. split; [reflexivity |].
  unfold col_names. cbn [columns]. apply map_fst_combine.
  unfold shape_eqb in E. apply andb_prop in E. destruct E as [_ E].
  apply Nat.eqb_eq in E. cbn [snd] in E. rewrite length_map. lia.
Qed.

Lemma convertor_labelled (idx cols : list label) (counts : DataFrame float)
  (n_iter : nat) :
  labelled idx cols counts -> labelled idx cols (convertor counts n_iter).
Proof.
  intros [Hi Hc]. split; [rewrite convertor_index; exact Hi |].
  rewrite convertor_col_names. exact Hc.
Qed.

(** A successful run of [_SAFE] on the frame [d]: the scores are made of two
    count frames over the nodes of the graph and the columns of [d]. *)
Lemma SAFE_ok_frames (g : Graph) (data : loc) (d : DataFrame float)
  (n_iter : nat) (nr_threshold : float) (neighborhoods : option neighborhoods_t)
  (shuffle_by _mode agg_mode : string) (s s' : state) (r : safe_result) :
  nth_error (store s) data = Some d ->
  _SAFE g data n_iter nr_threshold neighborhoods shuffle_by _mode agg_mode s
  = (Ok r, s') ->
  exists enr dec,
    r = select_mode _mode (convertor enr n_iter) (convertor dec n_iter)
    /\ valid_mode _mode = true
    /\ labelled (nodes g) (col_names d) enr
    /\ labelled (nodes g) (col_names d) dec.
Proof.
  intros Hd H.
  pose proof (SAFE_extends_store g data n_iter nr_threshold neighborhoods
                shuffle_by _mode agg_mode s) as Hext.
  rewrite H in Hext. cbn [snd] in Hext. specialize (Hext _ _ Hd).
  unfold _SAFE in H.
  destruct (valid_mode _mode) eqn:Hmode; cbn [negb] in H; [| discriminate].
  apply bind_ok in H. destruct H as [node_data [s1 [_ H]]].
  apply bind_ok in H. destruct H as [nb [s2 [_ H]]].
  apply bind_ok in H. destruct H as [nd [s3 [_ H]]].
  apply bind_ok in H. destruct H as [obs [s4 [_ H]]].
  apply bind_ok in H. destruct H as [counts [s5 [Hloop H]]].
  apply bind_ok in H. destruct H as [d' [s6 [Hd' H]]].
  apply deref_ok in Hd'. destruct Hd' as [Hd' <-].
  apply bind_ok in H. destruct H as [enr [s7 [Henr H]]].
  apply lift_ok in Henr. destruct Henr as [Henr <-].
  apply bind_ok in H. destruct H as [dec [s8 [Hdec H]]].
  apply lift_ok in Hdec. destruct Hdec as [Hdec <-].
  apply select_mode_run in H. destruct H as [-> ->].
  rewrite Hext in Hd'. injection Hd' as <-.
  destruct (loop_counts_width _ _ _ _ _ _ _ _ _ Hloop) as [[Hs1 Hw1] [Hs2 Hw2]].
  rewrite <- Hs1 in Hw1. rewrite <- Hs2 in Hw2.
  exists enr, dec. split; [reflexivity |]. split; [reflexivity |]. split.
  - eapply pd_DataFrame_labelled; eassumption.
  - eapply pd_DataFrame_labelled; eassumption.
Qed.

(** X12: the scores [_SAFE] returns are laid out as its callers read them:
    one row per node of the graph, in the order of the nodes, and one column
    per column of the data, in the order of the data. *)
Theorem SAFE_result_labels (g : Graph) (data : loc) (d : DataFrame float)
  (n_iter : nat) (nr_threshold : float) (neighborhoods : option neighborhoods_t)
  (shuffle_by _mode agg_mode : string) (s s' : state) (r : safe_result) :
  nth_error (store s) data = Some d ->
  _SAFE g data n_iter nr_threshold neighborhoods shuffle_by _mode agg_mode s
  = (Ok r, s') ->
  result_labelled (nodes g) (col_names d) r.
Proof.
  intros Hd H.
  destruct (@SAFE_ok_frames g data d n_iter nr_threshold neighborhoods
              shuffle_by _mode agg_mode s s' r Hd H) as [enr [dec [-> [_ [He Hdc]]]]].
  pose proof (convertor_labelled n_iter He) as Le.
  pose proof (convertor_labelled n_iter Hdc) as Ld.
  unfold select_mode.
  destruct (String.eqb _mode "both"); [split; assumption |].
  destruct (String.eqb _mode "enrich"); [exact Le |].
  destruct (String.eqb _mode "decline"); [exact Ld | exact I].
Qed.

Lemma SAFE_result_labels_witness :
  exists r s',
    nth_error (store ex_state) 0 = Some ex_metadata
    /\ _SAFE ex_graph 0 2 (Fin (1 / 2)) None "node" "enrich" "sum" ex_state
       = (Ok r, s')
    /\ result_labelled (nodes ex_graph) (col_names ex_metadata) r.
Proof.
  destruct (@SAFE_by_node_returns ex_graph 0 ex_metadata 2 (Fin (1 / 2)) None
              "enrich" "sum" ex_state ex_graph_keeps_labels eq_refl eq_refl
              eq_refl) as [r [s' Hrun]].
  exists r, s'. split; [reflexivity |]. split; [exact Hrun |].
  apply (@SAFE_result_labels ex_graph 0 ex_metadata 2 (Fin (1 / 2)) None
           "node" "enrich" "sum" ex_state s' r eq_refl Hrun).
Defined.

(** X13: mode 'both' returns the pair of what the modes 'enrich' and
    'decline' return: run from the same state, with the same random draws,
    the three modes do the same work and end in the same state. *)
Theorem SAFE_both_pairs_the_modes (g : Graph) (data : loc) (n_iter : nat)
  (nr_threshold : float) (neighborhoods : option neighborhoods_t)
  (shuffle_by agg_mode : string) (s s' : state) (e d : DataFrame float) :
  _SAFE g data n_iter nr_threshold neighborhoods shuffle_by "both" agg_mode s
  = (Ok (Both e d), s') ->
  _SAFE g data n_iter nr_threshold neighborhoods shuffle_by "enrich" agg_mode s
  = (Ok (Single e), s')
  /\ _SAFE g data n_iter nr_threshold neighborhoods shuffle_by "decline" agg_mode s
     = (Ok (Single d), s').
Proof.
  unfold _SAFE. cbn [valid_mode String.eqb Ascii.eqb Bool.eqb orb negb].
  intros H.
  apply bind_ok in H. destruct H as [node_data [s1 [H1 H]]].
  rewrite !(bind_run _ H1).
  apply bind_ok in H. destruct H as [nb [s2 [H2 H]]].
  rewrite !(bind_run _ H2).
  apply bind_ok in H. destruct H as [nd [s3 [H3 H]]].
  rewrite !(bind_run _ H3).
  apply bind_ok in H. destruct H as [obs [s4 [H4 H]]].
  rewrite !(bind_run _ H4).
  apply bind_ok in H. destruct H as [counts [s5 [H5 H]]].
  rewrite !(bind_run _ H5).
  apply bind_ok in H. destruct H as [d' [s6 [H6 H]]].
  rewrite !(bind_run _ H6).
  apply bind_ok in H. destruct H as [enr [s7 [H7 H]]].
  rewrite !(bind_run _ H7).
  apply bind_ok in H. destruct H as [dec [s8 [H8 H]]].
  rewrite !(bind_run _ H8).
  apply ret_ok in H. destruct H as [Hr <-]. injection Hr as <- <-.
  split; reflexivity.
Qed.

Lemma SAFE_both_pairs_the_modes_witness :
  exists e d s',
    _SAFE ex_graph 0 2 (Fin (1 / 2)) None "node" "both" "sum" ex_state
    = (Ok (Both e d), s')
    /\ _SAFE ex_graph 0 2 (Fin (1 / 2)) None "node" "enrich" "sum" ex_state
       = (Ok (Single e), s')
    /\ _SAFE ex_graph 0 2 (Fin (1 / 2)) None "node" "decline" "sum" ex_state
       = (Ok (Single d), s').
Proof.
  destruct (@SAFE_by_node_returns ex_graph 0 ex_metadata 2 (Fin (1 / 2)) None
              "both" "sum" ex_state ex_graph_keeps_labels eq_refl eq_refl
              eq_refl) as [r [s' Hrun]].
  destruct (SAFE_ok_inv _ _ _ _ _ _ _ _ _ Hrun)
    as [nd [nb [obs [sL [counts [d0 [enr [dec [_ [_ [_ [Hr _]]]]]]]]]]]].
  change (select_mode "both" (convertor enr 2) (convertor dec 2))
    with (Both (convertor enr 2) (convertor dec 2)) in Hr.
  subst r.
  exists (convertor enr 2), (convertor dec 2), s'.
  split; [exact Hrun |].
  apply (@SAFE_both_pairs_the_modes ex_graph 0 2 (Fin (1 / 2)) None "node"
           "sum" ex_state s' (convertor enr 2) (convertor dec 2) Hrun).
Defined.

(** ** The history [SAFE_batch] writes *)

(** A successful run appends the records of its scores to the history. *)
Lemma SAFE_batch_log (u : Utils) (g : Graph) (metadata : DataFrame float)
  (n_iter : nat) (nr_threshold : float) (neighborhoods : option neighborhoods_t)
  (shuffle_by _mode agg_mode : string) (s s' : state) (r : safe_result) :
  SAFE_batch u g metadata n_iter nr_threshold neighborhoods shuffle_by _mode
    agg_mode s = (Ok r, s') ->
  safe_log s'
  = safe_log s ++ batch_records shuffle_by agg_mode nr_threshold n_iter _mode r
  /\ batch_records shuffle_by agg_mode nr_threshold n_iter _mode r <> [].
Proof.
  intros H.
  pose proof (SAFE_batch_entry u g metadata n_iter nr_threshold neighborhoods
                shuffle_by _mode agg_mode s) as He.
  destruct (verify_metadata u g metadata (verification_axis shuffle_by)) as [v | e];
    rewrite He in H; [| discriminate].
  apply bind_ok in H. destruct H as [r1 [s1 [Hsafe H]]].
  pose proof (SAFE_keeps_log g (length (store s)) n_iter nr_threshold
                (Some (effective_neighborhoods g nr_threshold neighborhoods))
                shuffle_by _mode agg_mode
                (state_after_verification s nr_threshold neighborhoods
                   shuffle_by [v])) as Hlog.
  rewrite Hsafe in Hlog. unfold log_kept in Hlog. cbn in Hlog.
  apply bind_ok in H. destruct H as [t [s2 [Hadd H]]].
  apply ret_ok in H. destruct H as [<- <-].
  unfold batch_records.
  destruct (String.eqb _mode "both"); destruct r1; try discriminate Hadd.
  - unfold bind, _add_safe in Hadd. injection Hadd as _ <-. cbn.
    rewrite Hlog, <- app_assoc. split; [reflexivity | discriminate].
  - unfold _add_safe in Hadd. injection Hadd as _ <-. cbn.
    rewrite Hlog. split; [reflexivity | discriminate].
Qed.

(** X14: a successful [SAFE_batch] appends its records to the history of the
    graph and leaves the earlier records alone: one record, or two for mode
    'both'; every record holds the shuffle_by, agg_mode, nr_threshold and
    n_iter of the call, and the last one holds the scores returned (for
    'both', the decline scores). *)
Theorem SAFE_batch_records (u : Utils) (g : Graph) (metadata : DataFrame float)
  (n_iter : nat) (nr_threshold : float) (neighborhoods : option neighborhoods_t)
  (shuffle_by _mode agg_mode : string) (s s' : state) (r : safe_result) :
  SAFE_batch u g metadata n_iter nr_threshold neighborhoods shuffle_by _mode
    agg_mode s = (Ok r, s') ->
  exists front p,
    safe_log s' = safe_log s ++ front ++ [p]
    /\ length front = (if String.eqb _mode "both" then 1 else 0)%nat
    /\ Forall (records_call shuffle_by agg_mode nr_threshold n_iter) (front ++ [p])
    /\ records_result _mode r p.
Proof.
  intros H. apply SAFE_batch_log in H. destruct H as [Hlog Hne].
  unfold batch_records in *.
  destruct (String.eqb _mode "both"); destruct r;
    try (exfalso; apply Hne; reflexivity).
  - eexists [_], _. split; [exact Hlog |]. split; [reflexivity |].
    split; [| split; reflexivity].
    repeat constructor.
  - eexists [], _. split; [exact Hlog |]. split; [reflexivity |].
    split; [| split; reflexivity].
    repeat constructor.
Qed.

(** X15: a [SAFE_batch] that ends in an error, whichever it is, records
    nothing: the history of the graph is as it was. *)
Theorem SAFE_batch_failure_keeps_history (u : Utils) (g : Graph)
  (metadata : DataFrame float) (n_iter : nat) (nr_threshold : float)
  (neighborhoods : option neighborhoods_t) (shuffle_by _mode agg_mode : string)
  (s s' : state) (e : exn) :
  SAFE_batch u g metadata n_iter nr_threshold neighborhoods shuffle_by _mode
    agg_mode s = (Raise e, s') ->
  safe_log s' = safe_log s.
Proof.
  intros H.
  pose proof (SAFE_batch_entry u g metadata n_iter nr_threshold neighborhoods
                shuffle_by _mode agg_mode s) as He.
  destruct (verify_metadata u g metadata (verification_axis shuffle_by)) as [v | e0];
    rewrite He in H.
  - pose proof (SAFE_keeps_log g (length (store s)) n_iter nr_threshold
                  (Some (effective_neighborhoods g nr_threshold neighborhoods))
                  shuffle_by _mode agg_mode
                  (state_after_verification s nr_threshold neighborhoods
                     shuffle_by [v])) as Hlog.
    unfold log_kept in Hlog. cbn [state_after_verification safe_log] in Hlog.
    unfold bind at 1 in H.
    destruct (_SAFE g (length (store s)) n_iter nr_threshold
                (Some (effective_neighborhoods g nr_threshold neighborhoods))
                shuffle_by _mode agg_mode
                (state_after_verification s nr_threshold neighborhoods
                   shuffle_by [v])) as [[r1 | e1] s1].
    + cbn [snd] in Hlog. unfold bind at 1 in H.
      destruct (String.eqb _mode "both"); destruct r1;
        cbn in H; try discriminate H;
        injection H as _ <-; exact Hlog.
    + cbn [snd] in Hlog. injection H as _ <-. exact Hlog.
  - injection H as _ <-. reflexivity.
Qed.

(** [SAFE_batch] by node runs through when the verification returns a table
    with one row per node. *)
Lemma SAFE_batch_node_run (u : Utils) (g : Graph) (metadata v : DataFrame float)
  (n_iter : nat) (nr_threshold : float) (neighborhoods : option neighborhoods_t)
  (_mode agg_mode : string) (s : state) :
  keeps_labels g ->
  valid_mode _mode = true ->
  verify_metadata u g metadata "node" = Ok v ->
  fst (shape v) = length (nodes g) ->
  exists r s1 s',
    _SAFE g (length (store s)) n_iter nr_threshold
      (Some (effective_neighborhoods g nr_threshold neighborhoods))
      "node" _mode agg_mode
      (state_after_verification s nr_threshold neighborhoods "node" [v])
    = (Ok r, s1)
    /\ SAFE_batch u g metadata n_iter nr_threshold neighborhoods "node" _mode
         agg_mode s = (Ok r, s').
Proof.
  intros Hkeep Hmode Hv Hrows.
  pose proof (SAFE_batch_entry u g metadata n_iter nr_threshold neighborhoods
                "node" _mode agg_mode s) as He.
  change (verification_axis "node") with "node"%string in He.
  rewrite Hv in He.
  set (s0 := state_after_verification s nr_threshold neighborhoods "node" [v]) in *.
  assert (Hd : nth_error (store s0) (length (store s)) = Some v)
    by apply nth_error_snoc_new.
  destruct (@SAFE_by_node_returns g (length (store s)) v n_iter nr_threshold
              (Some (effective_neighborhoods g nr_threshold neighborhoods))
              _mode agg_mode s0 Hkeep Hmode Hd Hrows) as [r [s1 Hrun]].
  exists r, s1. rewrite He, (bind_run _ Hrun).
  pose proof Hrun as Hinv. apply SAFE_ok_inv in Hinv.
  destruct Hinv as [nd [nb [obs [sL [counts [d0 [enr [dec [_ [_ [_ [-> _]]]]]]]]]]]].
  unfold select_mode in *. unfold valid_mode in Hmode.
  destruct (String.eqb _mode "both");
    [eexists; split; [exact Hrun | reflexivity] |].
  destruct (String.eqb _mode "enrich");
    [eexists; split; [exact Hrun | reflexivity] |].
  destruct (String.eqb _mode "decline"); [| discriminate].
  eexists. split; [exact Hrun | reflexivity].
Qed.

Lemma ex_batch_runs (_mode : string) :
  valid_mode _mode = true ->
  exists r s',
    SAFE_batch ex_utils ex_graph ex_metadata 2 (Fin (1 / 2)) None "node" _mode
      "sum" empty_state = (Ok r, s').
Proof.
  intros Hmode.
  destruct (@SAFE_batch_node_run ex_utils ex_graph ex_metadata ex_metadata 2
              (Fin (1 / 2)) None _mode "sum" empty_state ex_graph_keeps_labels
              Hmode eq_refl eq_refl) as [r [s1 [s' [_ H]]]].
  exists r, s'. exact H.
Qed.

Lemma SAFE_batch_records_witness :
  exists r s',
    SAFE_batch ex_utils ex_graph ex_metadata 2 (Fin (1 / 2)) None "node" "both"
      "sum" empty_state = (Ok r, s')
    /\ exists front p,
        safe_log s' = safe_log empty_state ++ front ++ [p]
        /\ length front = 1%nat
        /\ Forall (records_call "node" "sum" (Fin (1 / 2)) 2) (front ++ [p])
        /\ records_result "both" r p.
Proof.
  destruct (@ex_batch_runs "both" eq_refl) as [r [s' Hrun]].
  exists r, s'. split; [exact Hrun |].
  apply (@SAFE_batch_records ex_utils ex_graph ex_metadata 2 (Fin (1 / 2)) None
           "node" "both" "sum" empty_state s' r Hrun).
Defined.

Lemma SAFE_batch_failure_keeps_history_witness :
  SAFE_batch ex_utils ex_graph ex2_metadata 2 (Fin (1 / 2)) None "node" "enrich"
    "sum" empty_state
  = (Raise ShapeMismatch,
     state_after_verification empty_state (Fin (1 / 2)) None "node" [])
  /\ safe_log (state_after_verification empty_state (Fin (1 / 2)) None "node" [])
     = safe_log empty_state.
Proof.
  assert (Hrun : SAFE_batch ex_utils ex_graph ex2_metadata 2 (Fin (1 / 2)) None
                   "node" "enrich" "sum" empty_state
                 = (Raise ShapeMismatch,
                    state_after_verification empty_state (Fin (1 / 2)) None
                      "node" []))
    by exact (SAFE_batch_entry ex_utils ex_graph ex2_metadata 2 (Fin (1 / 2))
                None "node" "enrich" "sum" empty_state).
  split; [exact Hrun |].
  apply (@SAFE_batch_failure_keeps_history ex_utils ex_graph ex2_metadata 2
           (Fin (1 / 2)) None "node" "enrich" "sum" empty_state _ _ Hrun).
Defined.

(** X16: [SAFE_batch] by node returns its scores for every valid mode and
    every number of iterations, whenever the verification returns a table
    with one row per node and the aggregation of the graph keeps the labels
    of the table it is given.  The scores have one row per node and one
    column per column of the verified table, and with at least one iteration
    every score is a number between 0 and 1. *)
Theorem SAFE_batch_by_node_succeeds (u : Utils) (g : Graph)
  (metadata v : DataFrame float) (n_iter : nat) (nr_threshold : float)
  (neighborhoods : option neighborhoods_t) (_mode agg_mode : string)
  (s : state) :
  keeps_labels g ->
  valid_mode _mode = true ->
  verify_metadata u g metadata "node" = Ok v ->
  fst (shape v) = length (nodes g) ->
  exists r s',
    SAFE_batch u g metadata n_iter nr_threshold neighborhoods "node" _mode
      agg_mode s = (Ok r, s')
    /\ result_labelled (nodes g) (col_names v) r
    /\ ((1 <= n_iter)%nat -> unit_result r).
Proof.
  intros Hkeep Hmode Hv Hrows.
  destruct (@SAFE_batch_node_run u g metadata v n_iter nr_threshold
              neighborhoods _mode agg_mode s Hkeep Hmode Hv Hrows)
    as [r [s1 [s' [Hsafe Hrun]]]].
  exists r, s'. split; [exact Hrun |]. split.
  - assert (Hd : nth_error
                   (store (state_after_verification s nr_threshold neighborhoods
                             "node" [v])) (length (store s)) = Some v)
      by apply nth_error_snoc_new.
    pose proof Hsafe as Hf. eapply SAFE_ok_frames in Hf; [| exact Hd].
    destruct Hf as [enr [dec [-> [_ [He Hdc]]]]].
    pose proof (convertor_labelled n_iter He) as Le.
    pose proof (convertor_labelled n_iter Hdc) as Ld.
    unfold select_mode.
    destruct (String.eqb _mode "both"); [split; assumption |].
    destruct (String.eqb _mode "enrich"); [exact Le |].
    destruct (String.eqb _mode "decline"); [exact Ld | exact I].
  - intros Hn. eapply SAFE_unit_scores; eassumption.
Qed.

Lemma SAFE_batch_by_node_succeeds_witness :
  keeps_labels ex_graph
  /\ valid_mode "enrich" = true
  /\ verify_metadata ex_utils ex_graph ex_metadata "node" = Ok ex_metadata
  /\ fst (shape ex_metadata) = length (nodes ex_graph)
  /\ exists r s',
      SAFE_batch ex_utils ex_graph ex_metadata 2 (Fin (1 / 2)) None "node"
        "enrich" "sum" empty_state = (Ok r, s')
      /\ result_labelled (nodes ex_graph) (col_names ex_metadata) r
      /\ ((1 <= 2)%nat -> unit_result r).
Proof.
  split; [exact ex_graph_keeps_labels |]. split; [reflexivity |].
  split; [reflexivity |]. split; [reflexivity |].
  apply (@SAFE_batch_by_node_succeeds ex_utils ex_graph ex_metadata ex_metadata
           2 (Fin (1 / 2)) None "enrich" "sum" empty_state
           ex_graph_keeps_labels eq_refl eq_refl eq_refl).
Defined.

(** ** Reading the history back *)






(* ================================================================== *)
(** * More on [_permutation] *)

(** X18: when the table does not have the row count its axis asks for (the
    number of nodes for 'node', the number of rows of the raw data for
    'sample'), [_permutation] raises an AssertionError before anything is
    shuffled: the deep copy has been made, no random number has been drawn
    and the graph has not been called. *)
Theorem permutation_row_mismatch (g : Graph) (data : loc) (d : DataFrame float)
  (shuffle_by : string) (s : state) :
  nth_error (store s) data = Some d ->
  (shuffle_by = "node"%string /\ fst (shape d) <> length (nodes g))
  \/ (shuffle_by = "sample"%string /\ fst (shape d) <> rawX_rows g) ->
  _permutation data g shuffle_by s
  = (Raise AssertionError,
     mkState (store s ++ [d]) (tape s) (trace s) (safe_log s)).
Proof.
  intros Hd Hrows.
  set (s1 := mkState (store s ++ [d]) (tape s) (trace s) (safe_log s)).
  assert (Hcopy : copy_deep data s = (Ok (length (store s)), s1)).
  { unfold copy_deep. rewrite (bind_run _ (deref_run _ _ Hd)). apply alloc_run. }
  assert (Hp : nth_error (store s1) (length (store s)) = Some d)
    by apply nth_error_snoc_new.
  unfold _permutation. rewrite (bind_run _ Hcopy).
  destruct Hrows as [[-> Hne] | [-> Hne]]; apply Nat.eqb_neq in Hne.
  - change (String.eqb "node" "node") with true. cbv iota.
    rewrite (bind_run _ (deref_run _ _ Hp)), Hne. reflexivity.
  - change (String.eqb "sample" "node") with false.
    change (String.eqb "sample" "sample") with true. cbv iota.
    rewrite (bind_run _ (deref_run _ _ Hp)), Hne. reflexivity.
Qed.

Lemma permutation_row_mismatch_witness :
  nth_error (store (mkState [ex2_metadata] [] [] [])) 0 = Some ex2_metadata
  /\ (("node" = "node")%string
      /\ fst (shape ex2_metadata) <> length (nodes ex_graph)
      \/ ("node" = "sample")%string
         /\ fst (shape ex2_metadata) <> rawX_rows ex_graph)
  /\ _permutation 0 ex_graph "node" (mkState [ex2_metadata] [] [] [])
     = (Raise AssertionError, mkState [ex2_metadata; ex2_metadata] [] [] []).
Proof.
  assert (Hne : fst (shape ex2_metadata) <> length (nodes ex_graph))
    by (simpl; lia).
  split; [reflexivity |]. split; [left; split; [reflexivity | exact Hne] |].
  apply (@permutation_row_mismatch ex_graph 0 ex2_metadata "node"
           (mkState [ex2_metadata] [] [] []) eq_refl
           (or_introl (conj eq_refl Hne))).
Defined.

(** X19: for a sample-space table with as many rows as the raw data of the
    graph, [_permutation] with shuffle_by 'sample' returns what
    [transform_sn] makes of a table that has the labels and the shape of the
    input and, in every column, the values of the input column rearranged;
    [transform_sn] is the only call made into the graph, and the input table
    is left as it was. *)
Theorem permutation_by_sample (g : Graph) (data : loc) (d : DataFrame float)
  (s : state) :
  nth_error (store s) data = Some d ->
  fst (shape d) = rawX_rows g ->
  exists pd r s',
    _permutation data g "sample" s = (Ok (Some r), s')
    /\ nth_error (store s') r = Some (transform_sn g pd)
    /\ column_permuted d pd
    /\ shape pd = shape d
    /\ trace s' = trace s ++ [EvTransformSN pd]
    /\ nth_error (store s') data = Some d.
Proof.
  intros Hd Hrows.
  destruct (proj1 (permutation_by_sample_run g data s Hd) Hrows)
    as [pd [r [s' [Hrun [Hr [Hperm [Htr Hext]]]]]]].
  exists pd, r, s'. split; [exact Hrun |]. split; [exact Hr |].
  split; [exact Hperm |]. split; [apply (column_permuted_shape Hperm) |].
  split; [exact Htr |]. apply Hext, Hd.
Qed.

Lemma permutation_by_sample_witness :
  nth_error (store ex_state) 0 = Some ex_metadata
  /\ fst (shape ex_metadata) = rawX_rows ex_graph
  /\ exists pd r s',
      _permutation 0 ex_graph "sample" ex_state = (Ok (Some r), s')
      /\ nth_error (store s') r = Some (transform_sn ex_graph pd)
      /\ column_permuted ex_metadata pd
      /\ shape pd = shape ex_metadata
      /\ trace s' = trace ex_state ++ [EvTransformSN pd]
      /\ nth_error (store s') 0 = Some ex_metadata.
Proof.
  split; [reflexivity |]. split; [reflexivity |].
  apply (@permutation_by_sample ex_graph 0 ex_metadata ex_state eq_refl eq_refl).
Defined.

(* ================================================================== *)
(** * Shuffling by node *)

(** One successful trial that shuffles by node: the frame is permuted and
    the permuted frame is aggregated as it is. *)
Lemma trial_by_node (g : Graph) (data : loc) (d : DataFrame float)
  (nb : neighborhoods_t) (agg : string) (obs : DataFrame float)
  (counts counts' : ndarray * ndarray) (s s' : state) :
  nth_error (store s) data = Some d ->
  trial g data "node" nb agg obs counts s = (Ok counts', s') ->
  exists pd,
    column_permuted d pd
    /\ fst (shape d) = length (nodes g)
    /\ trace s' = trace s ++ [EvNeighborhoodScore pd]
    /\ count_step (neighborhood_score g pd nb agg) obs counts = Ok counts'
    /\ store_extends s s'.
Proof.
  intros Hd Hrun.
  destruct (Nat.eq_dec (fst (shape d)) (length (nodes g))) as [Hrows | Hrows].
  - destruct (permutation_by_node_run g data s Hd Hrows)
      as [pd [s1 [Hp [Hst [Hperm [Htr _]]]]]].
    assert (Hpd : nth_error (store s1) (S (length (store s))) = Some pd).
    { rewrite Hst.
      replace (S (length (store s))) with (length (store s ++ [d]))
        by (rewrite length_app; simpl; lia).
      apply nth_error_snoc_new. }
    unfold trial in Hrun. rewrite (bind_run _ Hp) in Hrun.
    rewrite (bind_run _ (bind_run _ (deref_run _ _ Hpd))) in Hrun.
    cbv beta in Hrun. unfold call_neighborhood_score in Hrun.
    apply lift_ok in Hrun. destruct Hrun as [Hc <-].
    exists pd. split; [exact Hperm |]. split; [exact Hrows |].
    split; [| split; [exact Hc |]].
    + simpl. rewrite Htr. reflexivity.
    + intros l x Hl. simpl. rewrite Hst.
      now apply nth_error_snoc_old, nth_error_snoc_old.
  - exfalso.
    set (s1 := mkState (store s ++ [d]) (tape s) (trace s) (safe_log s)).
    assert (Hcopy : copy_deep data s = (Ok (length (store s)), s1)).
    { unfold copy_deep. rewrite (bind_run _ (deref_run _ _ Hd)). apply alloc_run. }
    assert (Hp : nth_error (store s1) (length (store s)) = Some d)
      by apply nth_error_snoc_new.
    assert (Hfail : _permutation data g "node" s = (Raise AssertionError, s1)).
    { unfold _permutation. rewrite (bind_run _ Hcopy).
      change (String.eqb "node" "node") with true. cbv iota.
      rewrite (bind_run _ (deref_run _ _ Hp)).
      apply Nat.eqb_neq in Hrows. rewrite Hrows. reflexivity. }
    unfold trial in Hrun. rewrite (bind_fail _ Hfail) in Hrun. discriminate.
Qed.

(** The loop that shuffles by node: every trial permutes the same frame. *)
Lemma permutation_loop_by_node (g : Graph) (data : loc) (d : DataFrame float)
  (n_iter : nat) (nb : neighborhoods_t) (agg : string) (obs : DataFrame float)
  (sh : nat * nat) (s s' : state) (counts : ndarray * ndarray) :
  nth_error (store s) data = Some d ->
  permutation_loop g data n_iter "node" nb agg obs sh s = (Ok counts, s') ->
  exists pds,
    length pds = n_iter
    /\ Forall (column_permuted d) pds
    /\ trace s' = trace s ++ map EvNeighborhoodScore pds
    /\ (fst (shape d) = length (nodes g) \/ n_iter = O)
    /\ store_extends s s'.
Proof.
  intros Hd Hrun. unfold permutation_loop in Hrun.
  pose (I := fun (k : nat) (acc : ndarray * ndarray) (st : state) =>
               store_extends s st
               /\ (fst (shape d) = length (nodes g) \/ k = O)
               /\ exists pds,
                   length pds = k
                   /\ Forall (column_permuted d) pds
                   /\ trace st = trace s ++ map EvNeighborhoodScore pds).
  assert (HI : I (0 + n_iter)%nat counts s').
  { eapply (for_range_invariant_st I); [| | exact Hrun].
    - intros k acc st acc' st' [Hext [_ [pds [Hlen [Hall Htr]]]]] Hb.
      destruct (trial_by_node g data nb agg obs acc st (Hext _ _ Hd) Hb)
        as [pd [Hperm [Hrows [Htr' [_ Hext']]]]].
      split; [eapply store_extends_trans; eassumption |].
      split; [left; exact Hrows |].
      exists (pds ++ [pd]). split; [| split].
      + rewrite length_app. simpl. lia.
      + apply Forall_app. split; [exact Hall | constructor; [exact Hperm | constructor]].
      + rewrite Htr', Htr, map_app, <- app_assoc. reflexivity.
    - split; [apply store_extends_refl |]. split; [right; reflexivity |].
      exists []. simpl. rewrite app_nil_r. repeat split; constructor. }
  destruct HI as [Hext [Hrows [pds [Hlen [Hall Htr]]]]].
  exists pds. repeat split; assumption.
Qed.

(** X26: when shuffle_by is 'node', the observed neighborhood scores of
    [_SAFE] are computed from the data as it is, and each of the n_iter
    trials aggregates a table that has the labels of the data and, in every
    column, the values of the data column rearranged: the graph is called
    for n_iter + 1 aggregations, after the lookup of the neighborhoods when
    none were passed, and for nothing else. *)
Theorem SAFE_shuffle_by_node (g : Graph) (data : loc) (d : DataFrame float)
  (n_iter : nat) (nr_threshold : float) (neighborhoods : option neighborhoods_t)
  (_mode agg_mode : string) (s s' : state) (r : safe_result) :
  nth_error (store s) data = Some d ->
  _SAFE g data n_iter nr_threshold neighborhoods "node" _mode agg_mode s
  = (Ok r, s') ->
  exists pds,
    length pds = n_iter
    /\ Forall (column_permuted d) pds
    /\ trace s'
       = trace s ++ neighborhood_calls nr_threshold neighborhoods
           ++ [EvNeighborhoodScore d] ++ map EvNeighborhoodScore pds
    /\ (fst (shape d) = length (nodes g) \/ n_iter = O).
Proof.
  intros Hd Hrun. unfold _SAFE in Hrun.
  destruct (valid_mode _mode); cbn [negb] in Hrun; [| discriminate].
  change (String.eqb "node" "sample") with false in Hrun. cbv iota in Hrun.
  rewrite bind_ret_l in Hrun.
  rewrite (bind_run _ (neighborhoods_step g nr_threshold neighborhoods s)) in Hrun.
  set (nb := effective_neighborhoods g nr_threshold neighborhoods) in *.
  set (s1 := mkState (store s) (tape s)
               (trace s ++ neighborhood_calls nr_threshold neighborhoods)
               (safe_log s)) in *.
  assert (Hd1 : nth_error (store s1) data = Some d) by exact Hd.
  rewrite (bind_run _ (deref_run _ _ Hd1)) in Hrun.
  unfold call_neighborhood_score in Hrun.
  rewrite (bind_run _ (bind_run _ (emit_run _ s1))) in Hrun.
  unfold ret at 1 in Hrun.
  set (s2 := mkState (store s1) (tape s1)
               (trace s1 ++ [EvNeighborhoodScore d]) (safe_log s1)) in *.
  apply bind_ok in Hrun. destruct Hrun as [counts [s3 [Hloop Hrun]]].
  assert (Hd2 : nth_error (store s2) data = Some d) by exact Hd.
  destruct (@permutation_loop_by_node _ _ _ _ _ _ _ _ _ _ _ Hd2 Hloop)
    as [pds [Hlen [Hall [Htr [Hrows Hext]]]]].
  rewrite (bind_run _ (deref_run _ _ (Hext _ _ Hd2))) in Hrun.
  apply bind_ok in Hrun. destruct Hrun as [enr [s4 [Henr Hrun]]].
  apply lift_ok in Henr. destruct Henr as [_ <-].
  apply bind_ok in Hrun. destruct Hrun as [dec [s5 [Hdec Hrun]]].
  apply lift_ok in Hdec. destruct Hdec as [_ <-].
  apply select_mode_run in Hrun. destruct Hrun as [_ ->].
  exists pds. split; [exact Hlen |]. split; [exact Hall |].
  split; [| exact Hrows].
  rewrite Htr. simpl. rewrite <- !app_assoc. reflexivity.
Qed.

Lemma SAFE_shuffle_by_node_witness :
  exists r s',
    nth_error (store ex_state) 0 = Some ex_metadata
    /\ _SAFE ex_graph 0 2 (Fin (1 / 2)) None "node" "enrich" "sum" ex_state
       = (Ok r, s')
    /\ exists pds,
        length pds = 2%nat
        /\ Forall (column_permuted ex_metadata) pds
        /\ trace s'
           = trace ex_state ++ neighborhood_calls (Fin (1 / 2)) None
               ++ [EvNeighborhoodScore ex_metadata] ++ map EvNeighborhoodScore pds
        /\ (fst (shape ex_metadata) = length (nodes ex_graph) \/ 2%nat = O).
Proof.
  destruct (@SAFE_by_node_returns ex_graph 0 ex_metadata 2 (Fin (1 / 2)) None
              "enrich" "sum" ex_state ex_graph_keeps_labels eq_refl eq_refl
              eq_refl) as [r [s' Hrun]].
  exists r, s'. split; [reflexivity |]. split; [exact Hrun |].
  apply (@SAFE_shuffle_by_node ex_graph 0 ex_metadata 2 (Fin (1 / 2)) None
           "enrich" "sum" ex_state s' r eq_refl Hrun).
Defined.

(* ================================================================== *)
(** * The calls of [SAFE_batch] *)

Lemma SAFE_trial_calls (g : Graph) (data : loc) (n_iter : nat)
  (nr_threshold : float) (nb : neighborhoods_t)
  (shuffle_by _mode agg_mode : string) :
  preserves (calls_only (trial_call shuffle_by))
    (_SAFE g data n_iter nr_threshold (Some nb) shuffle_by _mode agg_mode).
Proof.
  apply preserves_SAFE with (allowed := trial_call shuffle_by).
  - apply calls_only_refl.
  - apply calls_only_trans.
  - intros d s. exists []. split; [simpl; now rewrite app_nil_r | constructor].
  - intros s. exists []. split; [| constructor].
    unfold draw. destruct (tape s); simpl; now rewrite app_nil_r.
  - intros e s He. apply calls_only_emit, He.
  - intros d. left. exact I.
  - intros Haxis d. right. split; [exact Haxis | exact I].
  - discriminate.
Qed.

(** X27: [SAFE_batch] looks the neighborhoods up once, or not at all when
    they are passed, and verifies the metadata once; whatever it calls after
    that, and however it ends, is the aggregation of the graph, or the
    sample-to-node transform when it shuffles by sample: [_SAFE] is handed
    the neighborhoods and never looks them up again. *)
Theorem SAFE_batch_single_lookup (u : Utils) (g : Graph)
  (metadata : DataFrame float) (n_iter : nat) (nr_threshold : float)
  (neighborhoods : option neighborhoods_t) (shuffle_by _mode agg_mode : string)
  (s : state) :
  exists rest,
    trace (snd (SAFE_batch u g metadata n_iter nr_threshold neighborhoods
                  shuffle_by _mode agg_mode s))
    = trace s ++ neighborhood_calls nr_threshold neighborhoods
        ++ [EvVerifyMetadata (verification_axis shuffle_by)] ++ rest
    /\ Forall (trial_call shuffle_by) rest.
Proof.
  pose proof (SAFE_batch_entry u g metadata n_iter nr_threshold neighborhoods
                shuffle_by _mode agg_mode s) as He.
  destruct (verify_metadata u g metadata (verification_axis shuffle_by)) as [v | e];
    rewrite He.
  - set (s0 := state_after_verification s nr_threshold neighborhoods shuffle_by [v]).
    destruct (SAFE_trial_calls g (length (store s)) n_iter nr_threshold
                (effective_neighborhoods g nr_threshold neighborhoods)
                shuffle_by _mode agg_mode s0) as [rest [Htr Hall]].
    exists rest. split; [| exact Hall].
    unfold bind at 1.
    destruct (_SAFE g (length (store s)) n_iter nr_threshold
                (Some (effective_neighborhoods g nr_threshold neighborhoods))
                shuffle_by _mode agg_mode s0) as [[r | e] s1];
      cbn [snd] in Htr.
    + assert (Hkeep : forall c : M unit,
                 (forall st, trace (snd (c st)) = trace st) ->
                 trace (snd ((_ <- c ;; ret r) s1)) = trace s1).
      { intros c Hc. unfold bind. specialize (Hc s1).
        destruct (c s1) as [[t | e] s2]; exact Hc. }
      rewrite Hkeep.
      * rewrite Htr. subst s0. cbn [state_after_verification trace].
        rewrite <- !app_assoc. reflexivity.
      * intros st. destruct (String.eqb _mode "both"); destruct r; reflexivity.
    + cbn [snd]. rewrite Htr. subst s0. cbn [state_after_verification trace].
      rewrite <- !app_assoc. reflexivity.
  - exists []. split; [| constructor].
    cbn [snd state_after_verification trace]. rewrite app_nil_r. reflexivity.
Qed.

(* ================================================================== *)
(** * More on [get_SAFE_summary] *)

Lemma mapR_Forall2 {A B} (f : A -> result B) (l : list A) (r : list B) :
  mapR f l = Ok r -> Forall2 (fun a b => f a = Ok b) l r.
Proof.
  revert r. induction l as [| x l IH]; simpl; intros r H.
  - injection H as <-. constructor.
  - apply rbind_ok in H. destruct H as [y [Hy H]].
    apply rbind_ok in H. destruct H as [ys [Hys H]].
    injection H as <-. constructor; [exact Hy | apply IH, Hys].
Qed.

Lemma Forall2_keys {A V} (f : A -> result (label * V)) (key : A -> label)
  (l : list A) (r : list (label * V)) :
  (forall a b, f a = Ok b -> fst b = key a) ->
  Forall2 (fun a b => f a = Ok b) l r -> map fst r = map key l.
Proof.
  intros Hk. induction 1 as [| a b l r Hab _ IH]; simpl; [reflexivity |].
  now rewrite IH, (Hk _ _ Hab).
Qed.

Lemma Forall2_in_r {A B} (P : A -> B -> Prop) (l : list A) (r : list B) (b : B) :
  Forall2 P l r -> In b r -> exists a, In a l /\ P a b.
Proof.
  induction 1 as [| x y l r Hxy _ IH]; intros Hin; [contradiction |].
  destruct Hin as [<- | Hin].
  - exists x. split; [left; reflexivity | exact Hxy].
  - destruct (IH Hin) as [a [Ha Hab]]. exists a. split; [right; exact Ha | exact Hab].
Qed.

(** X20: [get_SAFE_summary] raises an AssertionError when neither dimension
    of the score matrix is the number of columns of the metadata; nothing
    has been computed or looked up by then. *)
Theorem summary_shape_mismatch (u : Utils) (g : Graph)
  (metadata safe_scores : DataFrame float) (n_iter : option nat)
  (p_value nr_threshold : float) (_output_details : bool) (s : state) :
  fst (shape safe_scores) <> snd (shape metadata) ->
  snd (shape safe_scores) <> snd (shape metadata) ->
  get_SAFE_summary u g metadata safe_scores n_iter p_value nr_threshold
    _output_details s
  = (Raise AssertionError, s).
Proof.
  intros Hrows Hcols. unfold get_SAFE_summary.
  apply Nat.eqb_neq in Hrows. rewrite Hrows. cbn [negb].
  rewrite transpose_shape. cbn [fst].
  apply Nat.eqb_neq in Hcols. rewrite Hcols. reflexivity.
Qed.

Lemma summary_shape_mismatch_witness :
  fst (shape ex_wide_scores) <> snd (shape ex2_metadata)
  /\ snd (shape ex_wide_scores) <> snd (shape ex2_metadata)
  /\ get_SAFE_summary ex_utils ex2_graph ex2_metadata ex_wide_scores
       (Some 1%nat) (Fin 1) (Fin (1 / 2)) false empty_state
     = (Raise AssertionError, empty_state).
Proof.
  assert (H1 : fst (shape ex_wide_scores) <> snd (shape ex2_metadata))
    by (simpl; lia).
  assert (H2 : snd (shape ex_wide_scores) <> snd (shape ex2_metadata))
    by (simpl; lia).
  split; [exact H1 |]. split; [exact H2 |].
  apply (@summary_shape_mismatch ex_utils ex2_graph ex2_metadata ex_wide_scores
           (Some 1%nat) (Fin 1) (Fin (1 / 2)) false empty_state H1 H2).
Defined.

(** What a summary table is made of. *)
Lemma summary_table_inv (u : Utils) (g : Graph)
  (metadata safe_scores : DataFrame float) (n_iter : option nat)
  (p_value nr_threshold : float) (_output_details : bool) (s s' : state)
  (t : summary) :
  get_SAFE_summary u g metadata safe_scores n_iter p_value nr_threshold
    _output_details s = (Ok (Table t), s') ->
  exists cs ns,
    _output_details = false
    /\ fst (shape (oriented_scores metadata safe_scores)) = snd (shape metadata)
    /\ get_significant_nodes u g (oriented_scores metadata safe_scores) None
         nr_threshold p_value n_iter true s = (Ok (WithCentroids cs ns), s')
    /\ SAFE_total_score t = sum_rows (oriented_scores metadata safe_scores)
    /\ number_of_enriched_nodes t = map (fun fn => (fst fn, length (snd fn))) ns
    /\ number_of_enriched_samples t
       = map (fun fn => (fst fn, length (node2sample g (snd fn)))) ns
    /\ mapR (fun feature =>
               c <?- lookup feature cs ;;
               vals <?- loc_row (oriented_scores metadata safe_scores) feature c ;;
               Ok (feature, pd_sum vals))
            (index (oriented_scores metadata safe_scores))
       = Ok (SAFE_enriched_score t)
    /\ mapR (fun feature =>
               samples <?- lookup feature
                             (map (fun fn => (fst fn, node2sample g (snd fn))) ns) ;;
               vals <?- loc_col metadata samples feature ;;
               total <?- lookup feature (sum_cols metadata) ;;
               Ok (feature, fdiv (pd_sum vals) total))
            (index (oriented_scores metadata safe_scores))
       = Ok (enriched_abundance_ratio t)
    /\ mapR (fun feature =>
               x <?- lookup feature (SAFE_enriched_score t) ;;
               y <?- lookup feature (SAFE_total_score t) ;;
               Ok (feature, _safe_div x y))
            (index (oriented_scores metadata safe_scores))
       = Ok (enriched_SAFE_score_ratio t).
Proof.
  unfold get_SAFE_summary. fold (oriented_scores metadata safe_scores).
  set (F := oriented_scores metadata safe_scores).
  intros H.
  apply bind_ok in H. destruct H as [tt0 [s1 [Hassert H]]].
  apply assert_ok in Hassert. destruct Hassert as [Hshape <-].
  apply bind_ok in H. destruct H as [sig [s2 [Hsig H]]].
  destruct sig as [ns0 | cs ns]; [discriminate |].
  apply bind_ok in H. destruct H as [score [s3 [Hscore H]]].
  apply lift_ok in Hscore. destruct Hscore as [Hscore <-].
  destruct _output_details; [apply ret_ok in H; destruct H; discriminate |].
  apply bind_ok in H. destruct H as [abund [s4 [Habund H]]].
  apply lift_ok in Habund. destruct Habund as [Habund <-].
  apply bind_ok in H. destruct H as [ratio [s5 [Hratio H]]].
  apply lift_ok in Hratio. destruct Hratio as [Hratio <-].
  apply ret_ok in H. destruct H as [Ht <-]. injection Ht as <-.
  exists cs, ns. cbn [SAFE_total_score number_of_enriched_nodes
                        number_of_enriched_samples SAFE_enriched_score
                        enriched_abundance_ratio enriched_SAFE_score_ratio].
  split; [reflexivity |]. split; [apply Nat.eqb_eq, Hshape |].
  split; [exact Hsig |]. split; [reflexivity |]. split; [reflexivity |].
  split; [rewrite map_map; reflexivity |].
  split; [exact Hscore |]. split; [exact Habund | exact Hratio].
Qed.

(** The summary of the second example graph. *)
Lemma ex2_summary_runs :
  exists t s',
    get_SAFE_summary ex_utils ex2_graph ex2_metadata ex2_scores (Some 1%nat)
      (Fin 1) (Fin (1 / 2)) false empty_state = (Ok (Table t), s').
Proof.
  eexists. eexists.
  cbv -[Rleb Rltb Reqb IZR Rplus Rmult Rdiv Rinv Ropp ln]. rcompare. reflexivity.
Qed.

(** X21: in a summary table, the enriched SAFE score ratio of a feature is
    the guarded quotient of its enriched score by its total score: it is NaN
    when the total score is zero, and the plain quotient otherwise. *)
Theorem summary_safe_ratio (u : Utils) (g : Graph)
  (metadata safe_scores : DataFrame float) (n_iter : option nat)
  (p_value nr_threshold : float) (_output_details : bool) (s s' : state)
  (t : summary) :
  get_SAFE_summary u g metadata safe_scores n_iter p_value nr_threshold
    _output_details s = (Ok (Table t), s') ->
  forall feature ratio,
    In (feature, ratio) (enriched_SAFE_score_ratio t) ->
    exists x y,
      lookup feature (SAFE_enriched_score t) = Ok x
      /\ lookup feature (SAFE_total_score t) = Ok y
      /\ (feqb y (Fin 0) = true -> ratio = NaN)
      /\ (feqb y (Fin 0) = false -> ratio = fdiv (fmul x (Fin 1)) y).
Proof.
  intros H feature ratio Hin. apply summary_table_inv in H.
  destruct H as [cs [ns [_ [_ [_ [_ [_ [_ [_ [_ Hratio]]]]]]]]]].
  apply mapR_Forall2 in Hratio.
  destruct (@Forall2_in_r _ _ _ _ _ _ Hratio Hin) as [f [_ Hf]].
  apply rbind_ok in Hf. destruct Hf as [x [Hx Hf]].
  apply rbind_ok in Hf. destruct Hf as [y [Hy Hf]].
  injection Hf as <- <-.
  exists x, y. split; [exact Hx |]. split; [exact Hy |].
  unfold _safe_div. split; intros ->; reflexivity.
Qed.

Lemma summary_safe_ratio_witness :
  exists t s',
    get_SAFE_summary ex_utils ex2_graph ex2_metadata ex2_scores (Some 1%nat)
      (Fin 1) (Fin (1 / 2)) false empty_state = (Ok (Table t), s')
    /\ forall feature ratio,
        In (feature, ratio) (enriched_SAFE_score_ratio t) ->
        exists x y,
          lookup feature (SAFE_enriched_score t) = Ok x
          /\ lookup feature (SAFE_total_score t) = Ok y
          /\ (feqb y (Fin 0) = true -> ratio = NaN)
          /\ (feqb y (Fin 0) = false -> ratio = fdiv (fmul x (Fin 1)) y).
Proof.
  destruct ex2_summary_runs as [t [s' Hrun]].
  exists t, s'. split; [exact Hrun |].
  apply (@summary_safe_ratio ex_utils ex2_graph ex2_metadata ex2_scores
           (Some 1%nat) (Fin 1) (Fin (1 / 2)) false empty_state s' t Hrun).
Defined.

(** X22: the two outputs of [get_SAFE_summary] agree.  Where the table is
    returned, [_output_details] returns, from the same state, the enriched
    nodes that [get_significant_nodes] gives for the oriented scores and the
    enriched scores of the table; and the two counts of the table are the
    numbers of these nodes and of the samples [node2sample] finds in them. *)
Theorem summary_details_agree (u : Utils) (g : Graph)
  (metadata safe_scores : DataFrame float) (n_iter : option nat)
  (p_value nr_threshold : float) (s s' : state) (t : summary) :
  get_SAFE_summary u g metadata safe_scores n_iter p_value nr_threshold false s
  = (Ok (Table t), s') ->
  exists enriched_nodes,
    get_SAFE_summary u g metadata safe_scores n_iter p_value nr_threshold true s
    = (Ok (Details enriched_nodes (SAFE_enriched_score t)), s')
    /\ get_significant_nodes u g (oriented_scores metadata safe_scores) None
         nr_threshold p_value n_iter false s
       = (Ok (NodesOnly enriched_nodes), s')
    /\ number_of_enriched_nodes t
       = map (fun fn => (fst fn, length (snd fn))) enriched_nodes
    /\ number_of_enriched_samples t
       = map (fun fn => (fst fn, length (node2sample g (snd fn)))) enriched_nodes.
Proof.
  intros H. apply summary_table_inv in H.
  destruct H as [cs [ns [_ [Hshape [Hsig [_ [Hn [Hsn [Hscore _]]]]]]]]].
  exists ns. split; [| split; [| split; assumption]].
  - unfold get_SAFE_summary. fold (oriented_scores metadata safe_scores).
    rewrite Hshape, Nat.eqb_refl. unfold assert. rewrite bind_ret_l.
    rewrite (bind_run _ Hsig). cbv iota.
    unfold lift at 1. unfold bind at 1. rewrite Hscore. reflexivity.
  - apply significant_nodes_inv in Hsig. apply Hsig.
Qed.

Lemma summary_details_agree_witness :
  exists t s',
    get_SAFE_summary ex_utils ex2_graph ex2_metadata ex2_scores (Some 1%nat)
      (Fin 1) (Fin (1 / 2)) false empty_state = (Ok (Table t), s')
    /\ exists enriched_nodes,
        get_SAFE_summary ex_utils ex2_graph ex2_metadata ex2_scores
          (Some 1%nat) (Fin 1) (Fin (1 / 2)) true empty_state
        = (Ok (Details enriched_nodes (SAFE_enriched_score t)), s')
        /\ get_significant_nodes ex_utils ex2_graph
             (oriented_scores ex2_metadata ex2_scores) None (Fin (1 / 2))
             (Fin 1) (Some 1%nat) false empty_state
           = (Ok (NodesOnly enriched_nodes), s')
        /\ number_of_enriched_nodes t
           = map (fun fn => (fst fn, length (snd fn))) enriched_nodes
        /\ number_of_enriched_samples t
           = map (fun fn => (fst fn, length (node2sample ex2_graph (snd fn))))
               enriched_nodes.
Proof.
  destruct ex2_summary_runs as [t [s' Hrun]].
  exists t, s'. split; [exact Hrun |].
  apply (@summary_details_agree ex_utils ex2_graph ex2_metadata ex2_scores
           (Some 1%nat) (Fin 1) (Fin (1 / 2)) empty_state s' t Hrun).
Defined.

Lemma df_where_ge_col_names (df : DataFrame float) (thr other : float) :
  col_names (df_where df (df_ge df thr) other) = col_names df.
Proof.
  unfold col_names, df_where, df_ge, df_map, df_apply. cbn [columns].
  rewrite <- (map_id (columns df)) at 1.
  rewrite combine_map_same, !map_map. reflexivity.
Qed.

Lemma centroid_keys (df : DataFrame float) (thr : float) :
  map fst (significant_centroides_of
             (to_dict (df_where df (df_ge df thr) NaN)))
  = col_names df.
Proof.
  unfold significant_centroides_of, to_dict. rewrite !map_map. cbn [fst].
  apply df_where_ge_col_names.
Qed.

Lemma Forall2_fst_eq {A B C} (P : A * B -> A * C -> Prop) (l : list (A * B))
  (r : list (A * C)) :
  (forall a b, P a b -> fst b = fst a) -> Forall2 P l r -> map fst r = map fst l.
Proof.
  intros HP. induction 1 as [| a b l r Hab _ IH]; simpl; [reflexivity |].
  now rewrite IH, (HP _ _ Hab).
Qed.

Lemma sum_rows_keys (df : DataFrame float) : map fst (sum_rows df) = index df.
Proof.
  unfold sum_rows. rewrite map_map. cbn [fst].
  apply map_snd_combine, length_seq.
Qed.

(** X23: a summary table has one row per feature.  When the number of
    features differs from the number of nodes, each of its six columns is
    keyed by the feature names, in their order in the oriented score
    matrix. *)
Theorem summary_one_row_per_feature (u : Utils) (g : Graph)
  (metadata safe_scores : DataFrame float) (n_iter : option nat)
  (p_value nr_threshold : float) (_output_details : bool) (s s' : state)
  (t : summary) :
  (forall d, unify_data u d = d) ->
  snd (shape metadata) <> length (nodes g) ->
  get_SAFE_summary u g metadata safe_scores n_iter p_value nr_threshold
    _output_details s = (Ok (Table t), s') ->
  keys (SAFE_total_score t) = feature_names metadata safe_scores
  /\ keys (number_of_enriched_nodes t) = feature_names metadata safe_scores
  /\ keys (number_of_enriched_samples t) = feature_names metadata safe_scores
  /\ keys (SAFE_enriched_score t) = feature_names metadata safe_scores
  /\ keys (enriched_abundance_ratio t) = feature_names metadata safe_scores
  /\ keys (enriched_SAFE_score_ratio t) = feature_names metadata safe_scores.
Proof.
  intros Hu Hnodes H. apply summary_table_inv in H.
  destruct H as [cs [ns [_ [Hshape [Hsig [Htot [Hn [Hsn [Hscore [Hab Hratio]]]]]]]]]].
  unfold keys, feature_names.
  set (F := oriented_scores metadata safe_scores) in *.
  assert (Hns : map fst ns = index F).
  { apply significant_nodes_inv in Hsig.
    destruct Hsig as [[thr Hcs] [Hr _]].
    apply significant_nodes_of_ok in Hr.
    rewrite (Forall2_fst_eq (fun a b Hab => proj1 Hab) Hr), Hcs, centroid_keys.
    unfold node_scores. rewrite Hu, Hshape.
    apply Nat.eqb_neq in Hnodes. rewrite Hnodes. cbn [negb].
    apply transpose_col_names. }
  assert (Hkeys : forall V (f : label -> result (label * V)) r,
             (forall a b, f a = Ok b -> fst b = a) ->
             mapR f (index F) = Ok r -> map fst r = index F).
  { intros V f r Hf Hr. apply mapR_Forall2 in Hr.
    rewrite (Forall2_keys f (fun a => a) Hf Hr). apply map_id. }
  split; [rewrite Htot; apply sum_rows_keys |].
  split; [rewrite Hn, map_map; exact Hns |].
  split; [rewrite Hsn, map_map; exact Hns |].
  split; [| split].
  - eapply Hkeys; [| exact Hscore]. intros a b E. cbv beta in E.
    apply rbind_ok in E. destruct E as [c [_ E]].
    apply rbind_ok in E. destruct E as [v [_ E]].
    injection E as <-. reflexivity.
  - eapply Hkeys; [| exact Hab]. intros a b E. cbv beta in E.
    apply rbind_ok in E. destruct E as [c [_ E]].
    apply rbind_ok in E. destruct E as [v [_ E]].
    apply rbind_ok in E. destruct E as [w [_ E]].
    injection E as <-. reflexivity.
  - eapply Hkeys; [| exact Hratio]. intros a b E. cbv beta in E.
    apply rbind_ok in E. destruct E as [c [_ E]].
    apply rbind_ok in E. destruct E as [v [_ E]].
    injection E as <-. reflexivity.
Qed.

Lemma summary_one_row_per_feature_witness :
  (forall d, unify_data ex_utils d = d)
  /\ snd (shape ex2_metadata) <> length (nodes ex2_graph)
  /\ exists t s',
      get_SAFE_summary ex_utils ex2_graph ex2_metadata ex2_scores (Some 1%nat)
        (Fin 1) (Fin (1 / 2)) false empty_state = (Ok (Table t), s')
      /\ keys (SAFE_total_score t) = feature_names ex2_metadata ex2_scores
      /\ keys (number_of_enriched_nodes t) = feature_names ex2_metadata ex2_scores
      /\ keys (number_of_enriched_samples t) = feature_names ex2_metadata ex2_scores
      /\ keys (SAFE_enriched_score t) = feature_names ex2_metadata ex2_scores
      /\ keys (enriched_abundance_ratio t) = feature_names ex2_metadata ex2_scores
      /\ keys (enriched_SAFE_score_ratio t) = feature_names ex2_metadata ex2_scores.
Proof.
  assert (Hne : snd (shape ex2_metadata) <> length (nodes ex2_graph))
    by (simpl; lia).
  split; [reflexivity |]. split; [exact Hne |].
  destruct ex2_summary_runs as [t [s' Hrun]].
  exists t, s'. split; [exact Hrun |].
  apply (@summary_one_row_per_feature ex_utils ex2_graph ex2_metadata ex2_scores
           (Some 1%nat) (Fin 1) (Fin (1 / 2)) false empty_state s' t
           (fun d => eq_refl) Hne Hrun).
Defined.

(* ================================================================== *)
(** * [tmap/api/SAFE_analysis.py] *)

Lemma nodup_singleton (l : list nat) :
  length (nodup Nat.eq_dec l) = 1%nat
  <-> l <> [] /\ exists n, Forall (fun x => x = n) l.
Proof.
  split.
  - intros H. split; [intros ->; discriminate |].
    destruct (nodup Nat.eq_dec l) as [| n [| m t]] eqn:E; try discriminate.
    exists n. apply Forall_forall. intros x Hx.
    apply (nodup_In Nat.eq_dec) in Hx. rewrite E in Hx.
    destruct Hx as [<- | []]. reflexivity.
  - intros [Hne [n Hall]]. induction Hall as [| x l -> Hall IH];
      [contradiction |].
    simpl. destruct l as [| y l].
    + reflexivity.
    + destruct (in_dec Nat.eq_dec n (y :: l)) as [Hin | Hout].
      * apply IH. discriminate.
      * exfalso. apply Hout. inversion Hall; subst. left. reflexivity.
Qed.

Lemma same_rows_nodup (datas : list (DataFrame float)) :
  same_rows datas
  <-> length (nodup Nat.eq_dec (map (fun d => fst (shape d)) datas)) = 1%nat.
Proof.
  rewrite nodup_singleton. unfold same_rows. split.
  - intros [Hne [n Hall]]. split.
    + destruct datas; [contradiction | discriminate].
    + exists n. apply Forall_map. exact Hall.
  - intros [Hne [n Hall]]. split.
    + intros ->. apply Hne. reflexivity.
    + exists n. apply Forall_map in Hall. exact Hall.
Qed.

Lemma dict_set_fresh {V} (k : string) (v : V) (d : list (string * V)) :
  ~ In k (map fst d) -> dict_set k v d = d ++ [(k, v)].
Proof.
  induction d as [| [k' v'] d IH]; simpl; intros H; [reflexivity |].
  destruct (String.eqb k k') eqn:E.
  - apply String.eqb_eq in E. exfalso. apply H. left. symmetry. exact E.
  - f_equal. apply IH. intros Hin. apply H. right. exact Hin.
Qed.

(** Distinct keys are stored in the order in which they are set. *)
Lemma fold_dict_set_fresh {A V} (f : A -> V) (l : list (string * A))
  (acc : list (string * V)) :
  NoDup (map fst acc ++ map fst l) ->
  fold_left (fun d kv => dict_set (fst kv) (f (snd kv)) d) l acc
  = acc ++ map (fun kv => (fst kv, f (snd kv))) l.
Proof.
  revert acc. induction l as [| [k a] l IH]; intros acc Hnd; simpl.
  - now rewrite app_nil_r.
  - cbn [map fst] in Hnd.
    rewrite dict_set_fresh.
    + rewrite IH.
      * rewrite <- app_assoc. reflexivity.
      * rewrite map_app. cbn [map fst]. rewrite <- app_assoc. exact Hnd.
    + intros Hin. apply NoDup_remove_2 in Hnd. apply Hnd.
      apply in_or_app. left. exact Hin.
Qed.

Lemma NoDup_firstn {A} (l : list A) (n : nat) : NoDup l -> NoDup (firstn n l).
Proof.
  intros H. rewrite <- (firstn_skipn n l) in H.
  apply NoDup_app_remove_r in H. exact H.
Qed.

Lemma combine_map_r {A B C} (f : B -> C) (l1 : list A) (l2 : list B) :
  map (fun kv => (fst kv, f (snd kv))) (combine l1 l2) = combine l1 (map f l2).
Proof.
  revert l2. induction l1 as [| a l1 IH]; intros [| b l2]; simpl;
    try reflexivity.
  now rewrite IH.
Qed.

Lemma map_fst_combine_firstn {A B} (l1 : list A) (l2 : list B) :
  map fst (combine l1 l2) = firstn (length l2) l1.
Proof.
  revert l2. induction l1 as [| a l1 IH]; intros [| b l2]; simpl;
    try reflexivity.
  now rewrite IH.
Qed.

(** X24: [preprocess_metadata] refuses metadata files that do not all have
    the same number of rows, and an empty list of files: it returns nothing.
    Otherwise it returns the concatenated table with the dict of the column
    labels of each file, which for distinct paths lists the files in their
    order. *)
Theorem preprocess_metadata_row_counts (api : Api) (paths : list string)
  (filetype : string) (datas : list (DataFrame float)) :
  mapR (fun path => data_parser api path filetype) paths = Ok datas ->
  (~ same_rows datas -> preprocess_metadata api paths filetype = Ok None)
  /\ (same_rows datas ->
      preprocess_metadata api paths filetype
      = (data <?- pd_concat api datas ;;
         Ok (Some (data, cols_dict_of paths datas))))
  /\ (NoDup paths ->
      cols_dict_of paths datas = combine paths (map col_names datas)).
Proof.
  intros Hparse. unfold preprocess_metadata. rewrite Hparse. cbn [rbind].
  split; [| split].
  - intros Hnot.
    destruct (Nat.eqb (length (nodup Nat.eq_dec (map (fun d => fst (shape d)) datas))) 1)
      eqn:E; [| reflexivity].
    exfalso. apply Hnot, same_rows_nodup, Nat.eqb_eq, E.
  - intros Hsame. apply same_rows_nodup in Hsame. rewrite Hsame. reflexivity.
  - intros Hnd. unfold cols_dict_of.
    rewrite (fold_dict_set_fresh (@col_names float)).
    + apply combine_map_r.
    + cbn [map app]. rewrite map_fst_combine_firstn. apply NoDup_firstn, Hnd.
Qed.

Lemma preprocess_metadata_row_counts_witness :
  mapR (fun path => data_parser ex_api path "csv") ["a.csv"; "b.csv"]%string
  = Ok [ex_metadata; ex2_metadata]
  /\ (~ same_rows [ex_metadata; ex2_metadata] ->
      preprocess_metadata ex_api ["a.csv"; "b.csv"]%string "csv" = Ok None)
  /\ (same_rows [ex_metadata; ex2_metadata] ->
      preprocess_metadata ex_api ["a.csv"; "b.csv"]%string "csv"
      = (data <?- pd_concat ex_api [ex_metadata; ex2_metadata] ;;
         Ok (Some (data, cols_dict_of ["a.csv"; "b.csv"]%string
                           [ex_metadata; ex2_metadata]))))
  /\ (NoDup ["a.csv"; "b.csv"]%string ->
      cols_dict_of ["a.csv"; "b.csv"]%string [ex_metadata; ex2_metadata]
      = combine ["a.csv"; "b.csv"]%string
          (map (@col_names float) [ex_metadata; ex2_metadata])).
Proof.
  split; [reflexivity |].
  apply (@preprocess_metadata_row_counts ex_api ["a.csv"; "b.csv"]%string "csv"
           [ex_metadata; ex2_metadata] eq_refl).
Defined.

(** X25: [generate_SAFE_score] never returns a result.  Whatever the graph,
    the metadata and the mode, its first statement calls [SAFE_batch] with
    the metadata under the keyword [meta_data], which goes into [**kwargs]
    and leaves the parameter [metadata] without a value: the call raises a
    TypeError before [SAFE_batch] runs, and nothing has happened.  The calls
    of [get_SAFE_summary] that follow pass keywords the function does not
    have and would raise a TypeError as well. *)
Theorem generate_SAFE_score_type_error {R} (rest_both rest_single : safe_result -> M R)
  (u : Utils) (graph : Graph) (metadata : DataFrame float) (n_iter : nat)
  (nr_threshold : float) (_mode _cal_type : string) (verbose : nat) (s : state) :
  generate_SAFE_score rest_both rest_single u graph metadata n_iter
    nr_threshold _mode _cal_type verbose s
  = (Raise TypeError, s)
  /\ forall safe_scores pval,
      summary_call u graph metadata safe_scores n_iter pval s
      = (Raise TypeError, s).
Proof.
  split.
  - unfold generate_SAFE_score.
    destruct (String.eqb _mode "both"); reflexivity.
  - intros safe_scores pval. reflexivity.
Qed.
